(** * django-dagcategory: materialized-path categories

    A shallow embedding of [dagcategory/models.py]: the [DAGCategory] model
    (rows of a table keyed by primary key), its [save] / [update_path]
    cascade, the manager's [select_from_url] and [build_tree_structure],
    and the path-based traversal queries. *)

From Stdlib Require Import Ascii ZArith Lia.
From stdpp Require Import gmap strings list sorting.

(** ** Python string operations used by the model *)

Module PyStr.

(** [sep.join(items)] *)
Fixpoint join (sep : string) (items : list string) : string :=
  match items with
  | [] => ""
  | [x] => x
  | x :: rest => x +:+ sep +:+ join sep rest
  end.

Definition is_colon (c : ascii) : bool := bool_decide (c = ":"%char).
Definition is_slash (c : ascii) : bool := bool_decide (c = "/"%char).

(** [s.split('::')]: the separators are the leftmost non-overlapping
    occurrences of the two-character delimiter; [cur] holds the piece
    being read. *)
Fixpoint split_colons (cur s : string) : list string :=
  match s with
  | "" => [cur]
  | String c s' =>
      match s' with
      | String c' rest =>
          if is_colon c && is_colon c'
          then cur :: split_colons "" rest
          else split_colons (cur +:+ String c "") s'
      | "" => [cur +:+ String c ""]
      end
  end.

(** [s.count('::')]: number of non-overlapping occurrences, scanning from
    the left. *)
Fixpoint count_colons (s : string) : nat :=
  match s with
  | "" => 0
  | String c s' =>
      match s' with
      | String c' rest =>
          if is_colon c && is_colon c' then S (count_colons rest)
          else count_colons s'
      | "" => 0
      end
  end.

(** [s.split('/')] *)
Fixpoint split_slash (cur s : string) : list string :=
  match s with
  | "" => [cur]
  | String c s' =>
      if is_slash c then cur :: split_slash "" s'
      else split_slash (cur +:+ String c "") s'
  end.

(** [s.startswith(p)] *)
Definition startswith (s p : string) : bool := String.prefix p s.

(** The piece contains no ['::'] and does not end in [':']. *)
Fixpoint closed_piece (s : string) : bool :=
  match s with
  | "" => true
  | String c s' =>
      if is_colon c
      then match s' with
           | "" => false
           | String c' _ => negb (is_colon c') && closed_piece s'
           end
      else closed_piece s'
  end.

(** The piece contains no ['::']. *)
Fixpoint no_delim (s : string) : bool :=
  match s with
  | "" => true
  | String c s' =>
      match s' with
      | String c' _ => negb (is_colon c && is_colon c') && no_delim s'
      | "" => true
      end
  end.

End PyStr.

(** ** Data model *)

Inductive Error :=
  | AssertionError          (* "Circular Parenting is not allowed" *)
  | DoesNotExist
  | MultipleObjectsReturned
  | IntegrityError          (* the unique constraint on [path] *)
  | AttributeError          (* attribute access on [None] *)
  | OutOfFuel.              (* artefact of the embedding, shown unreachable *)

Inductive Result (A : Type) :=
  | Ok (a : A)
  | Raise (e : Error).
Arguments Ok {A} a.
Arguments Raise {A} e.

Global Instance Error_eq_dec : EqDecision Error.
Proof. solve_decision. Defined.

(** The columns of a category row other than its primary key.  [parent] is
    the foreign key to the same table; the many-to-many [sites] relation
    lives in its own table (see [Database]).  Field lengths ([max_length])
    are not modelled. *)
Record Row := mkRow {
  name   : string;
  slug   : string;
  parent : option positive;
  path   : string;
  order  : nat
}.

(** A model instance in memory: [pk] is [None] until the first save. *)
Record DAGCategory := mkCat {
  pk  : option positive;
  row :> Row
}.

Global Instance Row_eq_dec : EqDecision Row.
Proof. solve_decision. Defined.
Global Instance DAGCategory_eq_dec : EqDecision DAGCategory.
Proof. solve_decision. Defined.

Definition DELIMETER : string := "::".

Definition set_path (p : string) (r : Row) : Row :=
  mkRow (name r) (slug r) (parent r) p (order r).

Definition with_path (p : string) (c : DAGCategory) : DAGCategory :=
  mkCat (pk c) (set_path p c).

(** [depth] property: [self.path.count(self.DELIMETER)] *)
Definition depth (r : Row) : nat := PyStr.count_colons (path r).

(** The category table: rows by primary key. *)
Abbreviation table := (gmap positive Row).

Definition fetch (t : table) (k : positive) : option DAGCategory :=
  mkCat (Some k) <$> t !! k.

(** All rows of the table as instances. *)
Definition objects (t : table) : list DAGCategory :=
  (λ kr, mkCat (Some kr.1) kr.2) <$> map_to_list t.

(** Orderings a queryset can carry: the default [Meta.ordering = ['order']],
    [order_by('path')], [order_by('-path')], and their reversals.  Strings
    compare by code point; rows that tie keep the relative order of the
    table scan. *)
Inductive Ordering := ByOrder | ByOrderDesc | ByPath | ByPathDesc.

Definition ord_le (o : Ordering) (a b : DAGCategory) : Prop :=
  match o with
  | ByOrder => order a ≤ order b
  | ByOrderDesc => order b ≤ order a
  | ByPath => (path a ≤ path b)%string
  | ByPathDesc => (path b ≤ path a)%string
  end.

Global Instance ord_le_dec o : RelDecision (ord_le o).
Proof. intros a b. destruct o; simpl; apply _. Defined.

Definition sort_by (o : Ordering) (l : list DAGCategory) : list DAGCategory :=
  merge_sort (ord_le o) l.

(** ** [DAGCategory.save] and [DAGCategory.update_path] *)

(** The loop of [save]: [p] is the foreign key [p.parent] about to be
    followed, [parents] the set of primary keys seen, [acc] the path built
    so far.  Ancestors are read from the table; a key with no row makes the
    dereference raise. *)
Fixpoint walk (fuel : nat) (t : table) (p : option positive)
    (parents : gset (option positive)) (acc : string) : Result string :=
  match p with
  | None => Ok acc
  | Some q =>
      match fuel with
      | 0 => Raise OutOfFuel
      | S fuel' =>
          match t !! q with
          | None => Raise DoesNotExist
          | Some r =>
              if decide (Some q ∈ parents) then Raise AssertionError
              else walk fuel' t (parent r) ({[Some q]} ∪ parents)
                     (slug r +:+ DELIMETER +:+ acc)
          end
      end
  end.

(** Another row already holds this path ([unique=True]). *)
Definition path_taken (t : table) (k : option positive) (p : string) : bool :=
  bool_decide (Exists (λ c : DAGCategory, path c = p ∧ pk c ≠ k) (objects t)).

(** [Model.save]: UPDATE the row of a known key (INSERT when there is
    none), INSERT under an unused key otherwise.  Of the reasons the
    database has to refuse a write only the unique constraint on [path] is
    modelled; a value outside the range or width of its column ([order],
    [max_length]) is refused by the database and accepted here, so what is
    stated about a write that succeeds is stated for a save that
    returned. *)
Definition super_save (t : table) (self : DAGCategory) : Result (table * positive) :=
  if path_taken t (pk self) (path self) then Raise IntegrityError
  else match pk self with
       | Some k => Ok (<[k := row self]> t, k)
       | None => let k := fresh (dom t) in Ok (<[k := row self]> t, k)
       end.

(** [self.children.all()]: the rows whose [parent] is [k], in the model's
    default ordering ([Meta.ordering = ['order']]). *)
Definition children_all (t : table) (k : positive) : list DAGCategory :=
  sort_by ByOrder
    (filter (λ c : DAGCategory, parent c = Some k) (objects t)).

(** A [for] loop whose body may raise: the first exception ends it. *)
Fixpoint for_each {A} (body : table → A → table * Result unit)
    (l : list A) (t : table) : table * Result unit :=
  match l with
  | [] => (t, Ok ())
  | c :: l' =>
      match body t c with
      | (t', Ok _) => for_each body l' t'
      | (t', Raise e) => (t', Raise e)
      end
  end.

(** [update_path], with the [save] it calls as a parameter. *)
Definition update_path_with
    (save_rec : table → DAGCategory → table * DAGCategory * Result unit)
    (t : table) (self : DAGCategory) (path_so_far : string) : table * Result unit :=
  let self := with_path (path_so_far +:+ DELIMETER +:+ slug self) self in
  let '(t', _, r) := save_rec t self in (t', r).

(** [save] returns the table, the instance as it is in memory afterwards, and
    the outcome.  [fuel] bounds the depth of the cascade. *)
Fixpoint save_fuel (fuel : nat) (t : table) (self : DAGCategory)
    : table * DAGCategory * Result unit :=
  match fuel with
  | 0 => (t, self, Raise OutOfFuel)
  | S fuel' =>
      match walk (S (size t)) t (parent self) {[pk self]} (slug self) with
      | Raise e => (t, self, Raise e)
      | Ok p =>
          let self := with_path p self in
          match super_save t self with
          | Raise e => (t, self, Raise e)
          | Ok (t1, k) =>
              let self := mkCat (Some k) (row self) in
              let '(t2, r) :=
                for_each (λ t c, update_path_with (save_fuel fuel') t c (path self))
                  (children_all t1 k) t1 in
              (t2, self, r)
          end
      end
  end.

Definition save (t : table) (self : DAGCategory) : table * DAGCategory * Result unit :=
  save_fuel (S (S (size t))) t self.

Definition update_path (t : table) (self : DAGCategory) (path_so_far : string)
    : table * Result unit :=
  update_path_with (save_fuel (S (S (size t)))) t self path_so_far.

(** The foreign keys followed from [p] upwards, youngest first, end at a row
    without parent. *)
Fixpoint chain (t : table) (p : option positive) (l : list positive) : Prop :=
  match l, p with
  | [], None => True
  | q :: l', Some q' =>
      q = q' ∧ match t !! q with
               | Some r => chain t (parent r) l'
               | None => False
               end
  | _, _ => False
  end.

(** Slugs of the rows [l], in the order of [l]. *)
Definition slugs_of (t : table) (l : list positive) : list string :=
  omap (λ q, slug <$> t !! q) l.

(** The path that invariants I1/I2 prescribe for an instance whose ancestors,
    youngest first, are [l]. *)
Definition chain_path (t : table) (l : list positive) (own_slug : string) : string :=
  PyStr.join DELIMETER (reverse (slugs_of t l) ++ [own_slug]).

(** [x] is the row [k] or below it. *)
Definition in_subtree (t : table) (k x : positive) : Prop :=
  ∃ l, chain t (Some x) l ∧ k ∈ l.

(** ** Querysets *)

(** The database: the category table and the many-to-many table linking a
    category to the sites it is published on. *)
Record Database := mkDB {
  categories : table;
  category_sites : gset (positive * nat)
}.

(** A queryset is lazy: a row condition and an ordering, run against the
    database when it is iterated.  Conditions joined with [|] select a row
    once. *)
Record QuerySet := mkQS {
  cond : Database → DAGCategory → bool;
  ordering : Ordering
}.

Definition evaluate (db : Database) (qs : QuerySet) : list DAGCategory :=
  sort_by (ordering qs) (filter (λ c, cond qs db c) (objects (categories db))).

Definition flip_ordering (o : Ordering) : Ordering :=
  match o with
  | ByOrder => ByOrderDesc
  | ByOrderDesc => ByOrder
  | ByPath => ByPathDesc
  | ByPathDesc => ByPath
  end.

Definition all_objects : QuerySet := mkQS (λ _ _, true) ByOrder.
Definition qs_none : QuerySet := mkQS (λ _ _, false) ByOrder.
Definition qs_filter (f : Database → DAGCategory → bool) (qs : QuerySet) : QuerySet :=
  mkQS (λ db c, cond qs db c && f db c) (ordering qs).
Definition qs_exclude (f : Database → DAGCategory → bool) (qs : QuerySet) : QuerySet :=
  mkQS (λ db c, cond qs db c && negb (f db c)) (ordering qs).
Definition qs_or (a b : QuerySet) : QuerySet :=
  mkQS (λ db c, cond a db c || cond b db c) (ordering a).
Definition order_by (o : Ordering) (qs : QuerySet) : QuerySet := mkQS (cond qs) o.
Definition qs_reverse (qs : QuerySet) : QuerySet :=
  mkQS (cond qs) (flip_ordering (ordering qs)).

(** Field lookups. *)
Definition sites__id (site : nat) (db : Database) (c : DAGCategory) : bool :=
  match pk c with
  | Some k => bool_decide ((k, site) ∈ category_sites db)
  | None => false
  end.
Definition has_children (db : Database) (c : DAGCategory) : bool :=
  bool_decide (Exists (λ d : DAGCategory, is_Some (pk c) ∧ parent d = pk c)
                 (objects (categories db))).
Definition parent__isnull (b : bool) (_ : Database) (c : DAGCategory) : bool :=
  bool_decide (bool_decide (parent c = None) = b).
Definition children__isnull (b : bool) (db : Database) (c : DAGCategory) : bool :=
  bool_decide (negb (has_children db c) = b).
Definition parent_is (k : option positive) (_ : Database) (c : DAGCategory) : bool :=
  bool_decide (is_Some k ∧ parent c = k).
Definition path_is (p : string) (_ : Database) (c : DAGCategory) : bool :=
  bool_decide (path c = p).
Definition path__startswith (p : string) (_ : Database) (c : DAGCategory) : bool :=
  PyStr.startswith (path c) p.
Definition pk_is (k : option positive) (_ : Database) (c : DAGCategory) : bool :=
  bool_decide (is_Some k ∧ pk c = k).

(** [QuerySet.get] *)
Definition get (db : Database) (qs : QuerySet) : Result DAGCategory :=
  match evaluate db qs with
  | [] => Raise DoesNotExist
  | [c] => Ok c
  | _ => Raise MultipleObjectsReturned
  end.

(** [items.pop()] *)
Fixpoint pop {A} (l : list A) : option (list A * A) :=
  match l with
  | [] => None
  | [x] => Some ([], x)
  | x :: l' => (λ ry : list A * A, (x :: ry.1, ry.2)) <$> pop l'
  end.

(** ** [build_tree_structure]: the linear pass *)

(** Nodes are named by their position in the path-ordered queryset.
    [previous] is the chain [previous, previous.parent, ...] of parent
    attributes assigned by the pass, so that [previous = previous.parent] is
    its tail; the chain ends at a root, whose [parent] was never assigned. *)
Record Forest := mkForest {
  ret : list nat;
  children_list : gmap nat (list nat);
  node_parent : gmap nat nat;
  previous : list nat
}.

Definition depth_at (nodes : list DAGCategory) (i : nat) : nat :=
  from_option (λ c : DAGCategory, depth c) 0 (nodes !! i).

(** [while previous.depth > node.depth: previous = previous.parent] *)
Fixpoint wind_back (nodes : list DAGCategory) (d : nat) (prev : list nat) : list nat :=
  match prev with
  | [] => []
  | p :: up => if decide (d < depth_at nodes p) then wind_back nodes d up else prev
  end.

(** The body of the loop for the node at position [i].  After the wind
    back, [previous] is the sibling or the parent of the node.  An empty
    chain is [previous = None] (no node processed yet), whose [depth] raises;
    reading the [parent] of the last element of the chain would read a
    root's stored parent, which the pass never does (a root has depth 0). *)
Definition build_step (nodes : list DAGCategory) (st : Forest) (i : nat)
    (node : DAGCategory) : Result Forest :=
  let cl := <[i := []]> (children_list st) in
  if decide (depth node = 0)
  then Ok (mkForest (ret st ++ [i]) cl (node_parent st) [i])
  else
    match wind_back nodes (depth node) (previous st) with
    | [] => Raise AttributeError
    | p :: up =>
        let parent_chain :=
          if decide (depth_at nodes p = depth node) then up else p :: up in
        match parent_chain with
        | [] => Raise AttributeError
        | q :: _ =>
            Ok (mkForest (ret st) (alter (λ l, l ++ [i]) q cl)
                  (<[i := q]> (node_parent st)) (i :: parent_chain))
        end
    end.

Fixpoint build_loop (nodes : list DAGCategory) (i : nat) (rest : list DAGCategory)
    (st : Forest) : Result Forest :=
  match rest with
  | [] => Ok st
  | node :: rest' =>
      match build_step nodes st i node with
      | Ok st' => build_loop nodes (S i) rest' st'
      | Raise e => Raise e
      end
  end.

(** The pass over a queryset already in path order. *)
Definition build_pass (nodes : list DAGCategory) : Result Forest :=
  build_loop nodes 0 nodes (mkForest [] ∅ ∅ []).

(** The pass after the path ordering the function imposes. *)
Definition build_forest (l : list DAGCategory) : Result Forest :=
  build_pass (sort_by ByPath l).

Section Manager.
Variable SITE_ID : nat.

Definition live : QuerySet := qs_filter (sites__id SITE_ID) all_objects.
Definition toplevel : QuerySet := qs_filter (parent__isnull true) live.
Definition leaf_nodes : QuerySet := qs_filter (children__isnull true) live.
Definition inner_nodes : QuerySet := qs_filter (children__isnull false) live.

(** The loop of [select_from_url]; the embedding also records the paths
    looked up, in order. *)
Fixpoint select_loop (fuel : nat) (db : Database) (items extras : list string)
    (limit : Z) (lookups : list string)
    : list string * Result (option DAGCategory * list string) :=
  match fuel with
  | 0 => (lookups, Raise OutOfFuel)
  | S fuel' =>
      match pop items with
      | Some (items', x) =>
          if decide (limit = 0%Z) then (lookups, Ok (None, extras))
          else
            let path := PyStr.join DELIMETER items in
            match get db (qs_filter (path_is path) live) with
            | Ok category => (lookups ++ [path], Ok (Some category, extras))
            | Raise DoesNotExist =>
                select_loop fuel' db items' (x :: extras) (limit - 1)%Z
                  (lookups ++ [path])
            | Raise e => (lookups ++ [path], Raise e)
            end
      | None => (lookups, Ok (None, extras))
      end
  end.

Definition select_items (db : Database) (items : list string) (limit : Z)
    : list string * Result (option DAGCategory * list string) :=
  let limit := if decide (limit ≠ (-1)%Z) then (limit + 1)%Z else limit in
  select_loop (S (length items)) db items [] limit [].

Definition select_from_url (db : Database) (url : string) (limit : Z)
    : list string * Result (option DAGCategory * list string) :=
  select_items db (PyStr.split_slash "" url) limit.

Definition build_tree_structure (db : Database) (qs : option QuerySet)
    : Result Forest :=
  let qs := default live qs in
  build_pass (evaluate db (order_by ByPath qs)).

Definition subcategories (self : DAGCategory) : QuerySet :=
  qs_filter (sites__id SITE_ID) (qs_filter (parent_is (pk self)) all_objects).

Definition all_children (self : DAGCategory) : QuerySet :=
  qs_filter (path__startswith (path self +:+ DELIMETER)) live.

Definition subtree (self : DAGCategory) : QuerySet :=
  qs_or (qs_filter (pk_is (pk self)) all_objects) (all_children self).
End Manager.

(** The loop of [branch]. *)
Fixpoint branch_loop (slugs path_so_far : list string) (qs : QuerySet) : QuerySet :=
  match slugs with
  | [] => qs
  | slug :: rest =>
      let path_so_far := path_so_far ++ [slug] in
      branch_loop rest path_so_far
        (qs_or qs (qs_filter (path_is (PyStr.join DELIMETER path_so_far)) all_objects))
  end.

Definition branch (self : DAGCategory) : QuerySet :=
  order_by ByPathDesc
    (branch_loop (PyStr.split_colons "" (path self)) [] qs_none).

Definition travel_up (self : DAGCategory) : QuerySet :=
  qs_exclude (pk_is (pk self)) (branch self).

Definition parents (self : DAGCategory) : QuerySet := qs_reverse (travel_up self).

Definition leaf_node (db : Database) (self : DAGCategory) : bool :=
  negb (bool_decide
    (length (evaluate db (qs_filter (parent_is (pk self)) all_objects)) ≠ 0)).

Definition inner_node (db : Database) (self : DAGCategory) : bool :=
  negb (leaf_node db self).

(** ** [urllize] *)

(** [s.replace('::', '/')]: the leftmost non-overlapping occurrences of the
    delimiter become a slash. *)
Fixpoint replace_colons (s : string) : string :=
  match s with
  | "" => ""
  | String c s' =>
      match s' with
      | String c' rest =>
          if PyStr.is_colon c && PyStr.is_colon c'
          then String "/" (replace_colons rest)
          else String c (replace_colons s')
      | "" => String c ""
      end
  end.

Definition urllize (self : DAGCategory) : string := replace_colons (path self).

(** The string contains no slash. *)
Fixpoint no_slash (s : string) : bool :=
  match s with
  | "" => true
  | String c s' => negb (PyStr.is_slash c) && no_slash s'
  end.

(** ** Predicates used in the statements *)

(** Foreign keys followed from [p] upwards through rows of the table, without
    the requirement that they end at a root. *)
Fixpoint links (t : table) (p : option positive) (l : list positive) : Prop :=
  match l, p with
  | [], _ => True
  | q :: l', Some q' =>
      q = q' ∧ match t !! q with
               | Some r => links t (parent r) l'
               | None => False
               end
  | _ :: _, None => False
  end.

(** The table with the [path] column blanked: what [save] never changes below
    the saved node. *)
Definition shape (t : table) : table := set_path "" <$> t.

(** The stored path of row [x] is the one its parent chain prescribes. *)
Definition good (t : table) (x : positive) : Prop :=
  ∃ r l, t !! x = Some r ∧ chain t (parent r) l ∧ path r = chain_path t l (slug r).

(** What a successful [save] leaves behind. *)
Definition save_post (t : table) (self : DAGCategory) (t' : table)
    (self' : DAGCategory) : Prop :=
  ∃ k l,
    pk self' = Some k
    ∧ (pk self = Some k ∨ (pk self = None ∧ t !! k = None))
    ∧ chain t (parent self) l ∧ (k ∉ l)
    ∧ row self' = set_path (chain_path t l (slug self)) self
    ∧ t' !! k = Some (row self')
    ∧ shape t' = shape (<[k := row self']> t)
    ∧ (∀ x, ¬ in_subtree t' k x → t' !! x = t !! x)
    ∧ (∀ x, in_subtree t' k x → good t' x).

(** With fuel [f], saving a stored row whose chain [l] leaves [f] levels for
    the rows not yet on the chain does not exhaust the fuel. *)
Definition save_total_at (f : nat) : Prop :=
  ∀ t self k l,
    pk self = Some k → is_Some (t !! k) → chain t (parent self) l → k ∉ l →
    size t ≤ f + length l →
    (save_fuel f t self).2 ≠ Raise OutOfFuel.

(** The unique constraint on [path]. *)
Definition unique_paths (t : table) : Prop :=
  NoDup ((λ c : DAGCategory, path c) <$> objects t).

(** [c] is a row the [live] queryset returns. *)
Definition is_live (SITE_ID : nat) (db : Database) (c : DAGCategory) : Prop :=
  c ∈ objects (categories db) ∧ cond (live SITE_ID) db c = true.

(** No live row has the joined segments [pre] as its path. *)
Definition no_match (SITE_ID : nat) (db : Database) (pre : list string) : Prop :=
  ∀ c, is_live SITE_ID db c → path c ≠ PyStr.join DELIMETER pre.

(** Invariant I6 at row [x] with ancestors [lx], youngest first: the stored
    path splits into the slugs of the chain, root first. *)
Definition I6_at (t : table) (x : positive) (lx : list positive) : Prop :=
  match t !! x with
  | Some r =>
      chain t (parent r) lx
      ∧ PyStr.split_colons "" (path r) = reverse (slugs_of t lx) ++ [slug r]
  | None => False
  end.

(** I6 at every row of a chain. *)
Fixpoint I6_chain (t : table) (l : list positive) : Prop :=
  match l with
  | [] => True
  | x :: l' => I6_at t x l' ∧ I6_chain t l'
  end.

(** The rows [l] as instances. *)
Definition instances (t : table) (l : list positive) : list DAGCategory :=
  omap (fetch t) l.

(** The values [path_so_far] takes in the loop of [branch]. *)
Fixpoint prefixes_from (path_so_far slugs : list string) : list (list string) :=
  match slugs with
  | [] => []
  | s :: rest => (path_so_far ++ [s]) :: prefixes_from (path_so_far ++ [s]) rest
  end.

(** The chain kept in [previous] is the chain of [parent] attributes the
    pass has assigned: each element's assigned parent is the next element,
    and the last element has none. *)
Fixpoint is_parent_chain (np : gmap nat nat) (prev : list nat) : Prop :=
  match prev with
  | [] => True
  | i :: up =>
      match up with
      | [] => np !! i = None
      | j :: _ => np !! i = Some j ∧ is_parent_chain np up
      end
  end.

(** Before node [i] is processed: [previous] is a chain of assigned parents
    and only earlier nodes occur in it or have a parent assigned. *)
Definition build_inv (i : nat) (st : Forest) : Prop :=
  is_parent_chain (node_parent st) (previous st)
  ∧ (∀ j, j ∈ previous st → j < i)
  ∧ (∀ j, is_Some (node_parent st !! j) → j < i).

(** Views of the forest by node rather than by position. *)
Definition position_of (l : list DAGCategory) (n : DAGCategory) : option nat :=
  fst <$> list_find (λ c, c = n) (sort_by ByPath l).

Definition roots_of (l : list DAGCategory) : option (list DAGCategory) :=
  match build_forest l with
  | Ok f => Some (omap (λ i, sort_by ByPath l !! i) (ret f))
  | Raise _ => None
  end.

Definition children_list_of (l : list DAGCategory) (n : DAGCategory)
    : option (list DAGCategory) :=
  match build_forest l with
  | Ok f =>
      match position_of l n with
      | Some i =>
          (λ cl : list nat, omap (λ j, sort_by ByPath l !! j) cl)
            <$> children_list f !! i
      | None => None
      end
  | Raise _ => None
  end.

Definition assigned_parent_of (l : list DAGCategory) (n : DAGCategory)
    : option DAGCategory :=
  match build_forest l with
  | Ok f =>
      match position_of l n with
      | Some i =>
          match node_parent f !! i with
          | Some q => sort_by ByPath l !! q
          | None => None
          end
      | None => None
      end
  | Raise _ => None
  end.

(** Every row of the table holds the path its parent chain prescribes
    (invariants I1 and I2 with an acyclic chain, for all rows). *)
Definition consistent (t : table) : Prop := map_Forall (λ x _, good t x) t.

(** Referential integrity of the [parent] foreign key. *)
Definition fk_valid (t : table) : Prop :=
  map_Forall (λ _ r, ∀ q, parent r = Some q → is_Some (t !! q)) t.

(** The foreign key reached after following [l] from [p]. *)
Fixpoint after_links (t : table) (p : option positive) (l : list positive)
    : option positive :=
  match l with
  | [] => p
  | q :: l' =>
      match t !! q with
      | Some r => after_links t (parent r) l'
      | None => None
      end
  end.

(** [q] is the last node before [i] whose depth is smaller than that of
    [i]. *)
Definition latest_smaller (nodes : list DAGCategory) (q i : nat) : Prop :=
  q < i ∧ depth_at nodes q < depth_at nodes i
  ∧ ∀ k, q < k < i → depth_at nodes i ≤ depth_at nodes k.

(** Each element of the chain is followed by the last earlier node of
    smaller depth, down to a root. *)
Fixpoint chain_ok (nodes : list DAGCategory) (prev : list nat) : Prop :=
  match prev with
  | [] => True
  | x :: up =>
      match up with
      | [] => depth_at nodes x = 0
      | y :: _ => latest_smaller nodes y x ∧ chain_ok nodes up
      end
  end.

(** The state of the pass before node [i]. *)
Definition pass_inv (nodes : list DAGCategory) (i : nat) (st : Forest) : Prop :=
  ret st = filter (λ j, depth_at nodes j = 0) (seq 0 i)
  ∧ (∀ j, j < i → depth_at nodes j = 0 → node_parent st !! j = None)
  ∧ (∀ j, j < i → depth_at nodes j ≠ 0 →
       ∃ q, node_parent st !! j = Some q ∧ latest_smaller nodes q j)
  ∧ (∀ j, i ≤ j → node_parent st !! j = None)
  ∧ (∀ q, q < i → children_list st !! q
                  = Some (filter (λ j, node_parent st !! j = Some q) (seq 0 i)))
  ∧ (∀ q, i ≤ q → children_list st !! q = None)
  ∧ match i with
    | 0 => previous st = []
    | S i' => ∃ up, previous st = i' :: up ∧ chain_ok nodes (i' :: up)
    end.

(** The queryset [build_tree_structure] iterates: the given one, or [live],
    in path order. *)
Definition ordered_nodes (SITE_ID : nat) (db : Database) (qs : option QuerySet)
    : list DAGCategory :=
  evaluate db (order_by ByPath (default (live SITE_ID) qs)).

(** Every slug of the table is free of the delimiter and does not end in a
    colon (as slugs that pass [SlugField] validation are). *)
Definition closed_slugs (t : table) : Prop :=
  map_Forall (λ _ r, PyStr.closed_piece (slug r) = true) t.

(** With fuel [f], saving a stored row off its own acyclic chain can only
    fail on the unique constraint (or on the fuel). *)
Definition cascade_errors_at (f : nat) : Prop :=
  ∀ t self k l e,
    pk self = Some k → is_Some (t !! k) → chain t (parent self) l → k ∉ l →
    (save_fuel f t self).2 = Raise e →
    e = IntegrityError ∨ e = OutOfFuel.

(** ** Example tables *)

Definition tree3 : table :=
  <[1%positive := mkRow "A" "a" None "a" 0]>
  (<[2%positive := mkRow "B" "b" (Some 1%positive) "a::b" 0]>
  (<[3%positive := mkRow "C" "c" (Some 2%positive) "a::b::c" 0]> ∅)).

Definition colon_tree : table := {[ 1%positive := mkRow "A" "a:" None "a:" 0 ]}.

Definition colon_child : DAGCategory :=
  mkCat None (mkRow "B" "b" (Some 1%positive) "" 0).

Definition colon_child2 : DAGCategory :=
  mkCat None (mkRow "B" ":b" (Some 1%positive) "" 0).

Definition shoes_table : table :=
  <[1%positive := mkRow "Shoes" "shoes" None "shoes" 0]>
  (<[2%positive := mkRow "Red" "red" (Some 1%positive) "shoes::red" 0]> ∅).

Definition shoes_db : Database :=
  mkDB shoes_table {[ (1%positive, 7); (2%positive, 7) ]}.

Definition only_red_db : Database :=
  mkDB {[ 2%positive := mkRow "Red" "red" None "shoes::red" 0 ]}
       {[ (2%positive, 7) ]}.

Definition hidden_db : Database :=
  mkDB {[ 1%positive := mkRow "A" "a" None "a" 0 ]} ∅.

Definition hidden_node : DAGCategory :=
  mkCat (Some 1%positive) (mkRow "A" "a" None "a" 0).


Definition node_a : DAGCategory := mkCat (Some 1%positive) (mkRow "A" "a" None "a" 0).

Definition node_b : DAGCategory :=
  mkCat (Some 2%positive) (mkRow "B" "b" (Some 1%positive) "a::b" 0).

Definition node_c : DAGCategory :=
  mkCat (Some 3%positive) (mkRow "C" "c" (Some 1%positive) "a::c" 0).

Definition node_d : DAGCategory :=
  mkCat (Some 4%positive) (mkRow "D" "d" (Some 2%positive) "a::b::d" 0).

Definition node_a1 : DAGCategory :=
  mkCat (Some 5%positive) (mkRow "A1" "a1" None "a1" 0).

Definition dangling_table : table :=
  {[ 5%positive := mkRow "E" "e" (Some 9%positive) "e" 0 ]}.

Definition shoes_forest : Forest :=
  mkForest [0] {[ 0 := [1]; 1 := [] ]} {[ 1 := 0 ]} [1; 0].

Definition shoes_node : DAGCategory :=
  mkCat (Some 1%positive) (mkRow "Shoes" "shoes" None "shoes" 0).

Definition red_node : DAGCategory :=
  mkCat (Some 2%positive) (mkRow "Red" "red" (Some 1%positive) "shoes::red" 0).

(** * Properties *)

(** ** Strings: [split], [count] and [join] over the delimiter *)

Module PyStrFacts.
Import PyStr.

Lemma sapp_nil_r (s : string) : s +:+ "" = s.
Proof. induction s as [|c s IH]; [done|]. unfold String.app in *; simpl. by rewrite IH. Qed.

Lemma sapp_cons (c : ascii) (s t : string) : String c s +:+ t = String c (s +:+ t).
Proof. done. Qed.

Lemma sapp_assoc (s t u : string) : (s +:+ t) +:+ u = s +:+ t +:+ u.
Proof.
  induction s as [|c s IH]; [done|].
  rewrite !sapp_cons. by rewrite IH.
Qed.

Lemma sapp_snoc (cur : string) (c : ascii) (s : string) :
  (cur +:+ String c "") +:+ s = cur +:+ String c s.
Proof. by rewrite sapp_assoc. Qed.

Lemma split_colons_cons2 (cur : string) (c c' : ascii) (rest : string) :
  split_colons cur (String c (String c' rest)) =
    if is_colon c && is_colon c' then cur :: split_colons "" rest
    else split_colons (cur +:+ String c "") (String c' rest).
Proof. done. Qed.

Lemma count_colons_cons2 (c c' : ascii) (rest : string) :
  count_colons (String c (String c' rest)) =
    if is_colon c && is_colon c' then S (count_colons rest)
    else count_colons (String c' rest).
Proof. done. Qed.

(** A piece without delimiter is returned whole. *)
Lemma split_no_delim (s cur : string) :
  no_delim s = true → split_colons cur s = [cur +:+ s].
Proof.
  revert cur. induction s as [|c s IH]; intros cur H.
  - by rewrite sapp_nil_r.
  - destruct s as [|c' rest]; [done|].
    rewrite split_colons_cons2. cbn [no_delim] in H.
    apply andb_true_iff in H as [H1 H2]. apply negb_true_iff in H1.
    rewrite H1. rewrite (IH _ H2). by rewrite sapp_snoc.
Qed.

(** A piece that neither contains the delimiter nor ends in a colon is cut
    off at the delimiter that follows it. *)
Lemma split_closed_piece (s cur rest : string) :
  closed_piece s = true →
  split_colons cur (s +:+ DELIMETER +:+ rest) = (cur +:+ s) :: split_colons "" rest.
Proof.
  revert cur. induction s as [|c s IH]; intros cur H.
  - cbn. by rewrite sapp_nil_r.
  - rewrite sapp_cons. cbn [closed_piece] in H.
    destruct (is_colon c) eqn:Hc.
    + destruct s as [|c' s']; [done|].
      apply andb_true_iff in H as [H1 H2]. apply negb_true_iff in H1.
      rewrite sapp_cons, split_colons_cons2. rewrite Hc, H1. cbn [andb].
      rewrite <- sapp_cons. rewrite (IH _ H2). by rewrite sapp_snoc.
    + assert (Hgo : ∀ t, split_colons cur (String c t) =
                         match t with
                         | "" => [cur +:+ String c ""]
                         | _ => split_colons (cur +:+ String c "") t
                         end).
      { intros [|c' t]; [done|]. rewrite split_colons_cons2. by rewrite Hc. }
      rewrite Hgo. specialize (IH (cur +:+ String c "") H).
      rewrite sapp_snoc in IH.
      destruct (s +:+ DELIMETER +:+ rest) as [|c' t] eqn:E; [|done].
      destruct s; discriminate.
Qed.

Lemma join_cons2 (sep x y : string) (l : list string) :
  join sep (x :: y :: l) = x +:+ sep +:+ join sep (y :: l).
Proof. done. Qed.

Lemma join_snoc (sep : string) (l : list string) (x : string) :
  l ≠ [] → join sep (l ++ [x]) = join sep l +:+ sep +:+ x.
Proof.
  induction l as [|a l IH]; [done|]. intros _.
  destruct l as [|b l]; [done|].
  rewrite <- !app_comm_cons. rewrite join_cons2.
  rewrite app_comm_cons. rewrite IH by done.
  rewrite join_cons2. by rewrite !sapp_assoc.
Qed.

(** Decomposing a joined path gives the pieces back. *)
Lemma split_join (anc : list string) (own : string) :
  Forall (λ s, closed_piece s = true) anc → no_delim own = true →
  split_colons "" (join DELIMETER (anc ++ [own])) = anc ++ [own].
Proof.
  intros Hanc Hown. induction Hanc as [|a anc Ha _ IH].
  - by rewrite split_no_delim.
  - rewrite <- app_comm_cons.
    destruct (anc ++ [own]) as [|b l] eqn:E; [by destruct anc|].
    rewrite join_cons2, split_closed_piece by done. by rewrite IH.
Qed.

(** [s.count(d) = len(s.split(d)) - 1] *)
Lemma count_split (s cur : string) :
  S (count_colons s) = length (split_colons cur s).
Proof.
  remember (String.length s) as n eqn:Hn. revert s cur Hn.
  induction n as [n IH] using lt_wf_ind; intros s cur ->.
  assert (IH' : ∀ s' cur', String.length s' < String.length s →
            S (count_colons s') = length (split_colons cur' s')) by eauto.
  clear IH; rename IH' into IH.
  destruct s as [|c [|c' rest]]; [done..|].
  rewrite count_colons_cons2, split_colons_cons2.
  destruct (is_colon c && is_colon c').
  - cbn [length]. f_equal. apply IH. cbn. lia.
  - apply IH. cbn. lia.
Qed.

(** Joining the pieces of a split gives the string back. *)
Lemma join_split (s cur : string) :
  join DELIMETER (split_colons cur s) = cur +:+ s.
Proof.
  remember (String.length s) as n eqn:Hn. revert s cur Hn.
  induction n as [n IH] using lt_wf_ind; intros s cur ->.
  assert (IH' : ∀ s' cur', String.length s' < String.length s →
            join DELIMETER (split_colons cur' s') = cur' +:+ s') by eauto.
  clear IH; rename IH' into IH.
  destruct s as [|c [|c' rest]]; [by rewrite sapp_nil_r|done|].
  rewrite split_colons_cons2.
  destruct (is_colon c && is_colon c') eqn:E.
  - apply andb_true_iff in E as [E1 E2].
    apply bool_decide_eq_true in E1, E2. subst.
    assert (IH' : join DELIMETER (split_colons "" rest) = "" +:+ rest)
      by (apply IH; cbn; lia).
    destruct (split_colons "" rest) as [|x l] eqn:E.
    { pose proof (count_split rest "") as Hc. rewrite E in Hc. done. }
    rewrite join_cons2, IH'. done.
  - rewrite IH by (cbn; lia). by rewrite sapp_snoc.
Qed.

Lemma split_nonempty (s cur : string) : split_colons cur s ≠ [].
Proof.
  intros E. pose proof (count_split s cur) as H. by rewrite E in H.
Qed.

End PyStrFacts.

(** ** Tables, parent chains *)

Lemma elem_of_objects (t : table) (c : DAGCategory) :
  c ∈ objects t ↔ ∃ k r, t !! k = Some r ∧ c = mkCat (Some k) r.
Proof.
  unfold objects. rewrite list_elem_of_fmap. split.
  - intros [[k r] [-> H]]. apply elem_of_map_to_list in H. eauto.
  - intros (k & r & H & ->). exists (k, r). split; [done|].
    by apply elem_of_map_to_list.
Qed.

Lemma fetch_Some (t : table) (k : positive) (c : DAGCategory) :
  fetch t k = Some c ↔ ∃ r, t !! k = Some r ∧ c = mkCat (Some k) r.
Proof.
  unfold fetch. destruct (t !! k) as [r|]; simpl; split.
  - intros [= <-]. eauto.
  - intros (r' & [= <-] & ->). done.
  - done.
  - intros (r' & [=] & _).
Qed.

Section chains.
Implicit Types (t : table) (p : option positive) (l : list positive).

Lemma chain_nil t p : chain t p [] ↔ p = None.
Proof. destruct p; simpl; naive_solver. Qed.

Lemma chain_cons t p q l :
  chain t p (q :: l) ↔ p = Some q ∧ ∃ r, t !! q = Some r ∧ chain t (parent r) l.
Proof.
  destruct p as [q'|]; simpl; [|naive_solver].
  destruct (t !! q) as [r|] eqn:E; naive_solver.
Qed.

Lemma chain_Some t q l :
  chain t (Some q) l ↔ ∃ r l', l = q :: l' ∧ t !! q = Some r ∧ chain t (parent r) l'.
Proof.
  destruct l as [|q' l].
  - rewrite chain_nil. naive_solver.
  - rewrite chain_cons. naive_solver.
Qed.

Lemma chain_inj t p l1 l2 : chain t p l1 → chain t p l2 → l1 = l2.
Proof.
  revert p l2. induction l1 as [|q l1 IH]; intros p [|q2 l2].
  - done.
  - rewrite chain_nil, chain_cons. naive_solver.
  - rewrite chain_nil, chain_cons. naive_solver.
  - rewrite !chain_cons. intros (-> & r & Hr & H1) ([= <-] & r2 & Hr2 & H2).
    simplify_eq. f_equal. eauto.
Qed.

Lemma chain_suffix t p l q :
  chain t p l → q ∈ l → ∃ l1 l2, l = l1 ++ q :: l2 ∧ chain t (Some q) (q :: l2).
Proof.
  revert p. induction l as [|a l IH]; intros p H Hq.
  - by apply elem_of_nil in Hq.
  - apply chain_cons in H as (-> & r & Hr & H).
    apply elem_of_cons in Hq as [->|Hq].
    + exists [], l. split; [done|]. apply chain_cons. eauto.
    + destruct (IH _ H Hq) as (l1 & l2 & -> & H').
      exists (a :: l1), l2. done.
Qed.

Lemma chain_lookup t p l q : chain t p l → q ∈ l → is_Some (t !! q).
Proof.
  intros H Hq. destruct (chain_suffix _ _ _ _ H Hq) as (l1 & l2 & _ & H').
  apply chain_cons in H' as (_ & r & Hr & _). eauto.
Qed.

Lemma chain_NoDup t p l : chain t p l → NoDup l.
Proof.
  revert p. induction l as [|a l IH]; intros p H; [constructor|].
  pose proof H as H0.
  apply chain_cons in H as (-> & r & Hr & H).
  constructor; [|eauto].
  intros Ha. destruct (chain_suffix _ _ _ _ H Ha) as (l1 & l2 & El & H').
  pose proof (chain_inj _ _ _ _ H0 H') as E.
  apply (f_equal length) in E. rewrite El in E.
  rewrite !length_cons, length_app, length_cons in E. lia.
Qed.

(** A row is not among the ancestors of its own parent chain. *)
Lemma chain_not_below t q r l :
  t !! q = Some r → chain t (parent r) l → q ∉ l.
Proof.
  intros Hr H Hq.
  assert (chain t (Some q) (q :: l)) as H' by (apply chain_cons; eauto).
  apply chain_NoDup in H'. by inv H'.
Qed.

(** Chains only read the [parent] column of the rows they pass. *)
Lemma chain_ext t t' p l :
  (∀ q, q ∈ l → parent <$> t !! q = parent <$> t' !! q) →
  chain t p l → chain t' p l.
Proof.
  revert p. induction l as [|a l IH]; intros p Hl; [by rewrite !chain_nil|].
  rewrite !chain_cons. intros (-> & r & Hr & H). split; [done|].
  pose proof (Hl a ltac:(left)) as Ha. rewrite Hr in Ha. simpl in Ha.
  destruct (t' !! a) as [r'|] eqn:E; [|done]. simpl in Ha.
  exists r'. split; [done|]. injection Ha as Ha. rewrite <- Ha.
  apply IH; [|done]. intros q Hq. apply Hl. by right.
Qed.

Lemma slugs_of_unfold t q l :
  slugs_of t (q :: l) =
    match slug <$> t !! q with
    | Some s => s :: slugs_of t l
    | None => slugs_of t l
    end.
Proof. done. Qed.

Lemma slugs_of_cons t q r l :
  t !! q = Some r → slugs_of t (q :: l) = slug r :: slugs_of t l.
Proof. intros Hr. rewrite slugs_of_unfold. by rewrite Hr. Qed.

Lemma slugs_of_ext t t' l :
  (∀ q, q ∈ l → slug <$> t !! q = slug <$> t' !! q) →
  slugs_of t l = slugs_of t' l.
Proof.
  induction l as [|a l IH]; intros Hl; [done|].
  rewrite !slugs_of_unfold. rewrite (Hl a) by left. rewrite IH; [done|].
  intros q Hq. apply Hl. by right.
Qed.

Lemma slugs_of_chain t p l :
  chain t p l → length (slugs_of t l) = length l.
Proof.
  revert p. induction l as [|a l IH]; intros p; [done|].
  rewrite chain_cons. intros (-> & r & Hr & H).
  rewrite (slugs_of_cons _ _ _ _ Hr). simpl. f_equal. eauto.
Qed.
End chains.

(** ** The walk up the parent chain *)

Section walk_facts.
Import PyStr PyStrFacts.
Implicit Types (t : table) (p : option positive) (l : list positive)
  (V : gset (option positive)).

Lemma join_merge_last (xs : list string) (a b : string) :
  join DELIMETER (xs ++ [a +:+ DELIMETER +:+ b]) = join DELIMETER (xs ++ [a; b]).
Proof.
  destruct xs as [|x xs]; [done|].
  rewrite join_snoc by done.
  change (?l ++ [a; b]) with (l ++ [a] ++ [b]). rewrite (assoc (++)).
  rewrite !join_snoc by (by destruct xs). by rewrite !sapp_assoc.
Qed.

Lemma chain_path_cons t q r l acc :
  t !! q = Some r →
  chain_path t l (slug r +:+ DELIMETER +:+ acc) = chain_path t (q :: l) acc.
Proof.
  intros Hr. unfold chain_path. rewrite (slugs_of_cons _ _ _ _ Hr).
  rewrite reverse_cons, join_merge_last. by rewrite <- (assoc (++)).
Qed.

(** A walk that returns followed a chain to a root, met no key of [V], and
    returns the slugs it passed, oldest first, before [acc]. *)
Lemma walk_ok fuel t p V acc res :
  walk fuel t p V acc = Ok res →
  ∃ l, chain t p l ∧ (∀ q, q ∈ l → Some q ∉ V) ∧ res = chain_path t l acc.
Proof.
  revert p V acc. induction fuel as [|fuel IH]; intros [q|] V acc; simpl.
  - done.
  - intros [= <-]. exists []. split_and!; [done|by intros ? ?%elem_of_nil|done].
  - destruct (t !! q) as [r|] eqn:Hr; [|done].
    destruct (decide (Some q ∈ V)) as [|Hq]; [done|].
    intros (l & Hl & HV & ->)%IH. exists (q :: l). split_and!.
    + apply chain_cons. eauto.
    + intros q' [->|Hq']%elem_of_cons; [done|].
      specialize (HV _ Hq'). set_solver.
    + by apply chain_path_cons.
  - intros [= <-]. exists []. split_and!; [done|by intros ? ?%elem_of_nil|done].
Qed.

Lemma walk_complete fuel t p V acc l :
  chain t p l → (∀ q, q ∈ l → Some q ∉ V) → length l ≤ fuel →
  walk fuel t p V acc = Ok (chain_path t l acc).
Proof.
  revert fuel p V acc. induction l as [|q l IH]; intros fuel p V acc H HV Hf.
  - apply chain_nil in H as ->. by destruct fuel.
  - pose proof (chain_NoDup _ _ _ H) as Hnd. inv Hnd.
    apply chain_cons in H as (-> & r & Hr & H).
    destruct fuel as [|fuel]; [simpl in Hf; lia|]. simpl. rewrite Hr.
    rewrite decide_False by (apply HV; left).
    rewrite (IH fuel _ _ _ H).
    + by rewrite (chain_path_cons _ _ _ _ _ Hr).
    + intros q' Hq'. specialize (HV q' ltac:(by right)). set_solver.
    + simpl in Hf. lia.
Qed.

(** The walk ends: each step adds a key of the table to [V]. *)
Lemma walk_total fuel t p V acc :
  size (filter (λ q, Some q ∉ V) (dom t)) < fuel →
  walk fuel t p V acc ≠ Raise OutOfFuel.
Proof.
  revert p V acc. induction fuel as [|fuel IH]; intros [q|] V acc Hf; simpl;
    try done; try lia.
  destruct (t !! q) as [r|] eqn:Hr; [|done].
  destruct (decide (Some q ∈ V)) as [|Hq]; [done|].
  apply IH.
  assert (filter (λ q0, Some q0 ∉ {[Some q]} ∪ V) (dom t)
            ⊂ filter (λ q0, Some q0 ∉ V) (dom t)) as Hsub.
  { split.
    - intros x. rewrite !elem_of_filter. set_solver.
    - intros Hsub. specialize (Hsub q). rewrite !elem_of_filter in Hsub.
      destruct Hsub as [Hsub _]; [|set_solver].
      split; [done|]. apply elem_of_dom. eauto. }
  apply subset_size in Hsub. lia.
Qed.

Lemma walk_total_table t p V acc : walk (S (size t)) t p V acc ≠ Raise OutOfFuel.
Proof.
  apply walk_total.
  assert (size (filter (λ q, Some q ∉ V) (dom t)) ≤ size (dom t)) as H.
  { apply subseteq_size. intros x. rewrite elem_of_filter. naive_solver. }
  rewrite size_dom in H. lia.
Qed.
End walk_facts.

Lemma walk_links fuel (t : table) p V acc l k :
  links t p l → last l = Some k → Some k ∈ V →
  walk fuel t p V acc = Raise AssertionError ∨ walk fuel t p V acc = Raise OutOfFuel.
Proof.
  revert p V acc l. induction fuel as [|fuel IH]; intros p V acc [|q l] H Hk HV;
    try done.
  - destruct p; [|done]. by right.
  - destruct p as [q'|]; [|done]. simpl in H. destruct H as [<- H]. simpl.
    destruct (t !! q) as [r|] eqn:Hr; [|done].
    destruct (decide (Some q ∈ V)) as [|Hq]; [by left|].
    destruct l as [|q2 l].
    { simpl in Hk. by simplify_eq. }
    apply (IH _ _ _ (q2 :: l)); [done| |set_solver].
    by rewrite last_cons_cons in Hk.
Qed.

(** ** Saving a node: the circular-parent check and the computed path *)

Lemma save_fuel_S fuel (t : table) (self : DAGCategory) :
  save_fuel (S fuel) t self =
    match walk (S (size t)) t (parent self) {[pk self]} (slug self) with
    | Raise e => (t, self, Raise e)
    | Ok p =>
        match super_save t (with_path p self) with
        | Raise e => (t, with_path p self, Raise e)
        | Ok (t1, k) =>
            let '(t2, r) :=
              for_each (λ t c, update_path_with (save_fuel fuel) t c p)
                (children_all t1 k) t1 in
            (t2, mkCat (Some k) (set_path p self), r)
        end
    end.
Proof. done. Qed.

Lemma save_fuel_walk_raise fuel (t : table) (self : DAGCategory) e :
  walk (S (size t)) t (parent self) {[pk self]} (slug self) = Raise e →
  save_fuel (S fuel) t self = (t, self, Raise e).
Proof. intros H. rewrite save_fuel_S. by rewrite H. Qed.

(** C1: saving a node whose parent is the node itself or one of its
    descendants (the foreign keys followed from [parent] come back to the
    node's own key) raises the circular-parent assertion; the table and
    the instance, its [path] included, are returned as they were. *)
Theorem save_rejects_circular_parent (t : table) (self : DAGCategory)
    (k : positive) (l : list positive) :
  pk self = Some k → links t (parent self) l → last l = Some k →
  save t self = (t, self, Raise AssertionError).
Proof.
  intros Hk Hl Hlast. unfold save. apply save_fuel_walk_raise.
  destruct (walk_links (S (size t)) t (parent self) {[pk self]} (slug self) l k)
    as [H|H]; [done|done|set_solver|done|].
  by apply walk_total_table in H.
Qed.

Lemma save_rejects_circular_parent_witness :
  let self := mkCat (Some 1%positive) (mkRow "A" "a" (Some 3%positive) "a" 0) in
  save tree3 self = (tree3, self, Raise AssertionError).
Proof.
  intros self.
  apply (save_rejects_circular_parent tree3 self 1%positive
           [3%positive; 2%positive; 1%positive]).
  - reflexivity.
  - vm_compute. tauto.
  - reflexivity.
Defined.

Lemma save_fuel_path fuel (t : table) (self : DAGCategory) p :
  walk (S (size t)) t (parent self) {[pk self]} (slug self) = Ok p →
  row (save_fuel (S fuel) t self).1.2 = set_path p self.
Proof.
  intros Hw. rewrite save_fuel_S, Hw.
  destruct (super_save t (with_path p self)) as [[t1 k]|e]; [|done].
  by destruct (for_each _ _ t1).
Qed.

(** C2, as amended: for a node whose parent chain [l] is acyclic, the walk of
    [save] succeeds and the path it assigns is the slugs of the ancestors
    and of the node, root first, joined by the delimiter; a node without
    parent gets its own slug; and when no slug contains the delimiter and no
    ancestor's slug ends in a colon, splitting the path on the delimiter
    gives those slugs back. *)
Theorem save_path_is_joined_slugs (t : table) (self : DAGCategory)
    (l : list positive) :
  chain t (parent self) l → (∀ k, pk self = Some k → k ∉ l) →
  let self' := (save t self).1.2 in
  walk (S (size t)) t (parent self) {[pk self]} (slug self) = Ok (path self')
  ∧ path self' = PyStr.join DELIMETER (reverse (slugs_of t l) ++ [slug self])
  ∧ (parent self = None → path self' = slug self)
  ∧ (Forall (λ s, PyStr.closed_piece s = true) (slugs_of t l) →
     PyStr.no_delim (slug self) = true →
     PyStr.split_colons "" (path self') = reverse (slugs_of t l) ++ [slug self]).
Proof.
  intros Hl Hk self'.
  assert (walk (S (size t)) t (parent self) {[pk self]} (slug self)
          = Ok (chain_path t l (slug self))) as Hw.
  { apply walk_complete; [done| |].
    - intros q Hq [=]%elem_of_singleton. naive_solver.
    - pose proof (chain_NoDup _ _ _ Hl) as Hnd.
      assert (list_to_set l ⊆ dom t) as Hsub.
      { intros q Hq%elem_of_list_to_set. apply elem_of_dom.
        by eapply chain_lookup. }
      apply (subseteq_size (C := gset positive)) in Hsub.
      rewrite size_list_to_set, size_dom in Hsub by done. lia. }
  assert (path self' = chain_path t l (slug self)) as Hp.
  { unfold self', save. by rewrite (save_fuel_path _ _ _ _ Hw). }
  split_and!.
  - by rewrite Hp.
  - done.
  - intros Hnone. rewrite Hnone in Hl.
    destruct l; [|done]. by rewrite Hp.
  - intros Hanc Hown. rewrite Hp. apply PyStrFacts.split_join; [|done].
    by apply Forall_reverse.
Qed.

Lemma save_path_is_joined_slugs_witness :
  PyStr.split_colons "" (path (save tree3
      (mkCat None (mkRow "D" "d" (Some 3%positive) "" 0))).1.2)
  = ["a"; "b"; "c"; "d"].
Proof.
  apply (save_path_is_joined_slugs tree3
           (mkCat None (mkRow "D" "d" (Some 3%positive) "" 0))
           [3%positive; 2%positive; 1%positive]).
  - vm_compute. tauto.
  - intros k [=].
  - vm_compute. repeat constructor.
  - reflexivity.
Defined.

(** C2 as stated fails: neither slug below contains the delimiter, the
    chain is acyclic and the save succeeds, yet the path ["a:::b"] splits
    into ["a"] and [":b"]. *)
Lemma split_of_saved_path_counterexample :
  chain colon_tree (parent colon_child) [1%positive]
  ∧ Forall (λ s, PyStr.no_delim s = true)
      (slugs_of colon_tree [1%positive] ++ [slug colon_child])
  ∧ (save colon_tree colon_child).2 = Ok ()
  ∧ path (save colon_tree colon_child).1.2 = "a:::b"
  ∧ PyStr.split_colons "" (path (save colon_tree colon_child).1.2) = ["a"; ":b"]
  ∧ PyStr.split_colons "" (path (save colon_tree colon_child).1.2)
    ≠ reverse (slugs_of colon_tree [1%positive]) ++ [slug colon_child].
Proof.
  split_and!.
  - vm_compute. tauto.
  - vm_compute. repeat constructor.
  - by vm_compute.
  - by vm_compute.
  - by vm_compute.
  - by vm_compute.
Qed.

(** ** The cascade *)

Section shape_facts.
Implicit Types (t : table) (p : option positive) (l : list positive).

Lemma shape_lookup t t' q :
  shape t = shape t' → set_path "" <$> t !! q = set_path "" <$> t' !! q.
Proof.
  unfold shape. intros H. apply (f_equal (.!! q)) in H.
  by rewrite !lookup_fmap in H.
Qed.

Lemma shape_parent t t' q :
  shape t = shape t' → parent <$> t !! q = parent <$> t' !! q.
Proof.
  intros H%(shape_lookup _ _ q).
  destruct (t !! q) as [[]|], (t' !! q) as [[]|]; simpl in *; by simplify_eq.
Qed.

Lemma shape_slug t t' q :
  shape t = shape t' → slug <$> t !! q = slug <$> t' !! q.
Proof.
  intros H%(shape_lookup _ _ q).
  destruct (t !! q) as [[]|], (t' !! q) as [[]|]; simpl in *; by simplify_eq.
Qed.

Lemma shape_chain t t' p l : shape t = shape t' → chain t p l ↔ chain t' p l.
Proof.
  intros H. split; apply chain_ext; intros q _; by apply shape_parent.
Qed.

Lemma shape_chain_path t t' l s :
  shape t = shape t' → chain_path t l s = chain_path t' l s.
Proof.
  intros H. unfold chain_path. f_equal. f_equal. f_equal.
  apply slugs_of_ext. intros q _. by apply shape_slug.
Qed.

Lemma shape_in_subtree t t' k x :
  shape t = shape t' → in_subtree t k x ↔ in_subtree t' k x.
Proof.
  intros H. unfold in_subtree. by setoid_rewrite (shape_chain _ _ _ _ H).
Qed.

Lemma shape_insert t k r r' :
  t !! k = Some r → set_path "" r' = set_path "" r →
  shape (<[k := r']> t) = shape t.
Proof.
  intros Hk Hr. unfold shape. rewrite fmap_insert, Hr.
  apply insert_id. by rewrite lookup_fmap, Hk.
Qed.

Lemma good_ext t t' x :
  shape t = shape t' → t !! x = t' !! x → good t x → good t' x.
Proof.
  intros Hs Hx (r & l & Hr & Hl & Hp). exists r, l. split_and!.
  - by rewrite <- Hx.
  - by apply (shape_chain _ _ _ _ Hs).
  - by rewrite <- (shape_chain_path _ _ _ _ Hs).
Qed.

Lemma in_subtree_chain t k x l :
  chain t (Some x) l → in_subtree t k x ↔ k ∈ l.
Proof.
  intros Hl. split.
  - intros (l' & Hl' & Hk). by rewrite (chain_inj _ _ _ _ Hl Hl').
  - intros Hk. by exists l.
Qed.

(** The row just before [k] on a chain has [k] as its parent. *)
Lemma chain_pred t p l1 a k l2 :
  chain t p (l1 ++ a :: k :: l2) → ∃ r, t !! a = Some r ∧ parent r = Some k.
Proof.
  revert p. induction l1 as [|b l1 IH]; intros p.
  - rewrite app_nil_l, chain_cons. intros (-> & r & Hr & H).
    apply chain_cons in H as [? _]. eauto.
  - rewrite <- app_comm_cons, chain_cons. intros (-> & r & Hr & H). eauto.
Qed.

Lemma in_subtree_self t k l : chain t (Some k) l → in_subtree t k k.
Proof.
  intros H. exists l. split; [done|].
  apply chain_Some in H as (r & l' & -> & _). left.
Qed.

(** The subtree of a child lies inside the subtree of its parent. *)
Lemma in_subtree_child t k ck r x :
  t !! ck = Some r → parent r = Some k → in_subtree t ck x → in_subtree t k x.
Proof.
  intros Hr Hp (l & Hl & Hck). exists l. split; [done|].
  destruct (chain_suffix _ _ _ _ Hl Hck) as (l1 & l2 & -> & H).
  apply chain_cons in H as (_ & r' & Hr' & H). simplify_eq.
  rewrite Hp in H. apply chain_Some in H as (? & l' & -> & _).
  rewrite elem_of_app, !elem_of_cons. auto.
Qed.

(** Below [k] but not [k]: inside the subtree of one of its children. *)
Lemma in_subtree_proper t k x :
  in_subtree t k x → x ≠ k →
  ∃ ck r, t !! ck = Some r ∧ parent r = Some k ∧ in_subtree t ck x.
Proof.
  intros (l & Hl & Hk) Hne.
  apply list_elem_of_split in Hk as (l1 & l2 & ->).
  destruct l1 as [|b l1 _] using rev_ind.
  { apply chain_cons in Hl as [[=] _]. done. }
  rewrite <- (assoc (++)) in Hl. simpl in Hl.
  destruct (chain_pred _ _ _ _ _ _ Hl) as (r & Hr & Hp).
  exists b, r. split_and!; [done..|].
  eexists. split; [done|]. rewrite !elem_of_app, elem_of_cons. auto.
Qed.

(** A row is not below its own child. *)
Lemma not_in_subtree_of_child t k ck r :
  t !! ck = Some r → parent r = Some k → ¬ in_subtree t ck k.
Proof.
  intros Hr Hp (l & Hl & Hck).
  destruct (chain_suffix _ _ _ _ Hl Hck) as (l1 & l2 & -> & H).
  apply chain_cons in H as (_ & r' & Hr' & H). simplify_eq.
  rewrite Hp in H. pose proof (chain_inj _ _ _ _ Hl H) as E.
  apply (f_equal length) in E. rewrite length_app, length_cons in E. lia.
Qed.
End shape_facts.

Section cascade_facts.
Implicit Types (t : table) (self c : DAGCategory) (l : list positive).

Lemma elem_of_children_all t k c :
  c ∈ children_all t k ↔
  ∃ ck r, t !! ck = Some r ∧ parent r = Some k ∧ c = mkCat (Some ck) r.
Proof.
  unfold children_all, sort_by.
  rewrite merge_sort_Permutation, list_elem_of_filter, elem_of_objects.
  naive_solver.
Qed.

Lemma super_save_Ok t self t1 k :
  super_save t self = Ok (t1, k) →
  t1 = <[k := row self]> t ∧ (pk self = Some k ∨ (pk self = None ∧ t !! k = None)).
Proof.
  unfold super_save. destruct (path_taken _ _ _); [done|].
  destruct (pk self) as [k'|] eqn:E.
  - intros [= <- <-]. auto.
  - intros [= <- <-]. split; [done|]. right. split; [done|].
    apply not_elem_of_dom, is_fresh.
Qed.

Lemma for_each_cons {A} (body : table → A → table * Result unit)
    (c : A) (cs : list A) t :
  for_each body (c :: cs) t =
    match body t c with
    | (t', Ok _) => for_each body cs t'
    | (t', Raise e) => (t', Raise e)
    end.
Proof. done. Qed.

(** A child's save keeps what is already consistent. *)
Lemma save_post_good t self t' self' ck x :
  pk self = Some ck → shape t' = shape t →
  save_post t self t' self' → good t x → good t' x.
Proof.
  intros Hpk Hs (k & l & _ & Hor & _ & _ & _ & _ & _ & Hunch & Hgood) Hx.
  destruct Hor as [Hor|[Hor _]]; [|congruence].
  assert (k = ck) as -> by congruence.
  pose proof Hx as (r & lx & Hr & Hlx & _).
  assert (chain t (Some x) (x :: lx)) as Hc by (apply chain_cons; eauto).
  destruct (decide (ck ∈ x :: lx)) as [Hin|Hin].
  - apply Hgood, (shape_in_subtree _ _ _ _ Hs). by exists (x :: lx).
  - apply (good_ext t); [done| |done]. symmetry. apply Hunch.
    rewrite (shape_in_subtree _ _ _ _ Hs). by rewrite (in_subtree_chain _ _ _ _ Hc).
Qed.

Lemma cascade_ok f p t1 k rowk l :
  (∀ t self t' self',
     save_fuel f t self = (t', self', Ok ()) → save_post t self t' self') →
  t1 !! k = Some rowk → chain t1 (parent rowk) l →
  ∀ cs ta tb,
    Forall (λ c : DAGCategory,
      ∃ ck, pk c = Some ck ∧ t1 !! ck = Some (row c) ∧ parent c = Some k) cs →
    shape ta = shape t1 → ta !! k = Some rowk →
    for_each (λ t c, update_path_with (save_fuel f) t c p) cs ta = (tb, Ok ()) →
    shape tb = shape t1 ∧ tb !! k = Some rowk
    ∧ (∀ x, (∀ c ck, c ∈ cs → pk c = Some ck → ¬ in_subtree t1 ck x) →
            tb !! x = ta !! x)
    ∧ (∀ x, good ta x → good tb x)
    ∧ (∀ c ck x, c ∈ cs → pk c = Some ck → in_subtree t1 ck x → good tb x).
Proof.
  intros IH Hk Hl cs. induction cs as [|c cs IHcs]; intros ta tb Hcs Hs Hka.
  - intros [= <-]. split_and!; try done. intros ??? []%elem_of_nil.
  - rewrite for_each_cons. unfold update_path_with at 1.
    destruct (save_fuel f ta _) as [[t3 c'] r] eqn:Hsave.
    destruct r as [[]|e]; [|done]. intros Hloop.
    inv Hcs. destruct H1 as (ck & Hpk & Hrow & Hpar).
    pose proof (IH _ _ _ _ Hsave) as Hpost.
    pose proof Hpost as
      (k0 & l0 & Hpk' & Hor & Hchain & Hnotin & Hrow' & Ht3k & Hshape & Hunch & Hgood).
    destruct Hor as [Hor|[Hor _]]; simpl in Hor; [|congruence].
    assert (k0 = ck) as -> by congruence.
    assert (shape t3 = shape ta) as Hs3.
    { rewrite Hshape.
      pose proof (shape_lookup _ _ ck Hs) as E. rewrite Hrow in E.
      destruct (ta !! ck) as [ra|] eqn:Hra; [|done]. simpl in E.
      apply (shape_insert _ _ ra); [done|]. rewrite Hrow'.
      assert (set_path "" ra = set_path "" c) as -> by congruence. done. }
    assert (Hsub : ∀ x, in_subtree t3 ck x ↔ in_subtree t1 ck x).
    { intros x. apply shape_in_subtree. congruence. }
    assert (t3 !! k = Some rowk) as Hk3.
    { rewrite Hunch; [done|]. rewrite Hsub.
      by eapply not_in_subtree_of_child. }
    destruct (IHcs t3 tb) as (Hsb & Hkb & Hunch' & Hpres' & Hgood');
      [done|congruence|done|done|].
    split_and!; [done|done| | |].
    + intros x Hx. rewrite Hunch'.
      * apply Hunch. rewrite Hsub. apply (Hx c ck); [left|done].
      * intros c0 ck0 Hc0. apply Hx. by right.
    + intros x Hx. apply Hpres'.
      eapply save_post_good; [|done|done|done]. by destruct c.
    + intros c0 ck0 x [->|Hc0]%elem_of_cons Hpk0 Hin.
      * apply Hpres', Hgood, Hsub. congruence.
      * by eapply Hgood'.
Qed.

(** A save that returns normally leaves every row at or below the saved
    node with the path its parent chain prescribes, and nothing else
    touched. *)
Lemma save_fuel_ok fuel t self t' self' :
  save_fuel fuel t self = (t', self', Ok ()) → save_post t self t' self'.
Proof.
  revert t self t' self'. induction fuel as [|f IH]; intros t self t' self';
    [done|].
  rewrite save_fuel_S.
  destruct (walk _ _ _ _ _) as [p|e] eqn:Hw; [|done].
  apply walk_ok in Hw as (l & Hl & HV & ->).
  destruct (super_save _ _) as [[t1 k]|e] eqn:Hss; [|done].
  apply super_save_Ok in Hss as [-> Hor]. simpl in Hor.
  set (p := chain_path t l (slug self)) in *.
  set (rowk := set_path p self).
  destruct (for_each _ _ _) as [tb r] eqn:Hloop. intros [= -> <- ->].
  assert (k ∉ l) as Hkl.
  { destruct Hor as [Hor|[_ Hor]].
    - intros Hin. apply (HV _ Hin). rewrite Hor. set_solver.
    - intros Hin. destruct (chain_lookup _ _ _ _ Hl Hin) as [? ?]. congruence. }
  set (t1 := <[k := set_path p (with_path p self)]> t) in *.
  assert (t1 !! k = Some rowk) as Hk1 by apply lookup_insert_eq.
  assert (∀ q, q ∈ l → t1 !! q = t !! q) as Hne.
  { intros q Hq. apply lookup_insert_ne. intros ->. done. }
  assert (chain t1 (parent rowk) l) as Hl1.
  { apply (chain_ext t); [|done]. intros q Hq. by rewrite Hne. }
  destruct (cascade_ok f p t1 k rowk l IH Hk1 Hl1 (children_all t1 k) t1 t')
    as (Hs & Hk' & Hunch & Hpres & Hgood); [|done|done|done|].
  { apply Forall_forall. intros c (ck & r & Hr & Hp & ->)%elem_of_children_all.
    exists ck. auto. }
  assert (chain t' (Some k) (k :: l)) as Hck.
  { apply (shape_chain _ _ _ _ Hs), chain_cons. eauto. }
  exists k, l. split_and!; try done.
  - intros x Hx. destruct (decide (x = k)) as [->|Hxk].
    { destruct Hx. by eapply in_subtree_self. }
    rewrite Hunch; [by apply lookup_insert_ne|].
    intros c ck (ck' & r & Hr & Hp & ->)%elem_of_children_all [= <-] Hin.
    apply Hx, (shape_in_subtree _ _ _ _ Hs). by eapply in_subtree_child.
  - intros x Hx%(shape_in_subtree _ _ _ _ Hs).
    destruct (decide (x = k)) as [->|Hxk].
    + apply Hpres. exists rowk, l. split_and!; [done..|].
      change (chain_path t l (slug self) = chain_path t1 l (slug self)).
      unfold chain_path. f_equal. f_equal. f_equal. apply slugs_of_ext.
      intros q Hq. by rewrite Hne.
    + destruct (in_subtree_proper _ _ _ Hx Hxk) as (ck & r & Hr & Hp & Hin).
      apply (Hgood (mkCat (Some ck) r) ck); [|done..].
      apply elem_of_children_all. eauto.
Qed.
End cascade_facts.

(** ** The cascade ends within the fuel [save] gives it *)

Section save_total.
Implicit Types (t : table) (self c : DAGCategory) (l : list positive).

Lemma shape_size t t' : shape t = shape t' → size t = size t'.
Proof.
  intros H. apply (f_equal size) in H. unfold shape in H.
  by rewrite !map_size_fmap in H.
Qed.

(** A chain and a row off it are distinct rows of the table. *)
Lemma chain_length_lt t p k l :
  is_Some (t !! k) → chain t p l → k ∉ l → length l < size t.
Proof.
  intros Hk Hl Hkl. pose proof (chain_NoDup _ _ _ Hl) as Hnd.
  assert (NoDup (k :: l)) as Hnd' by by constructor.
  assert (list_to_set (k :: l) ⊆ dom t) as Hsub.
  { intros q [->|Hq]%elem_of_list_to_set%elem_of_cons; apply elem_of_dom;
      [done|]. by eapply chain_lookup. }
  apply (subseteq_size (C := gset positive)) in Hsub.
  rewrite size_list_to_set, size_dom in Hsub by done. simpl in Hsub. lia.
Qed.

Lemma cascade_total f p t1 k rowk l :
  save_total_at f →
  t1 !! k = Some rowk → chain t1 (parent rowk) l →
  size t1 ≤ f + length l + 1 →
  ∀ cs ta,
    Forall (λ c : DAGCategory,
      ∃ ck, pk c = Some ck ∧ t1 !! ck = Some (row c) ∧ parent c = Some k) cs →
    shape ta = shape t1 → ta !! k = Some rowk →
    (for_each (λ t c, update_path_with (save_fuel f) t c p) cs ta).2
      ≠ Raise OutOfFuel.
Proof.
  intros IHP Hk Hl Hsize cs. induction cs as [|c cs IHcs]; intros ta Hcs Hs Hka;
    [done|].
  pose proof Hcs as Hcs0. inv Hcs. destruct H1 as (ck & Hpk & Hrow & Hpar).
  rewrite for_each_cons. unfold update_path_with at 1.
  destruct (save_fuel f ta _) as [[t3 c'] r] eqn:Hsave.
  assert (chain t1 (Some k) (k :: l)) as Hkl by (apply chain_cons; eauto).
  destruct r as [[]|e].
  - destruct (cascade_ok f p t1 k rowk l (save_fuel_ok f) Hk Hl [c] ta t3)
      as (Hs3 & Hk3 & _); [|done|done| |].
    { constructor; [by exists ck|constructor]. }
    { rewrite for_each_cons. unfold update_path_with. by rewrite Hsave. }
    by apply IHcs.
  - simpl. intros [= ->].
    refine (IHP ta (with_path (p +:+ DELIMETER +:+ slug c) c) ck (k :: l)
              Hpk _ _ _ _ _).
    + pose proof (shape_lookup _ _ ck Hs) as E. rewrite Hrow in E.
      destruct (ta !! ck); [eauto|done].
    + change (chain ta (parent c) (k :: l)). rewrite Hpar.
      by apply (shape_chain _ _ _ _ Hs).
    + apply (chain_not_below t1 ck c); [done|]. by rewrite Hpar.
    + rewrite (shape_size _ _ Hs). simpl. lia.
    + by rewrite Hsave.
Qed.

Lemma save_total_all f : save_total_at f.
Proof.
  induction f as [|f IH]; intros t self k l Hpk Hin Hl Hkl Hsize.
  { pose proof (chain_length_lt _ _ _ _ Hin Hl Hkl). lia. }
  rewrite save_fuel_S.
  destruct (walk _ _ _ _ _) as [p|e] eqn:Hw.
  2:{ simpl. intros [= ->]. by apply walk_total_table in Hw. }
  apply walk_ok in Hw as (l' & Hl' & _ & ->).
  rewrite <- (chain_inj _ _ _ _ Hl Hl') in *. clear l' Hl'.
  destruct (super_save _ _) as [[t1 k0]|e] eqn:Hss.
  2:{ simpl. intros [= ->]. unfold super_save in Hss.
      by repeat case_match. }
  apply super_save_Ok in Hss as [-> Hor]. simpl in Hor.
  destruct Hor as [Hor|[Hor _]]; [|congruence].
  assert (k0 = k) as -> by congruence.
  set (p := chain_path t l (slug self)) in *.
  set (t1 := <[k := row (with_path p self)]> t) in *.
  assert (t1 !! k = Some (set_path p self)) as Hk1 by apply lookup_insert_eq.
  assert (chain t1 (parent (set_path p self)) l) as Hl1.
  { apply (chain_ext t); [|done]. intros q Hq.
    unfold t1. rewrite lookup_insert_ne; [done|]. by intros ->. }
  assert (size t1 = size t) as Hsz.
  { unfold t1. by apply map_size_insert_Some. }
  pose proof (cascade_total f p t1 k _ l IH Hk1 Hl1 ltac:(lia)
                (children_all t1 k) t1) as Hloop.
  destruct (for_each _ _ t1) as [t2 r]. simpl in *. apply Hloop; [|done..].
  apply Forall_forall. intros c (ck & r' & Hr & Hp & ->)%elem_of_children_all.
  exists ck. auto.
Qed.

(** [save] never exhausts its fuel: whatever it returns is what the code
    returns. *)
Lemma save_never_out_of_fuel t self : (save t self).2 ≠ Raise OutOfFuel.
Proof.
  unfold save. rewrite save_fuel_S.
  destruct (walk _ _ _ _ _) as [p|e] eqn:Hw.
  2:{ simpl. intros [= ->]. by apply walk_total_table in Hw. }
  apply walk_ok in Hw as (l & Hl & HV & ->).
  destruct (super_save _ _) as [[t1 k]|e] eqn:Hss.
  2:{ simpl. intros [= ->]. unfold super_save in Hss.
      by repeat case_match. }
  apply super_save_Ok in Hss as [-> Hor]. simpl in Hor.
  assert (k ∉ l) as Hkl.
  { destruct Hor as [Hor|[_ Hor]].
    - intros Hin. apply (HV _ Hin). rewrite Hor. set_solver.
    - intros Hin. destruct (chain_lookup _ _ _ _ Hl Hin) as [? ?]. congruence. }
  set (p := chain_path t l (slug self)) in *.
  set (t1 := <[k := row (with_path p self)]> t) in *.
  assert (t1 !! k = Some (set_path p self)) as Hk1 by apply lookup_insert_eq.
  assert (chain t1 (parent (set_path p self)) l) as Hl1.
  { apply (chain_ext t); [|done]. intros q Hq.
    unfold t1. rewrite lookup_insert_ne; [done|]. by intros ->. }
  assert (size t1 ≤ S (size t)) as Hsz.
  { unfold t1. destruct (t !! k) as [r|] eqn:Hr.
    - rewrite map_size_insert_Some by eauto. lia.
    - by rewrite map_size_insert_None. }
  pose proof (cascade_total (S (size t)) p t1 k _ l (save_total_all _) Hk1 Hl1
                ltac:(lia) (children_all t1 k) t1) as Hloop.
  destruct (for_each _ _ t1) as [t2 r]. simpl in *. apply Hloop; [|done..].
  apply Forall_forall. intros c (ck & r' & Hr & Hp & ->)%elem_of_children_all.
  exists ck. auto.
Qed.
End save_total.

(** ** Invariants after a save *)

Section after_save.
Import PyStr PyStrFacts.
Implicit Types (t : table) (self : DAGCategory) (l : list positive).

Lemma chain_path_step t q rq l s :
  t !! q = Some rq →
  chain_path t (q :: l) s = chain_path t l (slug rq) +:+ DELIMETER +:+ s.
Proof.
  intros Hq. unfold chain_path. rewrite (slugs_of_cons _ _ _ _ Hq), reverse_cons.
  rewrite join_snoc; [done|]. by destruct (reverse (slugs_of t l)).
Qed.

(** A consistent row below a consistent parent satisfies I2. *)
Lemma good_parent_path t x r q :
  good t x → good t q → t !! x = Some r → parent r = Some q →
  ∃ rq, t !! q = Some rq ∧ path r = path rq +:+ DELIMETER +:+ slug r.
Proof.
  intros (r' & l & Hr' & Hl & Hp) (rq & lq & Hrq & Hlq & Hpq) Hr Hpar.
  assert (r' = r) as -> by congruence.
  exists rq. split; [done|].
  rewrite Hpar in Hl. apply chain_Some in Hl as (rq' & l' & -> & Hrq' & Hl').
  assert (rq' = rq) as -> by congruence.
  rewrite (chain_inj _ _ _ _ Hl' Hlq) in Hp.
  by rewrite Hp, Hpq, (chain_path_step _ _ _ _ _ Hrq).
Qed.

Lemma good_depth t x r l :
  t !! x = Some r → chain t (parent r) l → path r = chain_path t l (slug r) →
  Forall (λ s, closed_piece s = true) (slugs_of t l) →
  no_delim (slug r) = true →
  depth r = length l.
Proof.
  intros Hr Hl Hp Hanc Hown. unfold depth.
  pose proof (count_split (path r) "") as Hc.
  rewrite Hp in Hc at 2. unfold chain_path in Hc.
  rewrite split_join in Hc by (by try apply Forall_reverse).
  rewrite length_app, length_reverse, (slugs_of_chain _ _ _ Hl) in Hc.
  simpl in Hc. lia.
Qed.
End after_save.

Lemma save_post_chain (t : table) (self : DAGCategory) (t' : table)
    (self' : DAGCategory) :
  save_post t self t' self' →
  ∃ k l, pk self' = Some k ∧ chain t (parent self) l ∧ chain t' (Some k) (k :: l).
Proof.
  intros (k & l & Hpk & _ & Hl & Hkl & Hrow & Hk & Hs & _).
  exists k, l. split_and!; [done..|].
  apply (shape_chain _ _ _ _ Hs), chain_cons. split; [done|].
  exists (row self'). split; [apply lookup_insert_eq|].
  rewrite Hrow. apply (chain_ext t); [|done].
  intros q Hq. rewrite lookup_insert_ne; [done|]. by intros ->.
Qed.

(** C3: after a save that returns normally, the row of the saved node holds
    the instance, every direct child has the saved node's new path, the
    delimiter and its own slug as its path, and so has every row deeper in
    the subtree relative to its own parent (invariant I2 throughout the
    subtree). *)
Theorem save_cascade_restores_paths (t : table) (self : DAGCategory)
    (t' : table) (self' : DAGCategory) :
  save t self = (t', self', Ok ()) →
  ∃ k, pk self' = Some k ∧ t' !! k = Some (row self')
    ∧ (∀ ck r, t' !! ck = Some r → parent r = Some k →
         path r = path self' +:+ DELIMETER +:+ slug r)
    ∧ (∀ x r, in_subtree t' k x → x ≠ k → t' !! x = Some r →
         ∃ q rq, parent r = Some q ∧ t' !! q = Some rq ∧ in_subtree t' k q
                 ∧ path r = path rq +:+ DELIMETER +:+ slug r).
Proof.
  intros Hsave%save_fuel_ok.
  destruct (save_post_chain _ _ _ _ Hsave) as (k & l & Hpk & _ & Hck).
  destruct Hsave as (k' & _ & Hpk' & _ & _ & _ & _ & Hk & _ & _ & Hgood).
  assert (k' = k) as -> by congruence.
  assert (Hstep : ∀ x r, in_subtree t' k x → x ≠ k → t' !! x = Some r →
            ∃ q rq, parent r = Some q ∧ t' !! q = Some rq ∧ in_subtree t' k q
                    ∧ path r = path rq +:+ DELIMETER +:+ slug r).
  { intros x r Hx Hne Hr. pose proof Hx as (lx & Hlx & Hin).
    apply chain_Some in Hlx as (r' & l' & -> & Hr' & Hl').
    assert (r' = r) as -> by congruence.
    apply elem_of_cons in Hin as [->|Hin]; [done|].
    destruct (parent r) as [q|] eqn:Hpar; [|by destruct l'; [inv Hin|]].
    assert (in_subtree t' k q) as Hq by by exists l'.
    destruct (good_parent_path t' x r q) as (rq & Hrq & Hp); auto.
    exists q, rq. auto. }
  exists k. split_and!; [done..| |done].
  intros ck r Hr Hpar.
  assert (ck ≠ k) as Hne.
  { intros ->. apply (not_in_subtree_of_child t' k k r); [done..|].
    by eapply in_subtree_self. }
  assert (in_subtree t' k ck) as Hin.
  { exists (ck :: k :: l). split; [|set_solver].
    apply chain_cons. split; [done|]. exists r. by rewrite Hpar. }
  destruct (Hstep ck r Hin Hne Hr) as (q & rq & Hq & Hrq & _ & Hp).
  assert (q = k) as -> by congruence.
  assert (rq = row self') as -> by congruence. done.
Qed.

Lemma save_cascade_restores_paths_witness :
  let self := mkCat (Some 1%positive) (mkRow "A" "x" None "a" 0) in
  let t' := (save tree3 self).1.1 in
  t' !! 3%positive = Some (mkRow "C" "c" (Some 2%positive) "x::b::c" 0)
  ∧ ∃ k, pk (save tree3 self).1.2 = Some k
    ∧ t' !! k = Some (row (save tree3 self).1.2)
    ∧ (∀ ck r, t' !! ck = Some r → parent r = Some k →
         path r = path (save tree3 self).1.2 +:+ DELIMETER +:+ slug r)
    ∧ (∀ x r, in_subtree t' k x → x ≠ k → t' !! x = Some r →
         ∃ q rq, parent r = Some q ∧ t' !! q = Some rq ∧ in_subtree t' k q
                 ∧ path r = path rq +:+ DELIMETER +:+ slug r).
Proof.
  intros self t'. split; [by vm_compute|].
  apply (save_cascade_restores_paths tree3 self). by vm_compute.
Defined.

(** C9, as amended: [depth] is the number of delimiter occurrences in the
    path; for every row at or below a node whose save returned normally,
    when no slug on its chain contains the delimiter and no ancestor's slug
    ends in a colon, that number is the number of its ancestors, and it is
    zero exactly for a row without parent. *)
Theorem depth_counts_ancestors (t : table) (self : DAGCategory) (t' : table)
    (self' : DAGCategory) (k x : positive) (r : Row) (l : list positive) :
  save t self = (t', self', Ok ()) → pk self' = Some k →
  in_subtree t' k x → t' !! x = Some r → chain t' (parent r) l →
  Forall (λ s, PyStr.closed_piece s = true) (slugs_of t' l) →
  PyStr.no_delim (slug r) = true →
  depth r = PyStr.count_colons (path r)
  ∧ depth r = length l
  ∧ (depth r = 0 ↔ parent r = None).
Proof.
  intros Hsave%save_fuel_ok Hpk Hx Hr Hl Hanc Hown.
  destruct Hsave as (k' & _ & Hpk' & _ & _ & _ & _ & _ & _ & _ & Hgood).
  assert (k' = k) as -> by congruence.
  destruct (Hgood x Hx) as (r' & l' & Hr' & Hl' & Hp).
  assert (r' = r) as -> by congruence.
  rewrite (chain_inj _ _ _ _ Hl' Hl) in Hp.
  assert (depth r = length l) as Hd by by eapply good_depth.
  split_and!; [done..|]. rewrite Hd. split.
  - intros Hz. destruct l; [|done]. by apply chain_nil in Hl.
  - intros Hn. rewrite Hn in Hl. by destruct l.
Qed.

Lemma depth_counts_ancestors_witness :
  let self := mkCat (Some 1%positive) (mkRow "A" "x" None "a" 0) in
  let r := mkRow "C" "c" (Some 2%positive) "x::b::c" 0 in
  depth r = PyStr.count_colons (path r) ∧ depth r = 2
  ∧ (depth r = 0 ↔ parent r = None).
Proof.
  intros self r.
  apply (depth_counts_ancestors tree3 self (save tree3 self).1.1
           (save tree3 self).1.2 1%positive 3%positive r
           [2%positive; 1%positive]).
  - by vm_compute.
  - by vm_compute.
  - exists [3%positive; 2%positive; 1%positive]. split; [|set_solver].
    vm_compute. tauto.
  - by vm_compute.
  - vm_compute. tauto.
  - vm_compute. repeat constructor.
  - reflexivity.
Defined.

(** C9 as stated fails: both slugs are non-empty and without delimiter, the
    saved child has one ancestor, and its path ["a::::b"] has depth 2. *)
Lemma depth_of_saved_path_counterexample :
  let t' := (save colon_tree colon_child2).1.1 in
  let k := fresh (dom colon_tree) in
  (save colon_tree colon_child2).2 = Ok ()
  ∧ Forall (λ s, s ≠ "" ∧ PyStr.no_delim s = true) ["a:"; ":b"]
  ∧ t' !! k = Some (mkRow "B" ":b" (Some 1%positive) "a::::b" 0)
  ∧ chain t' (Some 1%positive) [1%positive]
  ∧ slugs_of t' [1%positive] = ["a:"]
  ∧ depth (mkRow "B" ":b" (Some 1%positive) "a::::b" 0) = 2
  ∧ depth (mkRow "B" ":b" (Some 1%positive) "a::::b" 0) ≠ length [1%positive].
Proof.
  split_and!.
  - by vm_compute.
  - repeat constructor; done.
  - by vm_compute.
  - vm_compute. tauto.
  - by vm_compute.
  - by vm_compute.
  - by vm_compute.
Qed.

(** ** Evaluating querysets *)

Section queryset_facts.
Implicit Types (db : Database) (qs : QuerySet) (c : DAGCategory).

Lemma elem_of_evaluate db qs c :
  c ∈ evaluate db qs ↔ c ∈ objects (categories db) ∧ cond qs db c = true.
Proof.
  unfold evaluate, sort_by.
  rewrite merge_sort_Permutation, list_elem_of_filter.
  rewrite Is_true_true. naive_solver.
Qed.

Lemma NoDup_objects (t : table) : NoDup (objects t).
Proof.
  unfold objects. apply NoDup_fmap_2_strong; [|apply NoDup_map_to_list].
  intros [k1 r1] [k2 r2] _ _ [=]. by subst.
Qed.

Lemma NoDup_evaluate db qs : NoDup (evaluate db qs).
Proof.
  unfold evaluate, sort_by. rewrite merge_sort_Permutation.
  apply NoDup_filter, NoDup_objects.
Qed.

Lemma NoDup_fmap_eq {A B} (f : A → B) (l : list A) (x y : A) :
  NoDup (f <$> l) → x ∈ l → y ∈ l → f x = f y → x = y.
Proof.
  induction l as [|a l IH]; [by intros _ ?%elem_of_nil|].
  rewrite fmap_cons, NoDup_cons, !elem_of_cons.
  intros [Ha Hnd] [->|Hx] [->|Hy] E; [done| | |by apply IH].
  - destruct Ha. rewrite E. by apply list_elem_of_fmap_2.
  - destruct Ha. rewrite <- E. by apply list_elem_of_fmap_2.
Qed.

Lemma objects_same_path (t : table) c1 c2 :
  unique_paths t → c1 ∈ objects t → c2 ∈ objects t → path c1 = path c2 → c1 = c2.
Proof. intros Hu H1 H2 E. by eapply (NoDup_fmap_eq _ _ _ _ Hu). Qed.

(** [get(path=p)] on a queryset: the row, or [DoesNotExist]; with unique
    paths never [MultipleObjectsReturned]. *)
Lemma get_path_spec db qs p :
  unique_paths (categories db) →
  match get db (qs_filter (path_is p) qs) with
  | Ok c => c ∈ objects (categories db) ∧ cond qs db c = true ∧ path c = p
  | Raise DoesNotExist =>
      ∀ c, c ∈ objects (categories db) → cond qs db c = true → path c ≠ p
  | Raise _ => False
  end.
Proof.
  intros Hu. unfold get.
  assert (Hin : ∀ c, c ∈ evaluate db (qs_filter (path_is p) qs) ↔
            c ∈ objects (categories db) ∧ cond qs db c = true ∧ path c = p).
  { intros c. rewrite elem_of_evaluate. simpl. unfold path_is.
    rewrite andb_true_iff, bool_decide_eq_true. naive_solver. }
  pose proof (NoDup_evaluate db (qs_filter (path_is p) qs)) as Hnd.
  destruct (evaluate db _) as [|c [|c2 l]].
  - intros c Hc Hq Hp. by apply (elem_of_nil c), Hin.
  - apply Hin. left.
  - assert (c = c2) as ->.
    { apply (objects_same_path (categories db)); [done|..].
      - apply Hin. left.
      - apply Hin. right. left.
      - transitivity p; [|symmetry]; apply Hin; [left|right; left]. }
    inv Hnd. set_solver.
Qed.

Lemma get_DoesNotExist db qs :
  (∀ c, c ∈ objects (categories db) → cond qs db c = false) →
  get db qs = Raise DoesNotExist.
Proof.
  intros H. unfold get. destruct (evaluate db qs) as [|c l] eqn:E; [done|].
  assert (c ∈ evaluate db qs) as [Hc Hq]%elem_of_evaluate by (rewrite E; left).
  rewrite (H c Hc) in Hq. done.
Qed.

Lemma pop_snoc {A} (l : list A) (x : A) : pop (l ++ [x]) = Some (l, x).
Proof.
  induction l as [|a l IH]; [done|].
  simpl. destruct (l ++ [x]) eqn:E; [by destruct l|].
  by rewrite IH.
Qed.

Lemma pop_cases {A} (l : list A) :
  (l = [] ∧ pop l = None) ∨ (∃ l' x, l = l' ++ [x] ∧ pop l = Some (l', x)).
Proof.
  destruct l as [|a l _] using rev_ind; [by left|].
  right. exists l, a. split; [done|]. apply pop_snoc.
Qed.
End queryset_facts.

(** ** [select_from_url] *)

Section select_facts.
Variable SITE_ID : nat.
Implicit Types (db : Database) (items extras : list string).

Lemma select_loop_spec db items :
  unique_paths (categories db) →
  ∀ fuel extras limit lookups,
    (limit < 0)%Z → length items < fuel →
    ∃ lookups',
      (select_loop SITE_ID fuel db items extras limit lookups
         = (lookups', Ok (None, items ++ extras))
       ∧ ∀ pre rest, pre ≠ [] → items = pre ++ rest → no_match SITE_ID db pre)
      ∨ ∃ c pre rest,
          select_loop SITE_ID fuel db items extras limit lookups
            = (lookups', Ok (Some c, rest ++ extras))
          ∧ items = pre ++ rest ∧ pre ≠ []
          ∧ is_live SITE_ID db c ∧ path c = PyStr.join DELIMETER pre
          ∧ ∀ pre' rest', items = pre' ++ rest' → length pre < length pre' →
              no_match SITE_ID db pre'.
Proof.
  intros Hu. induction items as [|x items IH] using rev_ind;
    intros fuel extras limit lookups Hlim Hfuel.
  - destruct fuel; [simpl in Hfuel; lia|]. exists lookups. left.
    split; [done|]. intros pre rest Hpre E. by destruct pre.
  - destruct fuel as [|fuel]; [simpl in Hfuel; lia|].
    rewrite length_app in Hfuel. simpl in Hfuel.
    cbn [select_loop]. rewrite pop_snoc.
    rewrite decide_False by lia.
    pose proof (get_path_spec db (live SITE_ID)
                  (PyStr.join DELIMETER (items ++ [x])) Hu) as Hget.
    destruct (get db _) as [c|e].
    + destruct Hget as (Hc & Hq & Hp). eexists. right.
      exists c, (items ++ [x]), []. split_and!; try done.
      * by rewrite app_nil_r.
      * by destruct items.
      * intros pre' rest' E Hlen. apply (f_equal length) in E.
        rewrite (length_app pre'), length_app in E.
        rewrite length_app in Hlen. simpl in *. lia.
    + destruct e; try done.
      destruct (IH fuel (x :: extras) (limit - 1)%Z
                  (lookups ++ [PyStr.join DELIMETER (items ++ [x])]))
        as (lookups' & [[Hres Hno]|(c & pre & rest & Hres & E & Hpre & Hc & Hp & Hmax)]);
        [lia|lia| |].
      * exists lookups'. left. split.
        { rewrite Hres. by rewrite <- (assoc (++)). }
        intros pre rest Hpre E.
        destruct rest as [|y rest _] using rev_ind.
        { rewrite app_nil_r in E. subst pre. intros c [Hc Hq]. by apply Hget. }
        rewrite (assoc (++)) in E. apply app_inj_tail in E as [E _].
        by eapply Hno.
      * exists lookups'. right. exists c, pre, (rest ++ [x]).
        split_and!; try done.
        { rewrite Hres. by rewrite <- (assoc (++)). }
        { by rewrite E, <- (assoc (++)). }
        intros pre' rest' E' Hlen.
        destruct rest' as [|y rest' _] using rev_ind.
        { rewrite app_nil_r in E'. subst pre'. intros c' [Hc' Hq']. by apply Hget. }
        rewrite (assoc (++)) in E'. apply app_inj_tail in E' as [E' _].
        by eapply Hmax.
Qed.
End select_facts.

(** C5: with [limit = -1], [select_from_url] returns the live row whose path
    is the join of the longest non-empty prefix of the segments that is the
    path of a live row, with the remaining segments, in order, as extras,
    and no row with all segments as extras when no prefix matches; given a
    live row with path [shoes::red] and none with path
    [shoes::red::size-10], the url [shoes/red/size-10] resolves to that row
    with extras [size-10]. *)
Theorem select_from_url_longest_prefix (SITE_ID : nat) (db : Database) :
  unique_paths (categories db) →
  (∀ items, ∃ lookups,
     (select_items SITE_ID db items (-1) = (lookups, Ok (None, items))
      ∧ ∀ pre rest, pre ≠ [] → items = pre ++ rest → no_match SITE_ID db pre)
     ∨ ∃ c pre rest,
         select_items SITE_ID db items (-1) = (lookups, Ok (Some c, rest))
         ∧ items = pre ++ rest ∧ pre ≠ []
         ∧ is_live SITE_ID db c ∧ path c = PyStr.join DELIMETER pre
         ∧ ∀ pre' rest', items = pre' ++ rest' → length pre < length pre' →
             no_match SITE_ID db pre')
  ∧ (∀ c, is_live SITE_ID db c → path c = "shoes::red" →
       no_match SITE_ID db ["shoes"; "red"; "size-10"] →
       (select_from_url SITE_ID db "shoes/red/size-10" (-1)).2
         = Ok (Some c, ["size-10"])).
Proof.
  intros Hu.
  assert (Hgen : ∀ items, ∃ lookups,
     (select_items SITE_ID db items (-1) = (lookups, Ok (None, items))
      ∧ ∀ pre rest, pre ≠ [] → items = pre ++ rest → no_match SITE_ID db pre)
     ∨ ∃ c pre rest,
         select_items SITE_ID db items (-1) = (lookups, Ok (Some c, rest))
         ∧ items = pre ++ rest ∧ pre ≠ []
         ∧ is_live SITE_ID db c ∧ path c = PyStr.join DELIMETER pre
         ∧ ∀ pre' rest', items = pre' ++ rest' → length pre < length pre' →
             no_match SITE_ID db pre').
  { intros items. unfold select_items. rewrite decide_False by naive_solver.
    destruct (select_loop_spec SITE_ID db items Hu (S (length items)) [] (-1)%Z [])
      as (lookups & [[Hres Hno]|(c & pre & rest & Hres & H)]); [lia..| |];
      exists lookups; rewrite app_nil_r in Hres; [by left|].
    right. by exists c, pre, rest. }
  split; [done|]. intros c Hc Hp Hno.
  change (select_from_url SITE_ID db "shoes/red/size-10" (-1))
    with (select_items SITE_ID db ["shoes"; "red"; "size-10"] (-1)).
  destruct (Hgen ["shoes"; "red"; "size-10"])
    as (lookups & [[_ Hnone]|(c' & pre & rest & -> & E & Hpre & Hc' & Hp' & Hmax)]).
  - destruct (Hnone ["shoes"; "red"] ["size-10"]) with c; done.
  - destruct pre as [|a [|b [|d pre]]]; simplify_eq/=.
    + destruct (Hmax ["shoes"; "red"] ["size-10"]) with c; [done|simpl; lia|done..].
    + f_equal. f_equal. f_equal.
      destruct Hc, Hc'. apply (objects_same_path (categories db)); try done.
      by rewrite Hp.
    + destruct pre; simplify_eq/=. by destruct (Hno c').
Qed.

Lemma select_from_url_longest_prefix_witness :
  (select_from_url 7 shoes_db "shoes/red/size-10" (-1)).2
  = Ok (Some (mkCat (Some 2%positive)
                (mkRow "Red" "red" (Some 1%positive) "shoes::red" 0)),
        ["size-10"]).
Proof.
  apply (select_from_url_longest_prefix 7 shoes_db).
  - apply (bool_decide_unpack _). by vm_compute.
  - split; [|by vm_compute]. apply (bool_decide_unpack _). by vm_compute.
  - reflexivity.
  - intros c [Hc _]. revert c Hc.
    apply Forall_forall, (bool_decide_unpack _). by vm_compute.
Defined.

(** C6, as amended: with [limit = 0] and no live row whose path is
    [shoes::red::size-10], resolving [shoes/red/size-10] makes exactly one
    lookup, of the full-length path, and returns no row; the extras are the
    one segment popped after that lookup, [size-10]. *)
Theorem select_from_url_limit_zero (SITE_ID : nat) (db : Database) :
  no_match SITE_ID db ["shoes"; "red"; "size-10"] →
  select_from_url SITE_ID db "shoes/red/size-10" 0
  = (["shoes::red::size-10"], Ok (None, ["size-10"])).
Proof.
  intros Hno.
  change (select_from_url SITE_ID db "shoes/red/size-10" 0)
    with (select_items SITE_ID db ["shoes"; "red"; "size-10"] 0).
  unfold select_items. rewrite decide_True by done.
  cbn [select_loop length pop fmap option_fmap option_map fst snd].
  rewrite decide_False by done.
  rewrite get_DoesNotExist; [by rewrite decide_True|].
  intros c Hc. simpl. unfold path_is.
  destruct (sites__id SITE_ID db c) eqn:Hlive; [|done]. simpl.
  apply bool_decide_eq_false. by apply Hno.
Qed.

Lemma select_from_url_limit_zero_witness :
  select_from_url 7 only_red_db "shoes/red/size-10" 0
  = (["shoes::red::size-10"], Ok (None, ["size-10"])).
Proof.
  apply (select_from_url_limit_zero 7 only_red_db).
  intros c [Hc _]. revert c Hc.
  apply Forall_forall, (bool_decide_unpack _). by vm_compute.
Defined.

(** C6 as stated fails: the extras are not all three segments. *)
Lemma select_from_url_limit_zero_counterexample :
  (select_from_url 7 only_red_db "shoes/red/size-10" 0).2
  ≠ Ok (None, ["shoes"; "red"; "size-10"]).
Proof. by vm_compute. Qed.

(** ** The [live] filter *)

Section live_facts.
Variable SITE_ID : nat.
Implicit Types (db : Database) (qs : QuerySet) (c self : DAGCategory).

Lemma get_Ok db qs c : get db qs = Ok c → c ∈ evaluate db qs.
Proof.
  unfold get. destruct (evaluate db qs) as [|c' [|c2 l]]; [done| |done].
  intros [= ->]. left.
Qed.

Lemma select_loop_live fuel db items extras limit lookups c extras' :
  (select_loop SITE_ID fuel db items extras limit lookups).2
    = Ok (Some c, extras') →
  sites__id SITE_ID db c = true.
Proof.
  revert items extras limit lookups.
  induction fuel as [|fuel IH]; intros items extras limit lookups; [done|].
  cbn [select_loop]. destruct (pop items) as [[items' x]|]; [|done].
  destruct (decide (limit = 0%Z)); [done|].
  destruct (get db _) as [c'|e] eqn:Hget.
  - simpl. intros [= -> _]. apply get_Ok, elem_of_evaluate in Hget as [_ Hq].
    simpl in Hq. by apply andb_true_iff in Hq as [Hq _].
  - destruct e; try done. apply IH.
Qed.

Lemma branch_loop_cond slugs path_so_far qs db db' c :
  categories db = categories db' → cond qs db c = cond qs db' c →
  cond (branch_loop slugs path_so_far qs) db c
  = cond (branch_loop slugs path_so_far qs) db' c.
Proof.
  intros Hcat. revert path_so_far qs.
  induction slugs as [|s slugs IH]; intros path_so_far qs Hqs; [done|].
  simpl. apply IH. simpl. by rewrite Hqs.
Qed.

(** The last prefix [branch] looks up is the node's own path. *)
Lemma branch_loop_last slugs path_so_far qs db c :
  slugs ≠ [] → path c = PyStr.join DELIMETER (path_so_far ++ slugs) →
  cond (branch_loop slugs path_so_far qs) db c = true.
Proof.
  assert (Hmono : ∀ slugs path_so_far qs,
            cond qs db c = true →
            cond (branch_loop slugs path_so_far qs) db c = true).
  { clear. intros slugs. induction slugs as [|s slugs IH]; intros psf qs H;
      [done|]. simpl. apply IH. simpl. by rewrite H. }
  revert path_so_far qs. induction slugs as [|s slugs IH];
    intros path_so_far qs Hne Hp; [done|].
  simpl. destruct slugs as [|s2 slugs].
  - simpl. unfold path_is. rewrite bool_decide_eq_true_2 by done.
    by rewrite orb_true_r.
  - apply IH; [done|]. by rewrite <- (assoc (++)).
Qed.
End live_facts.

(** C7, as amended: [toplevel], [leaf_nodes], [inner_nodes], [all_children]
    and [select_from_url] return only rows that pass the [live] filter;
    [subtree] returns such rows and the node itself, which it includes
    whether or not it passes the filter; [branch], [travel_up] and [parents]
    do not consult the filter at all (their result does not depend on the
    sites relation), and [branch] includes the node itself. *)
Theorem live_filter_coverage (SITE_ID : nat) (db : Database) :
  (∀ c, c ∈ evaluate db (toplevel SITE_ID) → sites__id SITE_ID db c = true)
  ∧ (∀ c, c ∈ evaluate db (leaf_nodes SITE_ID) → sites__id SITE_ID db c = true)
  ∧ (∀ c, c ∈ evaluate db (inner_nodes SITE_ID) → sites__id SITE_ID db c = true)
  ∧ (∀ self c, c ∈ evaluate db (all_children SITE_ID self) →
       sites__id SITE_ID db c = true)
  ∧ (∀ url limit c extras,
       (select_from_url SITE_ID db url limit).2 = Ok (Some c, extras) →
       sites__id SITE_ID db c = true)
  ∧ (∀ self c, c ∈ evaluate db (subtree SITE_ID self) →
       sites__id SITE_ID db c = true ∨ pk c = pk self)
  ∧ (∀ self, self ∈ objects (categories db) →
       self ∈ evaluate db (subtree SITE_ID self) ∧ self ∈ evaluate db (branch self))
  ∧ (∀ self sites',
       evaluate (mkDB (categories db) sites') (branch self) = evaluate db (branch self)
       ∧ evaluate (mkDB (categories db) sites') (travel_up self)
         = evaluate db (travel_up self)
       ∧ evaluate (mkDB (categories db) sites') (parents self)
         = evaluate db (parents self)).
Proof.
  split_and!.
  - intros c [_ Hq]%elem_of_evaluate. simpl in Hq.
    by apply andb_true_iff in Hq as [Hq _].
  - intros c [_ Hq]%elem_of_evaluate. simpl in Hq.
    by apply andb_true_iff in Hq as [Hq _].
  - intros c [_ Hq]%elem_of_evaluate. simpl in Hq.
    by apply andb_true_iff in Hq as [Hq _].
  - intros self c [_ Hq]%elem_of_evaluate. simpl in Hq.
    by apply andb_true_iff in Hq as [Hq _].
  - intros url limit c extras. apply select_loop_live.
  - intros self c [_ Hq]%elem_of_evaluate. simpl in Hq.
    apply orb_true_iff in Hq as [Hq|Hq].
    + right. unfold pk_is in Hq. apply bool_decide_eq_true in Hq. tauto.
    + left. by apply andb_true_iff in Hq as [Hq _].
  - intros self Hself. split; apply elem_of_evaluate; (split; [done|]).
    + simpl. unfold pk_is. rewrite bool_decide_eq_true_2; [done|].
      apply elem_of_objects in Hself as (k & r & _ & ->). eauto.
    + simpl. apply branch_loop_last; [apply PyStrFacts.split_nonempty|].
      change (path self
              = PyStr.join DELIMETER (PyStr.split_colons "" (path self))).
      by rewrite PyStrFacts.join_split.
  - intros self sites'.
    assert (Hb : ∀ c, cond (branch self) (mkDB (categories db) sites') c
                      = cond (branch self) db c).
    { intros c. simpl. by apply branch_loop_cond. }
    simpl in Hb. unfold evaluate. simpl categories.
    split_and!; f_equal; apply list_filter_iff; intros c; simpl;
      by rewrite (Hb c).
Qed.

(** C7 as stated fails: a row on no site is returned by [subtree] and by
    [branch] of itself. *)
Lemma live_filter_counterexample :
  sites__id 7 hidden_db hidden_node = false
  ∧ hidden_node ∈ evaluate hidden_db (subtree 7 hidden_node)
  ∧ hidden_node ∈ evaluate hidden_db (branch hidden_node).
Proof.
  split_and!.
  - reflexivity.
  - apply (bool_decide_unpack _). by vm_compute.
  - apply (bool_decide_unpack _). by vm_compute.
Qed.

(** ** Orderings *)

Section ordering_facts.
Implicit Types (o : Ordering) (a b c : DAGCategory) (l : list DAGCategory).

Global Instance ord_le_total o : Total (ord_le o).
Proof.
  intros a b. destruct o; simpl; try lia; apply (total String.le).
Qed.

Global Instance ord_le_trans o : Transitive (ord_le o).
Proof.
  intros a b c. destruct o; simpl; intros H1 H2;
    [lia|lia|exact (transitivity H1 H2)|exact (transitivity H2 H1)].
Qed.

Lemma sort_by_sorted o l : StronglySorted (ord_le o) (sort_by o l).
Proof. apply Sorted_StronglySorted; [apply _|]. apply Sorted_merge_sort, _. Qed.

(** A list sorted by path whose paths identify its rows is what the sort
    returns on any permutation of it. *)
Lemma sort_by_path_unique o l l' :
  o = ByPath ∨ o = ByPathDesc →
  (∀ a b : DAGCategory, a ∈ l' → b ∈ l' → path a = path b → a = b) →
  l ≡ₚ l' → StronglySorted (ord_le o) l' → sort_by o l = l'.
Proof.
  intros Ho Hinj Hperm Hsorted.
  apply (StronglySorted_unique_strong (ord_le o)); [|apply sort_by_sorted|done|].
  - intros a b Ha Hb Hab Hba. apply Hinj; [|done|].
    + revert Ha. unfold sort_by. by rewrite merge_sort_Permutation, Hperm.
    + destruct Ho as [-> | ->]; simpl in *; by apply (anti_symm String.le).
  - unfold sort_by. by rewrite merge_sort_Permutation.
Qed.


Lemma string_le_app (s u : string) : (s ≤ s +:+ u)%string.
Proof.
  unfold String.le, String.leb.
  assert ((s ?= s +:+ u)%string ≠ Gt) as H.
  { induction s as [|c s IH]; [by destruct u|].
    rewrite PyStrFacts.sapp_cons. simpl.
    unfold Ascii.compare. by rewrite N.compare_refl. }
  by destruct (s ?= s +:+ u)%string.
Qed.
End ordering_facts.

(** ** Ancestors by path prefix: [branch], [travel_up], [parents] *)

Section branch_facts.
Import PyStr PyStrFacts.
Implicit Types (t : table) (db : Database) (c self : DAGCategory)
  (l full : list positive).

Lemma join_app (P Q : list string) :
  P ≠ [] → Q ≠ [] →
  join DELIMETER (P ++ Q) = join DELIMETER P +:+ DELIMETER +:+ join DELIMETER Q.
Proof.
  intros HP HQ. induction P as [|a P IH]; [done|].
  destruct P as [|b P].
  - destruct Q; [done|]. done.
  - rewrite <- !app_comm_cons, join_cons2. rewrite app_comm_cons, IH by done.
    by rewrite join_cons2, !sapp_assoc.
Qed.

Lemma branch_loop_char slugs path_so_far qs db c :
  cond (branch_loop slugs path_so_far qs) db c = true ↔
  cond qs db c = true
  ∨ ∃ pre, pre ∈ prefixes_from path_so_far slugs ∧ path c = join DELIMETER pre.
Proof.
  revert path_so_far qs. induction slugs as [|s slugs IH]; intros psf qs.
  - simpl. split; [auto|]. intros [?|(pre & []%elem_of_nil & _)]. done.
  - cbn [branch_loop prefixes_from]. rewrite IH. simpl. unfold path_is.
    rewrite orb_true_iff, bool_decide_eq_true. setoid_rewrite elem_of_cons.
    naive_solver.
Qed.

Lemma prefixes_from_snoc psf (S : list string) (s : string) :
  prefixes_from psf (S ++ [s]) = prefixes_from psf S ++ [psf ++ S ++ [s]].
Proof.
  revert psf. induction S as [|a S IH]; intros psf; [done|].
  rewrite <- app_comm_cons. cbn [prefixes_from]. rewrite IH.
  by rewrite <- !(assoc (++)).
Qed.

Lemma elem_of_instances t l c :
  c ∈ instances t l ↔ ∃ x r, x ∈ l ∧ t !! x = Some r ∧ c = mkCat (Some x) r.
Proof.
  unfold instances. rewrite list_elem_of_omap.
  setoid_rewrite fetch_Some. naive_solver.
Qed.

Lemma instances_cons t x r l :
  t !! x = Some r → instances t (x :: l) = mkCat (Some x) r :: instances t l.
Proof. intros H. unfold instances, fetch. simpl. by rewrite H. Qed.

Lemma I6_at_path t x r lx :
  I6_at t x lx → t !! x = Some r →
  path r = join DELIMETER (reverse (slugs_of t (x :: lx))).
Proof.
  unfold I6_at. intros H Hr. rewrite Hr in H. destruct H as [_ H].
  rewrite (slugs_of_cons _ _ _ _ Hr), reverse_cons, <- H.
  by rewrite join_split.
Qed.

(** The path of a row on the chain is the join of a non-empty prefix of
    the chain's slugs. *)
Lemma I6_chain_prefix t full y ry :
  I6_chain t full → y ∈ full → t !! y = Some ry →
  ∃ Py Q, Py ≠ [] ∧ reverse (slugs_of t full) = Py ++ Q
          ∧ path ry = join DELIMETER Py.
Proof.
  induction full as [|x rest IH]; [by intros _ ?%elem_of_nil|].
  intros [Hx Hrest] Hy Hry.
  destruct (t !! x) as [rx|] eqn:Hrx; [|by unfold I6_at in Hx; rewrite Hrx in Hx].
  apply elem_of_cons in Hy as [->|Hy].
  - assert (rx = ry) as -> by congruence.
    exists (reverse (slugs_of t (x :: rest))), []. split_and!.
    + rewrite (slugs_of_cons _ _ _ _ Hrx), reverse_cons. by destruct (reverse _).
    + by rewrite app_nil_r.
    + by apply I6_at_path.
  - destruct (IH Hrest Hy Hry) as (Py & Q & HPy & E & Hp).
    exists Py, (Q ++ [slug rx]). split_and!; [done| |done].
    by rewrite (slugs_of_cons _ _ _ _ Hrx), reverse_cons, E, <- (assoc (++)).
Qed.

(** The prefixes [branch] looks up are the paths of the rows of the
    chain. *)
Lemma chain_prefix_paths t full p :
  I6_chain t full →
  (∃ pre, pre ∈ prefixes_from [] (reverse (slugs_of t full))
          ∧ p = join DELIMETER pre)
  ↔ ∃ x r, x ∈ full ∧ t !! x = Some r ∧ path r = p.
Proof.
  induction full as [|x rest IH].
  - intros _. split; [intros (? & []%elem_of_nil & _)|].
    intros (? & ? & []%elem_of_nil & _).
  - intros [Hx Hrest].
    destruct (t !! x) as [rx|] eqn:Hrx;
      [|by unfold I6_at in Hx; rewrite Hrx in Hx].
    pose proof (I6_at_path _ _ _ _ Hx Hrx) as Hpx.
    rewrite (slugs_of_cons _ _ _ _ Hrx), reverse_cons in Hpx |- *.
    rewrite prefixes_from_snoc. setoid_rewrite elem_of_app.
    setoid_rewrite list_elem_of_singleton. setoid_rewrite elem_of_cons.
    specialize (IH Hrest). split.
    + intros (pre & [Hpre| ->] & ->).
      * destruct IH as [IH _]. destruct IH as (y & ry & ? & ? & ?); eauto 10.
      * exists x, rx. auto.
    + intros (y & ry & [->|Hy] & Hry & <-).
      * assert (rx = ry) as -> by congruence. eauto.
      * destruct IH as [_ IH]. destruct IH as (pre & ? & ?); eauto 10.
Qed.

Lemma I6_chain_sorted t full :
  I6_chain t full → StronglySorted (ord_le ByPathDesc) (instances t full).
Proof.
  induction full as [|x rest IH]; [constructor|]. intros [Hx Hrest].
  destruct (t !! x) as [rx|] eqn:Hrx; [|by unfold I6_at in Hx; rewrite Hrx in Hx].
  rewrite (instances_cons _ _ _ _ Hrx). constructor; [by apply IH|].
  apply Forall_forall. intros c (y & ry & Hy & Hry & ->)%elem_of_instances.
  simpl. destruct (I6_chain_prefix _ _ _ _ Hrest Hy Hry) as (Py & Q & HPy & E & ->).
  rewrite (I6_at_path _ _ _ _ Hx Hrx).
  rewrite (slugs_of_cons _ _ _ _ Hrx), reverse_cons, E, <- (assoc (++)).
  rewrite join_app by (by try destruct Q). apply string_le_app.
Qed.

Lemma NoDup_instances t l : NoDup l → NoDup (instances t l).
Proof.
  induction 1 as [|x l Hx Hl IH]; [constructor|].
  destruct (t !! x) as [r|] eqn:Hr.
  - rewrite (instances_cons _ _ _ _ Hr). constructor; [|done].
    intros (y & ry & Hy & _ & [= ->])%elem_of_instances. done.
  - unfold instances, fetch in *. simpl. by rewrite Hr.
Qed.
End branch_facts.



(** ** [build_tree_structure] *)

Section build_facts.
Implicit Types (nodes rest : list DAGCategory) (st : Forest) (prev : list nat).

Lemma build_tree_structure_forest (SITE_ID : nat) (db : Database) (qs : QuerySet) :
  build_tree_structure SITE_ID db (Some qs)
  = build_forest (filter (λ c, cond qs db c) (objects (categories db))).
Proof. done. Qed.

Lemma wind_back_last nodes d prev b :
  last prev = Some b → depth_at nodes b ≤ d →
  last (wind_back nodes d prev) = Some b.
Proof.
  induction prev as [|p up IH]; [done|]. intros Hlast Hb. simpl.
  destruct (decide (d < depth_at nodes p)) as [Hp|Hp]; [|done].
  destruct up as [|q up]; [|by apply IH].
  simpl in Hlast. injection Hlast as ->. lia.
Qed.

(** Once a root has been seen, the chain from [previous] ends at a root and
    the pass does not raise. *)
Lemma build_loop_ok nodes rest :
  ∀ done_ st,
    nodes = done_ ++ rest →
    (∃ b, last (previous st) = Some b ∧ depth_at nodes b = 0) →
    ∃ f, build_loop nodes (length done_) rest st = Ok f.
Proof.
  induction rest as [|node rest IH]; intros done_ st Hnodes (b & Hlast & Hb);
    [by eexists|].
  assert (depth_at nodes (length done_) = depth node) as Hd.
  { unfold depth_at. rewrite Hnodes.
    by rewrite lookup_app_r, Nat.sub_diag by lia. }
  assert (Hnext : ∀ st' b', last (previous st') = Some b' →
            depth_at nodes b' = 0 →
            ∃ f, build_loop nodes (S (length done_)) rest st' = Ok f).
  { intros st' b' Hl Hb'. specialize (IH (done_ ++ [node]) st').
    rewrite length_app, Nat.add_1_r in IH. apply IH; [|eauto].
    by rewrite <- (assoc (++)). }
  cbn [build_loop]. unfold build_step.
  destruct (decide (depth node = 0)) as [Hz|Hnz].
  { apply (Hnext (mkForest _ _ _ _) (length done_)); [done|]. by rewrite Hd. }
  pose proof (wind_back_last nodes (depth node) _ _ Hlast ltac:(lia)) as Hw.
  destruct (wind_back nodes (depth node) (previous st)) as [|p up]; [done|].
  destruct (decide (depth_at nodes p = depth node)) as [Hp|Hp].
  - destruct up as [|q up].
    { simpl in Hw. injection Hw as ->. lia. }
    apply (Hnext (mkForest _ _ _ _) b); [|done]. cbn [previous].
    by rewrite last_cons_cons in Hw |- *.
  - apply (Hnext (mkForest _ _ _ _) b); [|done]. cbn [previous].
    by rewrite last_cons_cons.
Qed.

(** The pass raises only when the first node in path order is not a
    root ([previous] is still [None]). *)
Lemma build_pass_ok nodes :
  match nodes with
  | [] => True
  | node :: _ => depth node = 0
  end →
  ∃ f, build_pass nodes = Ok f.
Proof.
  unfold build_pass. destruct nodes as [|node rest]; [by eexists|].
  intros Hz. cbn [build_loop]. unfold build_step. rewrite decide_True by done.
  apply (build_loop_ok (node :: rest) rest [node]); [done|].
  exists 0. split; [done|]. unfold depth_at. simpl. done.
Qed.

Lemma build_pass_raise nodes e :
  build_pass nodes = Raise e →
  e = AttributeError ∧ ∃ node rest, nodes = node :: rest ∧ depth node ≠ 0.
Proof.
  destruct nodes as [|node rest]; [done|].
  destruct (decide (depth node = 0)) as [Hz|Hnz].
  - destruct (build_pass_ok (node :: rest) Hz) as [f ->]. done.
  - unfold build_pass. cbn [build_loop]. unfold build_step.
    rewrite decide_False by done. simpl. intros [= <-]. eauto.
Qed.
End build_facts.

(** C10: [build_tree_structure] sorts the rows it is given by path before
    the pass.  For rows that their path identifies (the unique constraint
    on [path]) the sorted sequence of nodes is the same for every order in
    which they are supplied, and so is everything the pass builds from it:
    the forest, the sequence of root nodes, the [children_list] of every
    node and the [parent] assigned to every node.  For a queryset, the
    nodes iterated and the result do not depend on the ordering the
    queryset carries, and with unique paths they are the path-sorted rows
    and the forest of the rows the queryset yields, in whatever order it
    yields them. *)
Theorem build_forest_order_independent (l l' : list DAGCategory) :
  (∀ a b : DAGCategory, a ∈ l → b ∈ l → path a = path b → a = b) →
  l ≡ₚ l' →
  sort_by ByPath l = sort_by ByPath l'
  ∧ build_forest l = build_forest l'
  ∧ roots_of l = roots_of l'
  ∧ (∀ n, children_list_of l n = children_list_of l' n)
  ∧ (∀ n, assigned_parent_of l n = assigned_parent_of l' n)
  ∧ (∀ SITE_ID db qs o,
       ordered_nodes SITE_ID db (Some (order_by o qs))
       = ordered_nodes SITE_ID db (Some qs)
       ∧ build_tree_structure SITE_ID db (Some (order_by o qs))
         = build_tree_structure SITE_ID db (Some qs))
  ∧ (∀ SITE_ID db qs,
       unique_paths (categories db) →
       ordered_nodes SITE_ID db (Some qs) = sort_by ByPath (evaluate db qs)
       ∧ build_tree_structure SITE_ID db (Some qs) = build_forest (evaluate db qs)).
Proof.
  intros Hinj Hperm.
  assert (sort_by ByPath l = sort_by ByPath l') as Hsort.
  { apply sort_by_path_unique; [auto| | |apply sort_by_sorted].
    - intros a b. unfold sort_by. rewrite !merge_sort_Permutation, <- !Hperm.
      apply Hinj.
    - unfold sort_by. by rewrite merge_sort_Permutation. }
  assert (build_forest l = build_forest l') as Hforest
    by (unfold build_forest; by rewrite Hsort).
  split_and!; [done|done| | | |done|].
  - unfold roots_of. by rewrite Hforest, Hsort.
  - intros n. unfold children_list_of, position_of. by rewrite Hforest, Hsort.
  - intros n. unfold assigned_parent_of, position_of. by rewrite Hforest, Hsort.
  - intros SITE_ID db qs Hu.
    assert (ordered_nodes SITE_ID db (Some qs) = sort_by ByPath (evaluate db qs))
      as Hnodes.
    { unfold ordered_nodes, evaluate. cbn [default cond ordering order_by].
      apply sort_by_path_unique; [auto| | |apply sort_by_sorted].
      - intros a b. unfold sort_by. rewrite !merge_sort_Permutation.
        intros [_ Ha]%list_elem_of_filter [_ Hb]%list_elem_of_filter.
        by apply (objects_same_path (categories db)).
      - unfold sort_by. by rewrite !merge_sort_Permutation. }
    split; [done|].
    change (build_tree_structure SITE_ID db (Some qs))
      with (build_pass (ordered_nodes SITE_ID db (Some qs))).
    by rewrite Hnodes.
Qed.

Lemma build_forest_order_independent_witness :
  sort_by ByPath [node_a; node_b; node_c; node_d]
  = sort_by ByPath [node_d; node_c; node_b; node_a]
  ∧ build_forest [node_a; node_b; node_c; node_d]
    = build_forest [node_d; node_c; node_b; node_a]
  ∧ roots_of [node_a; node_b; node_c; node_d]
    = roots_of [node_d; node_c; node_b; node_a]
  ∧ (∀ n, children_list_of [node_a; node_b; node_c; node_d] n
          = children_list_of [node_d; node_c; node_b; node_a] n)
  ∧ (∀ n, assigned_parent_of [node_a; node_b; node_c; node_d] n
          = assigned_parent_of [node_d; node_c; node_b; node_a] n)
  ∧ (∀ SITE_ID db qs o,
       ordered_nodes SITE_ID db (Some (order_by o qs))
       = ordered_nodes SITE_ID db (Some qs)
       ∧ build_tree_structure SITE_ID db (Some (order_by o qs))
         = build_tree_structure SITE_ID db (Some qs))
  ∧ (∀ SITE_ID db qs,
       unique_paths (categories db) →
       ordered_nodes SITE_ID db (Some qs) = sort_by ByPath (evaluate db qs)
       ∧ build_tree_structure SITE_ID db (Some qs) = build_forest (evaluate db qs)).
Proof.
  apply (build_forest_order_independent [node_a; node_b; node_c; node_d]
           [node_d; node_c; node_b; node_a]).
  - intros a b Ha Hb E.
    apply (NoDup_fmap_eq (λ c : DAGCategory, path c)
             [node_a; node_b; node_c; node_d]); [|done..].
    apply (bool_decide_unpack _). by vm_compute.
  - apply (bool_decide_unpack _). by vm_compute.
Defined.

Section build_chain.
Implicit Types (nodes rest : list DAGCategory) (st : Forest) (prev : list nat)
  (np : gmap nat nat).

Lemma is_parent_chain_tail np i up :
  is_parent_chain np (i :: up) → is_parent_chain np up.
Proof. destruct up; simpl; naive_solver. Qed.

Lemma is_parent_chain_wind_back nodes d np prev :
  is_parent_chain np prev → is_parent_chain np (wind_back nodes d prev).
Proof.
  induction prev as [|p up IH]; [done|]. intros H. simpl.
  destruct (decide _); [|done]. apply IH. by eapply is_parent_chain_tail.
Qed.

Lemma wind_back_subseteq nodes d prev : wind_back nodes d prev ⊆ prev.
Proof.
  induction prev as [|p up IH]; [done|]. simpl.
  destruct (decide _); [|done]. set_solver.
Qed.

Lemma is_parent_chain_insert np prev i q :
  (∀ j, j ∈ prev → j ≠ i) →
  is_parent_chain np prev → is_parent_chain (<[i := q]> np) prev.
Proof.
  induction prev as [|a up IH]; [done|]. intros Hne H.
  assert (a ≠ i) as Ha by (apply Hne; left).
  destruct up as [|b up]; simpl in *.
  - by rewrite lookup_insert_ne.
  - destruct H as [H1 H2]. rewrite lookup_insert_ne by done. split; [done|].
    apply IH; [|done]. intros j Hj. apply Hne. by right.
Qed.

Lemma build_step_inv nodes st i node st' :
  build_step nodes st i node = Ok st' → build_inv i st → build_inv (S i) st'.
Proof.
  unfold build_step. intros Hstep (Hc & Hprev & Hnp).
  destruct (decide (depth node = 0)).
  { injection Hstep as <-. split_and!; simpl.
    - destruct (node_parent st !! i) eqn:E; [|done].
      specialize (Hnp i ltac:(eauto)). lia.
    - intros j ->%list_elem_of_singleton. lia.
    - intros j Hj%Hnp. lia. }
  pose proof (is_parent_chain_wind_back nodes (depth node) _ _ Hc) as Hw.
  pose proof (wind_back_subseteq nodes (depth node) (previous st)) as Hsub.
  destruct (wind_back nodes (depth node) (previous st)) as [|p up]; [done|].
  set (pc := if decide (depth_at nodes p = depth node) then up else p :: up) in *.
  assert (is_parent_chain (node_parent st) pc ∧ pc ⊆ previous st) as [Hpc Hpcs].
  { unfold pc. destruct (decide _); [|done]. split.
    - by eapply is_parent_chain_tail.
    - set_solver. }
  destruct pc as [|q tl] eqn:Epc; [done|]. injection Hstep as <-.
  assert (∀ j, j ∈ q :: tl → j < i) as Hlt by (intros j Hj; apply Hprev; set_solver).
  split_and!; cbn [node_parent previous].
  - change (<[i:=q]> (node_parent st) !! i = Some q
            ∧ is_parent_chain (<[i:=q]> (node_parent st)) (q :: tl)).
    split; [apply lookup_insert_eq|].
    apply is_parent_chain_insert; [|done]. intros j Hj%Hlt. lia.
  - intros j [->|Hj]%elem_of_cons; [lia|]. specialize (Hlt j Hj). lia.
  - intros j. rewrite lookup_insert. case_decide; [lia|]. intros Hj%Hnp. lia.
Qed.

Lemma build_loop_inv nodes rest :
  ∀ i st f, build_loop nodes i rest st = Ok f →
    build_inv i st → build_inv (i + length rest) f.
Proof.
  induction rest as [|node rest IH]; intros i st f.
  - intros [= <-]. by rewrite Nat.add_0_r.
  - cbn [build_loop]. destruct (build_step nodes st i node) as [st'|e] eqn:Hs;
      [|done].
    intros Hloop Hinv. simpl. rewrite <- Nat.add_succ_comm.
    eapply IH; [done|]. by eapply build_step_inv.
Qed.

Lemma build_pass_parent_chain nodes f :
  build_pass nodes = Ok f →
  is_parent_chain (node_parent f) (previous f).
Proof.
  intros H. apply build_loop_inv in H as [H _]; [done|].
  split_and!; simpl; [done|by intros ? ?%elem_of_nil|].
  intros j [? Hj]. by rewrite lookup_empty in Hj.
Qed.
End build_chain.

(** C4: on the four nodes [a], [a::b], [a::c], [a::b::d] the forest has the
    single root [a] with children [b; c] and [b] has the child [d].  On the
    consistent forest [a], [a1], [a::b], whose path order is [a], [a1],
    [a::b], the pass attaches [a::b] to [a1] and leaves [a] without
    children, although the stored parent of [a::b] is [a]. *)
Theorem build_forest_attachment :
  (roots_of [node_a; node_b; node_c; node_d] = Some [node_a]
   ∧ children_list_of [node_a; node_b; node_c; node_d] node_a = Some [node_b; node_c]
   ∧ children_list_of [node_a; node_b; node_c; node_d] node_b = Some [node_d]
   ∧ children_list_of [node_a; node_b; node_c; node_d] node_c = Some []
   ∧ children_list_of [node_a; node_b; node_c; node_d] node_d = Some [])
  ∧ (sort_by ByPath [node_a; node_b; node_a1] = [node_a; node_a1; node_b]
     ∧ roots_of [node_a; node_b; node_a1] = Some [node_a; node_a1]
     ∧ children_list_of [node_a; node_b; node_a1] node_a = Some []
     ∧ children_list_of [node_a; node_b; node_a1] node_a1 = Some [node_b]
     ∧ assigned_parent_of [node_a; node_b; node_a1] node_b = Some node_a1
     ∧ parent node_b = pk node_a).
Proof. split; split_and!; by vm_compute. Qed.

(** * Further properties of the code *)

(** ** [save] and [update_path]: outcomes and what is written *)

Lemma with_path_with_path (p p' : string) (c : DAGCategory) :
  with_path p (with_path p' c) = with_path p c.
Proof. done. Qed.

Lemma save_fuel_with_path fuel (t : table) (self : DAGCategory) (p : string) :
  (save_fuel fuel t (with_path p self)).1.1 = (save_fuel fuel t self).1.1
  ∧ (save_fuel fuel t (with_path p self)).2 = (save_fuel fuel t self).2.
Proof.
  destruct fuel as [|fuel]; [done|]. rewrite !save_fuel_S.
  change (parent (with_path p self)) with (parent self).
  change (pk (with_path p self)) with (pk self).
  change (slug (with_path p self)) with (slug self).
  destruct (walk _ _ _ _ _) as [p'|e]; [|done].
  rewrite with_path_with_path.
  destruct (super_save t (with_path p' self)) as [[t1 k]|e]; [|done].
  by destruct (for_each _ _ t1).
Qed.

(** X1: the [path_so_far] handed to [update_path] has no effect on the
    table: the [save] it calls recomputes the path from the parent chain, so
    [update_path] writes exactly what [save] writes and ends the same way. *)
Theorem update_path_is_save (t : table) (self : DAGCategory) (path_so_far : string) :
  update_path t self path_so_far = ((save t self).1.1, (save t self).2).
Proof.
  unfold update_path, update_path_with, save.
  pose proof (save_fuel_with_path (S (S (size t))) t self
                (path_so_far +:+ DELIMETER +:+ slug self)) as [H1 H2].
  destruct (save_fuel _ t (with_path _ self)) as [[t' self'] r].
  simpl in *. by rewrite H1, H2.
Qed.

Lemma walk_chain_ok (t : table) (self : DAGCategory) (l : list positive) :
  chain t (parent self) l → (∀ k, pk self = Some k → k ∉ l) →
  walk (S (size t)) t (parent self) {[pk self]} (slug self)
  = Ok (chain_path t l (slug self)).
Proof.
  intros Hl Hk. apply walk_complete; [done| |].
  - intros q Hq [=]%elem_of_singleton. naive_solver.
  - pose proof (chain_NoDup _ _ _ Hl) as Hnd.
    assert (list_to_set l ⊆ dom t) as Hsub.
    { intros q Hq%elem_of_list_to_set. apply elem_of_dom.
      by eapply chain_lookup. }
    apply (subseteq_size (C := gset positive)) in Hsub.
    rewrite size_list_to_set, size_dom in Hsub by done. lia.
Qed.

Section save_failures.
Implicit Types (t : table) (self c : DAGCategory) (l : list positive).

Lemma super_save_errors t self e : super_save t self = Raise e → e = IntegrityError.
Proof. unfold super_save. repeat case_match; by intros [= <-]. Qed.

(** The children of a row whose chain is acyclic have acyclic chains: their
    walks succeed, and the cascade can only fail on the unique constraint. *)
Lemma cascade_errors f p t1 k rowk l :
  cascade_errors_at f →
  t1 !! k = Some rowk → chain t1 (parent rowk) l →
  ∀ cs ta e,
    Forall (λ c : DAGCategory,
      ∃ ck, pk c = Some ck ∧ t1 !! ck = Some (row c) ∧ parent c = Some k) cs →
    shape ta = shape t1 → ta !! k = Some rowk →
    (for_each (λ t c, update_path_with (save_fuel f) t c p) cs ta).2 = Raise e →
    e = IntegrityError ∨ e = OutOfFuel.
Proof.
  intros IHP Hk Hl cs. induction cs as [|c cs IHcs]; intros ta e Hcs Hs Hka;
    [done|].
  pose proof Hcs as Hcs0. inv Hcs. destruct H1 as (ck & Hpk & Hrow & Hpar).
  rewrite for_each_cons. unfold update_path_with at 1.
  destruct (save_fuel f ta _) as [[t3 c'] r] eqn:Hsave.
  assert (chain t1 (Some k) (k :: l)) as Hkl by (apply chain_cons; eauto).
  destruct r as [[]|e0].
  - destruct (cascade_ok f p t1 k rowk l (save_fuel_ok f) Hk Hl [c] ta t3)
      as (Hs3 & Hk3 & _); [|done|done| |].
    { constructor; [by exists ck|constructor]. }
    { rewrite for_each_cons. unfold update_path_with. by rewrite Hsave. }
    by apply IHcs.
  - simpl. intros [= ->].
    refine (IHP ta (with_path (p +:+ DELIMETER +:+ slug c) c) ck (k :: l) e
              Hpk _ _ _ _).
    + pose proof (shape_lookup _ _ ck Hs) as E. rewrite Hrow in E.
      destruct (ta !! ck); [eauto|done].
    + change (chain ta (parent c) (k :: l)). rewrite Hpar.
      by apply (shape_chain _ _ _ _ Hs).
    + apply (chain_not_below t1 ck c); [done|]. by rewrite Hpar.
    + by rewrite Hsave.
Qed.

Lemma cascade_errors_all f : cascade_errors_at f.
Proof.
  induction f as [|f IH]; intros t self k l e Hpk Hin Hl Hkl.
  { simpl. intros [= <-]. by right. }
  rewrite save_fuel_S.
  rewrite (walk_chain_ok t self l Hl)
    by (intros k0 Hk0; rewrite Hpk in Hk0; by injection Hk0 as <-).
  destruct (super_save _ _) as [[t1 k0]|e0] eqn:Hss.
  2:{ simpl. intros [= <-]. left. by eapply super_save_errors. }
  apply super_save_Ok in Hss as [-> Hor]. simpl in Hor.
  destruct Hor as [Hor|[Hor _]]; [|congruence].
  assert (k0 = k) as -> by congruence.
  set (p := chain_path t l (slug self)) in *.
  set (t1 := <[k := row (with_path p self)]> t) in *.
  assert (t1 !! k = Some (set_path p self)) as Hk1 by apply lookup_insert_eq.
  assert (chain t1 (parent (set_path p self)) l) as Hl1.
  { apply (chain_ext t); [|done]. intros q Hq.
    unfold t1. rewrite lookup_insert_ne; [done|]. by intros ->. }
  pose proof (cascade_errors f p t1 k _ l IH Hk1 Hl1
                (children_all t1 k) t1 e) as Hloop.
  destruct (for_each _ _ t1) as [t2 r]. simpl in *. apply Hloop; [|done..].
  apply Forall_forall. intros c (ck & r' & Hr & Hp & ->)%elem_of_children_all.
  exists ck. auto.
Qed.
End save_failures.

(** X2: the circular-parent assertion and [DoesNotExist] come only from the
    walk up the parent chain of the node being saved, before anything is
    written; the saves of the cascade never raise them.  So whenever [save]
    ends with one of the two, the table and the instance are as they were
    before the call. *)
Theorem save_walk_failures_write_nothing (t : table) (self : DAGCategory)
    (e : Error) :
  (save t self).2 = Raise e → e = AssertionError ∨ e = DoesNotExist →
  (save t self).1.1 = t ∧ (save t self).1.2 = self.
Proof.
  unfold save. rewrite save_fuel_S.
  destruct (walk _ _ _ _ _) as [p|e0] eqn:Hw; [|done].
  apply walk_ok in Hw as (l & Hl & HV & ->).
  destruct (super_save _ _) as [[t1 k]|e0] eqn:Hss.
  2:{ simpl. intros [= <-] He. apply super_save_errors in Hss. naive_solver. }
  apply super_save_Ok in Hss as [-> Hor]. simpl in Hor.
  assert (k ∉ l) as Hkl.
  { destruct Hor as [Hor|[_ Hor]].
    - intros Hin. apply (HV _ Hin). rewrite Hor. set_solver.
    - intros Hin. destruct (chain_lookup _ _ _ _ Hl Hin) as [? ?]. congruence. }
  set (p := chain_path t l (slug self)) in *.
  set (t1 := <[k := row (with_path p self)]> t) in *.
  assert (t1 !! k = Some (set_path p self)) as Hk1 by apply lookup_insert_eq.
  assert (chain t1 (parent (set_path p self)) l) as Hl1.
  { apply (chain_ext t); [|done]. intros q Hq.
    unfold t1. rewrite lookup_insert_ne; [done|]. by intros ->. }
  pose proof (cascade_errors (S (size t)) p t1 k _ l (cascade_errors_all _)
                Hk1 Hl1 (children_all t1 k) t1 e) as Hloop.
  destruct (for_each _ _ t1) as [t2 r]. simpl in *. intros Hr He.
  destruct Hloop as [-> | ->]; [|done..|naive_solver|naive_solver].
  apply Forall_forall. intros c (ck & r' & Hr' & Hp & ->)%elem_of_children_all.
  exists ck. auto.
Qed.

Lemma save_walk_failures_write_nothing_witness :
  (save tree3 (mkCat (Some 1%positive) (mkRow "A" "a" (Some 3%positive) "a" 0))).1.1
  = tree3
  ∧ (save tree3 (mkCat (Some 1%positive) (mkRow "A" "a" (Some 3%positive) "a" 0))).1.2
    = mkCat (Some 1%positive) (mkRow "A" "a" (Some 3%positive) "a" 0).
Proof.
  apply (save_walk_failures_write_nothing tree3
           (mkCat (Some 1%positive) (mkRow "A" "a" (Some 3%positive) "a" 0))
           AssertionError).
  - by vm_compute.
  - by left.
Defined.

Lemma chain_splice (t t1 : table) p l1 k l2 l :
  chain t p (l1 ++ k :: l2) →
  (∀ q, q ∈ l1 → parent <$> t1 !! q = parent <$> t !! q) →
  chain t1 (Some k) (k :: l) →
  chain t1 p (l1 ++ k :: l).
Proof.
  revert p. induction l1 as [|a l1 IH]; intros p H Hsame Hk.
  - rewrite app_nil_l in *. apply chain_cons in H as [-> _]. done.
  - rewrite <- app_comm_cons in *. apply chain_cons in H as (-> & r & Hr & H).
    apply chain_cons. split; [done|].
    pose proof (Hsame a ltac:(left)) as Ha. rewrite Hr in Ha.
    destruct (t1 !! a) as [r1|]; [|done]. injection Ha as Ha.
    exists r1. split; [done|]. rewrite Ha. apply IH; [done| |done].
    intros q Hq. apply Hsame. by right.
Qed.

(** X3: a save that returns normally adds at most the row of the saved node
    to the table, changes no column other than [path] in any other row, and
    leaves every row outside the subtree of the saved node exactly as it
    was. *)
Theorem save_writes_only_paths_below (t : table) (self : DAGCategory) (t' : table)
    (self' : DAGCategory) :
  save t self = (t', self', Ok ()) →
  ∃ k, pk self' = Some k
    ∧ dom t' = {[k]} ∪ dom t
    ∧ (∀ x, x ≠ k → set_path "" <$> t' !! x = set_path "" <$> t !! x)
    ∧ (∀ x, ¬ in_subtree t' k x → t' !! x = t !! x).
Proof.
  intros (k & l & Hpk & _ & _ & _ & _ & _ & Hs & Hunch & _)%save_fuel_ok.
  exists k. split_and!; [done| | |done].
  - apply (f_equal dom) in Hs. unfold shape in Hs.
    by rewrite !dom_fmap_L, dom_insert_L in Hs.
  - intros x Hx. rewrite (shape_lookup _ _ x Hs).
    by rewrite lookup_insert_ne.
Qed.

Lemma save_writes_only_paths_below_witness :
  let self := mkCat (Some 2%positive) (mkRow "B" "y" (Some 1%positive) "a::b" 0) in
  ∃ k, pk (save tree3 self).1.2 = Some k
    ∧ dom (save tree3 self).1.1 = {[k]} ∪ dom tree3
    ∧ (∀ x, x ≠ k → set_path "" <$> (save tree3 self).1.1 !! x
                    = set_path "" <$> tree3 !! x)
    ∧ (∀ x, ¬ in_subtree (save tree3 self).1.1 k x →
            (save tree3 self).1.1 !! x = tree3 !! x).
Proof.
  intros self. apply (save_writes_only_paths_below tree3 self). by vm_compute.
Defined.

Lemma save_post_consistent (t : table) (self : DAGCategory) (t' : table)
    (self' : DAGCategory) :
  consistent t → save_post t self t' self' → consistent t'.
Proof.
  intros Hcons Hsave.
  destruct (save_post_chain _ _ _ _ Hsave) as (k & l & Hpk & Hl & Hck).
  destruct Hsave as (k' & _ & Hpk' & _ & _ & _ & _ & Hk & Hs & Hunch & Hgood).
  assert (k' = k) as -> by congruence.
  intros x r' Hr'. destruct (decide (x = k)) as [->|Hxk].
  { apply Hgood. by eapply in_subtree_self. }
  assert (Hsame : ∀ q, q ≠ k →
            set_path "" <$> t' !! q = set_path "" <$> t !! q).
  { intros q Hq. rewrite (shape_lookup _ _ q Hs). by rewrite lookup_insert_ne. }
  assert (Hpar : ∀ q, q ≠ k → parent <$> t' !! q = parent <$> t !! q).
  { intros q Hq%Hsame.
    destruct (t' !! q) as [[]|], (t !! q) as [[]|]; simpl in *; by simplify_eq. }
  assert (Hslug : ∀ q, q ≠ k → slug <$> t' !! q = slug <$> t !! q).
  { intros q Hq%Hsame.
    destruct (t' !! q) as [[]|], (t !! q) as [[]|]; simpl in *; by simplify_eq. }
  destruct (t !! x) as [r|] eqn:Hr.
  2:{ specialize (Hsame x Hxk). rewrite Hr', Hr in Hsame. done. }
  destruct (Hcons x r Hr) as (r0 & lx & Hr0 & Hlx & Hp).
  assert (r0 = r) as -> by congruence.
  assert (chain t (Some x) (x :: lx)) as Hcx by (apply chain_cons; eauto).
  pose proof (chain_NoDup _ _ _ Hcx) as Hnd.
  destruct (decide (k ∈ x :: lx)) as [Hin|Hin].
  - apply Hgood. apply list_elem_of_split in Hin as (l1 & l2 & E).
    rewrite E in Hcx, Hnd. exists (l1 ++ k :: l). split; [|set_solver].
    apply (chain_splice t _ _ _ _ l2); [done| |done].
    intros q Hq. apply Hpar. intros ->.
    apply NoDup_app in Hnd as (_ & Hnd & _). apply (Hnd k Hq). left.
  - assert (chain t' (Some x) (x :: lx)) as Hcx'.
    { apply (chain_ext t); [|done]. intros q Hq. symmetry. apply Hpar.
      intros ->. done. }
    assert (t' !! x = t !! x) as Hx.
    { apply Hunch. by rewrite (in_subtree_chain _ _ _ _ Hcx'). }
    exists r, lx. split_and!.
    + by rewrite Hx.
    + apply chain_cons in Hcx' as (_ & r1 & Hr1 & Hc1).
      rewrite Hx, Hr in Hr1. by simplify_eq.
    + rewrite Hp. unfold chain_path. f_equal. f_equal. f_equal.
      apply slugs_of_ext. intros q Hq. symmetry. apply Hslug. intros ->.
      apply Hin. by right.
Qed.

(** X4: if every row of the table holds the path its parent chain
    prescribes, this is still so after a save that returns normally. *)
Theorem save_preserves_consistency (t : table) (self : DAGCategory) (t' : table)
    (self' : DAGCategory) :
  consistent t → save t self = (t', self', Ok ()) → consistent t'.
Proof.
  intros Hcons Hsave%save_fuel_ok. by eapply save_post_consistent.
Qed.

Lemma tree3_consistent : consistent tree3.
Proof.
  intros x r Hr.
  assert (x ∈ dom tree3) as Hx by (apply elem_of_dom; eauto).
  assert (dom tree3 = {[1%positive; 2%positive; 3%positive]}) as E
    by (apply (bool_decide_unpack _); by vm_compute).
  rewrite E in Hx. clear E Hr.
  assert (x = 1%positive ∨ x = 2%positive ∨ x = 3%positive)
    as [-> | [-> | ->]] by set_solver.
  - eexists _, []. split_and!; [reflexivity|by vm_compute|reflexivity].
  - eexists _, [1%positive]. split_and!; [reflexivity|by vm_compute|reflexivity].
  - eexists _, [2%positive; 1%positive].
    split_and!; [reflexivity|by vm_compute|reflexivity].
Qed.

Lemma save_preserves_consistency_witness :
  consistent
    (save tree3 (mkCat (Some 1%positive) (mkRow "A" "x" None "a" 0))).1.1.
Proof.
  apply (save_preserves_consistency tree3
           (mkCat (Some 1%positive) (mkRow "A" "x" None "a" 0)) _
           (save tree3 (mkCat (Some 1%positive) (mkRow "A" "x" None "a" 0))).1.2).
  - apply tree3_consistent.
  - by vm_compute.
Defined.

Lemma path_taken_true (t : table) (k : option positive) (p : string)
    (k' : positive) (r' : Row) :
  t !! k' = Some r' → Some k' ≠ k → path r' = p → path_taken t k p = true.
Proof.
  intros Hr Hne Hp. unfold path_taken. apply bool_decide_eq_true.
  apply Exists_exists. exists (mkCat (Some k') r'). split; [|done].
  apply elem_of_objects. eauto.
Qed.



Lemma links_lookup (t : table) p l q :
  links t p l → q ∈ l → is_Some (t !! q).
Proof.
  revert p. induction l as [|a l IH]; intros p H Hq; [by apply elem_of_nil in Hq|].
  destruct p as [a'|]; [|done]. simpl in H. destruct H as [<- H].
  destruct (t !! a) as [r|] eqn:Hr; [|done].
  apply elem_of_cons in Hq as [->|Hq]; [by rewrite Hr|]. eauto.
Qed.

Lemma walk_dangling fuel (t : table) p V acc l q :
  links t p l → NoDup l → (∀ x, x ∈ l → Some x ∉ V) →
  after_links t p l = Some q → t !! q = None → length l < fuel →
  walk fuel t p V acc = Raise DoesNotExist.
Proof.
  revert fuel p V acc. induction l as [|a l IH]; intros fuel p V acc H Hnd HV Ha Hq Hf.
  - simpl in Ha. subst p. destruct fuel; [simpl in Hf; lia|]. simpl. by rewrite Hq.
  - destruct p as [a'|]; [|done]. simpl in H. destruct H as [<- H].
    simpl in Ha. destruct (t !! a) as [r|] eqn:Hr; [|done].
    destruct fuel as [|fuel]; [simpl in Hf; lia|]. simpl. rewrite Hr.
    rewrite decide_False by (apply HV; left). inv Hnd.
    apply (IH fuel); [done|done| |done|done|simpl in Hf; lia].
    intros x Hx. specialize (HV x ltac:(by right)). set_solver.
Qed.

(** X6: when the parent chain of the node leads, without revisiting a key,
    to a foreign key that has no row, the save raises [DoesNotExist];
    nothing is written and the instance is unchanged. *)
Theorem save_missing_parent (t : table) (self : DAGCategory) (l : list positive)
    (q : positive) :
  links t (parent self) l → NoDup l → (∀ k, pk self = Some k → k ∉ l) →
  after_links t (parent self) l = Some q → t !! q = None →
  save t self = (t, self, Raise DoesNotExist).
Proof.
  intros Hl Hnd Hk Ha Hq. unfold save. apply save_fuel_walk_raise.
  apply (walk_dangling _ _ _ _ _ l q); try done.
  - intros x Hx [=]%elem_of_singleton. naive_solver.
  - assert (list_to_set l ⊆ dom t) as Hsub.
    { intros x Hx%elem_of_list_to_set. apply elem_of_dom. by eapply links_lookup. }
    apply (subseteq_size (C := gset positive)) in Hsub.
    rewrite size_list_to_set, size_dom in Hsub by done. lia.
Qed.

Lemma save_missing_parent_witness :
  let self := mkCat None (mkRow "D" "d" (Some 5%positive) "" 0) in
  save dangling_table self = (dangling_table, self, Raise DoesNotExist).
Proof.
  intros self. apply (save_missing_parent dangling_table self [5%positive] 9%positive).
  - by vm_compute.
  - repeat constructor. set_solver.
  - intros k [=].
  - reflexivity.
  - reflexivity.
Defined.

Lemma children_all_nil (t : table) (k : positive) :
  (∀ x r, t !! x = Some r → parent r ≠ Some k) → children_all t k = [].
Proof.
  intros H. destruct (children_all t k) as [|c cs] eqn:E; [done|].
  assert (c ∈ children_all t k) as (ck & r & Hr & Hp & _)%elem_of_children_all
    by (rewrite E; left).
  by destruct (H ck r Hr).
Qed.

(** X7: when saving a new node (no primary key yet) into a table whose
    foreign keys all point to rows returns normally, exactly one row has
    been inserted, under a key not used before: the instance with the path
    joined from its parent chain.  No existing row is changed, and the
    instance carries the new key and the path. *)
Theorem save_new_node (t : table) (self : DAGCategory) (t' : table)
    (self' : DAGCategory) :
  pk self = None → fk_valid t → save t self = (t', self', Ok ()) →
  ∃ k l, chain t (parent self) l
    ∧ t !! k = None
    ∧ self' = mkCat (Some k) (set_path (chain_path t l (slug self)) self)
    ∧ t' = <[k := row self']> t.
Proof.
  intros Hpk Hfk. unfold save. rewrite save_fuel_S.
  destruct (walk _ _ _ _ _) as [p|e0] eqn:Hw; [|done].
  apply walk_ok in Hw as (l & Hl & _ & ->).
  unfold super_save. cbn [pk path row with_path set_path]. rewrite Hpk.
  destruct (path_taken t None _); [done|].
  set (k := fresh (dom t)).
  assert (t !! k = None) as Hk by apply not_elem_of_dom, is_fresh.
  rewrite children_all_nil.
  - cbn [for_each]. intros [= <- <-]. by exists k, l.
  - intros x rx Hx Hp. destruct (decide (x = k)) as [->|Hne].
    + rewrite lookup_insert_eq in Hx. injection Hx as <-. simpl in Hp.
      rewrite Hp in Hl.
      apply chain_Some in Hl as (r' & ? & _ & Hr' & _). by rewrite Hk in Hr'.
    + rewrite lookup_insert_ne in Hx by done.
      destruct (Hfk x rx Hx k Hp) as [? ?]. congruence.
Qed.

Lemma save_new_node_witness :
  ∃ k l, chain tree3 (Some 3%positive) l
    ∧ tree3 !! k = None
    ∧ mkCat (Some 4%positive) (mkRow "D" "d" (Some 3%positive) "a::b::c::d" 0)
      = mkCat (Some k)
          (set_path (chain_path tree3 l "d")
             (mkRow "D" "d" (Some 3%positive) "" 0))
    ∧ <[4%positive := mkRow "D" "d" (Some 3%positive) "a::b::c::d" 0]> tree3
      = <[k := mkRow "D" "d" (Some 3%positive) "a::b::c::d" 0]> tree3.
Proof.
  apply (save_new_node tree3
           (mkCat None (mkRow "D" "d" (Some 3%positive) "" 0))
           (<[4%positive := mkRow "D" "d" (Some 3%positive) "a::b::c::d" 0]> tree3)
           (mkCat (Some 4%positive)
              (mkRow "D" "d" (Some 3%positive) "a::b::c::d" 0))).
  - reflexivity.
  - unfold fk_valid. rewrite map_Forall_to_list.
    assert (map_to_list tree3 =
            [(3%positive, mkRow "C" "c" (Some 2%positive) "a::b::c" 0);
             (2%positive, mkRow "B" "b" (Some 1%positive) "a::b" 0);
             (1%positive, mkRow "A" "a" None "a" 0)]) as -> by by vm_compute.
    repeat constructor; simpl; intros q [= <-]; by eexists.
  - by vm_compute.
Defined.

(** ** [select_from_url]: any limit *)

Lemma get_errors (db : Database) (qs : QuerySet) e :
  get db qs = Raise e → e = DoesNotExist ∨ e = MultipleObjectsReturned.
Proof.
  unfold get. destruct (evaluate db qs) as [|c [|c2 l]]; intros [= <-]; auto.
Qed.

Lemma select_loop_shape (SITE_ID : nat) (db : Database) (items : list string) :
  ∀ fuel extras limit lookups,
    length items < fuel →
    match (select_loop SITE_ID fuel db items extras limit lookups).2 with
    | Ok (Some c, ex) =>
        ∃ pre rest, items = pre ++ rest ∧ ex = rest ++ extras ∧ pre ≠ []
                    ∧ is_live SITE_ID db c ∧ path c = PyStr.join DELIMETER pre
    | Ok (None, ex) => ∃ pre rest, items = pre ++ rest ∧ ex = rest ++ extras
    | Raise e => e = MultipleObjectsReturned ∧ ¬ unique_paths (categories db)
    end.
Proof.
  induction items as [|x items IH] using rev_ind;
    intros fuel extras limit lookups Hfuel.
  - destruct fuel; [simpl in Hfuel; lia|]. by exists [], [].
  - destruct fuel as [|fuel]; [simpl in Hfuel; lia|].
    rewrite length_app in Hfuel. simpl in Hfuel.
    cbn [select_loop]. rewrite pop_snoc.
    destruct (decide (limit = 0%Z)).
    { exists (items ++ [x]), []. by rewrite app_nil_r. }
    destruct (get db _) as [c|e] eqn:Hget.
    + apply get_Ok, elem_of_evaluate in Hget as [Hc Hq]. simpl in Hq.
      apply andb_true_iff in Hq as [Hq Hp]. apply bool_decide_eq_true in Hp.
      exists (items ++ [x]), []. rewrite app_nil_r.
      split_and!; [done|done|by destruct items| |done]. by split.
    + destruct (decide (e = DoesNotExist)) as [->|Hne].
      * specialize (IH fuel (x :: extras) (limit - 1)%Z
                      (lookups ++ [PyStr.join DELIMETER (items ++ [x])])
                      ltac:(lia)).
        destruct (select_loop _ _ _ _ _ _ _).2 as [[[c|] ex]|e]; [| |done].
        -- destruct IH as (pre & rest & -> & -> & H).
           exists pre, (rest ++ [x]). by rewrite <- !(assoc (++)).
        -- destruct IH as (pre & rest & -> & ->).
           exists pre, (rest ++ [x]). by rewrite <- !(assoc (++)).
      * assert (e = MultipleObjectsReturned) as ->.
        { apply get_errors in Hget. naive_solver. }
        split; [done|]. intros Hu.
        pose proof (get_path_spec db (live SITE_ID)
                      (PyStr.join DELIMETER (items ++ [x])) Hu) as Hspec.
        by rewrite Hget in Hspec.
Qed.

(** X8: whatever the limit, the extras [select_from_url] returns are a
    trailing part of the url's segments; when it returns a row, the row is
    live and its path is the non-empty leading part of the segments joined
    by the delimiter.  It raises only [MultipleObjectsReturned], and only
    if two rows share a path. *)
Theorem select_from_url_result_shape (SITE_ID : nat) (db : Database)
    (url : string) (limit : Z) :
  match (select_from_url SITE_ID db url limit).2 with
  | Ok (Some c, ex) =>
      ∃ pre, PyStr.split_slash "" url = pre ++ ex ∧ pre ≠ []
             ∧ is_live SITE_ID db c ∧ path c = PyStr.join DELIMETER pre
  | Ok (None, ex) => ∃ pre, PyStr.split_slash "" url = pre ++ ex
  | Raise e => e = MultipleObjectsReturned ∧ ¬ unique_paths (categories db)
  end.
Proof.
  unfold select_from_url, select_items.
  pose proof (select_loop_shape SITE_ID db (PyStr.split_slash "" url)
                (S (length (PyStr.split_slash "" url))) []
                (if decide (limit ≠ (-1)%Z) then (limit + 1)%Z else limit) []
                ltac:(lia)) as H.
  destruct (select_loop _ _ _ _ _ _ _).2 as [[[c|] ex]|e]; [| |done].
  - destruct H as (pre & rest & E & -> & H). exists pre.
    by rewrite app_nil_r.
  - destruct H as (pre & rest & E & ->). exists pre. by rewrite app_nil_r.
Qed.

Lemma select_loop_bound (SITE_ID : nat) (db : Database) (items : list string) :
  ∀ fuel extras b lookups,
    (0 ≤ b)%Z → length items < fuel →
    length (select_loop SITE_ID fuel db items extras b lookups).1
      ≤ length lookups + Z.to_nat b
    ∧ match (select_loop SITE_ID fuel db items extras b lookups).2 with
      | Ok (Some _, ex) => length ex < length extras + Z.to_nat b
      | Ok (None, ex) => length ex ≤ length extras + Z.to_nat b
      | Raise _ => True
      end.
Proof.
  induction items as [|x items IH] using rev_ind;
    intros fuel extras b lookups Hb Hfuel.
  - destruct fuel; [simpl in Hfuel; lia|]. simpl. lia.
  - destruct fuel as [|fuel]; [simpl in Hfuel; lia|].
    rewrite length_app in Hfuel. simpl in Hfuel.
    cbn [select_loop]. rewrite pop_snoc.
    destruct (decide (b = 0%Z)); [simpl; lia|].
    destruct (get db _) as [c|e] eqn:Hget.
    + simpl. rewrite length_app. simpl. lia.
    + destruct (decide (e = DoesNotExist)) as [->|Hne].
      * specialize (IH fuel (x :: extras) (b - 1)%Z
                      (lookups ++ [PyStr.join DELIMETER (items ++ [x])])
                      ltac:(lia) ltac:(lia)).
        rewrite length_app in IH. simpl in IH. destruct IH as [IH1 IH2].
        split; [lia|].
        destruct (select_loop _ _ _ _ _ _ _).2 as [[[c|] ex]|e]; [lia|lia|done].
      * destruct e; try done; simpl; rewrite length_app; simpl; lia.
Qed.

(** X9: with a limit [k >= 0], [select_from_url] makes at most [k + 1]
    lookups; a row it returns comes with at most [k] extras, and when it
    returns no row the extras are at most [k + 1] segments. *)
Theorem select_from_url_limit_bound (SITE_ID : nat) (db : Database)
    (url : string) (limit : Z) :
  (0 ≤ limit)%Z →
  length (select_from_url SITE_ID db url limit).1 ≤ Z.to_nat limit + 1
  ∧ match (select_from_url SITE_ID db url limit).2 with
    | Ok (Some _, ex) => length ex ≤ Z.to_nat limit
    | Ok (None, ex) => length ex ≤ Z.to_nat limit + 1
    | Raise _ => True
    end.
Proof.
  intros Hlimit. unfold select_from_url, select_items.
  rewrite decide_True by lia.
  pose proof (select_loop_bound SITE_ID db (PyStr.split_slash "" url)
                (S (length (PyStr.split_slash "" url))) [] (limit + 1)%Z []
                ltac:(lia) ltac:(lia)) as [H1 H2].
  cbn [length] in H1, H2. split; [lia|].
  destruct (select_loop _ _ _ _ _ _ _).2 as [[[c|] ex]|e]; [lia|lia|done].
Qed.

Lemma select_from_url_limit_bound_witness :
  length (select_from_url 7 shoes_db "shoes/red/size-10/x/y" 1).1 ≤ 2
  ∧ (select_from_url 7 shoes_db "shoes/red/size-10/x/y" 1).2
    = Ok (None, ["x"; "y"]).
Proof.
  split; [|by vm_compute].
  apply (select_from_url_limit_bound 7 shoes_db "shoes/red/size-10/x/y" 1). lia.
Defined.

Lemma get_path_Ok (SITE_ID : nat) (db : Database) (c : DAGCategory) :
  unique_paths (categories db) → is_live SITE_ID db c →
  get db (qs_filter (path_is (path c)) (live SITE_ID)) = Ok c.
Proof.
  intros Hu [Hc Hq].
  pose proof (get_path_spec db (live SITE_ID) (path c) Hu) as H.
  destruct (get db _) as [c'|e].
  - destruct H as (Hc' & _ & Hp). f_equal.
    by apply (objects_same_path (categories db)).
  - destruct e; try done. by destruct (H c Hc Hq).
Qed.

Lemma select_items_exact (SITE_ID : nat) (db : Database) (items : list string)
    (c : DAGCategory) (limit : Z) :
  unique_paths (categories db) → items ≠ [] → is_live SITE_ID db c →
  path c = PyStr.join DELIMETER items →
  select_items SITE_ID db items limit
  = ([PyStr.join DELIMETER items], Ok (Some c, [])).
Proof.
  intros Hu Hne Hc Hp. unfold select_items.
  destruct items as [|x items _] using rev_ind; [done|].
  cbn [select_loop]. rewrite pop_snoc.
  rewrite decide_False by (case_decide; lia).
  rewrite <- Hp. by rewrite (get_path_Ok _ _ _ Hu Hc).
Qed.

Lemma split_slash_nonempty (s cur : string) : PyStr.split_slash cur s ≠ [].
Proof.
  revert cur. induction s as [|c s IH]; intros cur; [done|].
  simpl. destruct (PyStr.is_slash c); [done|]. apply IH.
Qed.

(** X10: when the url's segments joined by the delimiter are the path of a
    live row (paths being unique), [select_from_url] returns that row with
    no extras after a single lookup, whatever the limit. *)
Theorem select_from_url_exact (SITE_ID : nat) (db : Database) (url : string)
    (c : DAGCategory) (limit : Z) :
  unique_paths (categories db) → is_live SITE_ID db c →
  path c = PyStr.join DELIMETER (PyStr.split_slash "" url) →
  select_from_url SITE_ID db url limit = ([path c], Ok (Some c, [])).
Proof.
  intros Hu Hc Hp. unfold select_from_url. rewrite Hp.
  apply select_items_exact; try done.
  apply split_slash_nonempty.
Qed.

Lemma select_from_url_exact_witness :
  let red := mkCat (Some 2%positive)
               (mkRow "Red" "red" (Some 1%positive) "shoes::red" 0) in
  select_from_url 7 shoes_db "shoes/red" 0 = (["shoes::red"], Ok (Some red, [])).
Proof.
  intros red. apply (select_from_url_exact 7 shoes_db "shoes/red" red 0).
  - apply (bool_decide_unpack _). by vm_compute.
  - split; [|by vm_compute]. apply (bool_decide_unpack _). by vm_compute.
  - reflexivity.
Defined.

(** ** [urllize] and back *)

Section urllize_facts.
Import PyStr PyStrFacts.

Lemma replace_colons_cons2 (c c' : ascii) (rest : string) :
  replace_colons (String c (String c' rest)) =
    if is_colon c && is_colon c' then String "/" (replace_colons rest)
    else String c (replace_colons (String c' rest)).
Proof. done. Qed.

(** [replace] is [split] followed by [join] on the new separator. *)
Lemma replace_colons_join (s cur : string) :
  cur +:+ replace_colons s = join "/" (split_colons cur s).
Proof.
  remember (String.length s) as n eqn:Hn. revert s cur Hn.
  induction n as [n IH] using lt_wf_ind; intros s cur ->.
  assert (IH' : ∀ s' cur', String.length s' < String.length s →
            cur' +:+ replace_colons s' = join "/" (split_colons cur' s')) by eauto.
  clear IH; rename IH' into IH.
  destruct s as [|c [|c' rest]]; [by rewrite sapp_nil_r|done|].
  rewrite replace_colons_cons2, split_colons_cons2.
  destruct (is_colon c && is_colon c').
  - assert (IHr : "" +:+ replace_colons rest = join "/" (split_colons "" rest))
      by (apply IH; cbn; lia).
    destruct (split_colons "" rest) as [|x l] eqn:E.
    { by destruct (split_nonempty rest ""). }
    rewrite join_cons2, <- IHr. done.
  - rewrite <- IH by (cbn; lia). by rewrite sapp_snoc.
Qed.

Lemma no_slash_app (s u : string) :
  no_slash (s +:+ u) = no_slash s && no_slash u.
Proof.
  induction s as [|c s IH]; [done|]. rewrite sapp_cons. simpl.
  rewrite IH. by rewrite andb_assoc.
Qed.

Lemma split_colons_no_slash (s cur : string) :
  no_slash cur = true → no_slash s = true →
  Forall (λ x, no_slash x = true) (split_colons cur s).
Proof.
  remember (String.length s) as n eqn:Hn. revert s cur Hn.
  induction n as [n IH] using lt_wf_ind; intros s cur -> Hcur Hs.
  assert (IH' : ∀ s' cur', String.length s' < String.length s →
            no_slash cur' = true → no_slash s' = true →
            Forall (λ x, no_slash x = true) (split_colons cur' s')) by eauto.
  clear IH; rename IH' into IH.
  destruct s as [|c [|c' rest]].
  - by repeat constructor.
  - repeat constructor. by rewrite no_slash_app, Hcur, Hs.
  - rewrite split_colons_cons2.
    cbn [no_slash] in Hs. apply andb_true_iff in Hs as [Hc Hs].
    destruct (is_colon c && is_colon c').
    + constructor; [done|]. apply IH; [cbn; lia|done|].
      cbn [no_slash] in Hs. by apply andb_true_iff in Hs as [_ Hs].
    + apply IH; [cbn; lia| |done].
      rewrite no_slash_app, Hcur. simpl. by rewrite Hc.
Qed.

Lemma split_slash_no_slash (s cur : string) :
  no_slash s = true → split_slash cur s = [cur +:+ s].
Proof.
  revert cur. induction s as [|c s IH]; intros cur H.
  - by rewrite sapp_nil_r.
  - cbn [no_slash] in H. apply andb_true_iff in H as [Hc Hs].
    apply negb_true_iff in Hc. cbn [split_slash]. rewrite Hc.
    rewrite (IH _ Hs). by rewrite sapp_snoc.
Qed.

Lemma split_slash_piece (s cur rest : string) :
  no_slash s = true →
  split_slash cur (s +:+ "/" +:+ rest) = (cur +:+ s) :: split_slash "" rest.
Proof.
  revert cur. induction s as [|c s IH]; intros cur H.
  - cbn. by rewrite sapp_nil_r.
  - cbn [no_slash] in H. apply andb_true_iff in H as [Hc Hs].
    apply negb_true_iff in Hc. rewrite sapp_cons. cbn [split_slash]. rewrite Hc.
    rewrite (IH _ Hs). by rewrite sapp_snoc.
Qed.

Lemma split_slash_join (pieces : list string) :
  pieces ≠ [] → Forall (λ x, no_slash x = true) pieces →
  split_slash "" (join "/" pieces) = pieces.
Proof.
  intros Hne H. induction H as [|a pieces Ha _ IH]; [done|].
  destruct pieces as [|b pieces].
  - by rewrite split_slash_no_slash.
  - rewrite join_cons2, split_slash_piece by done. by rewrite IH.
Qed.

(** The segments of a node's url are the pieces of its path. *)
Lemma split_slash_urllize (self : DAGCategory) :
  no_slash (path self) = true →
  split_slash "" (urllize self) = split_colons "" (path self).
Proof.
  intros H. unfold urllize.
  change (replace_colons (path self)) with ("" +:+ replace_colons (path self)).
  rewrite replace_colons_join. apply split_slash_join.
  - apply split_nonempty.
  - by apply split_colons_no_slash.
Qed.
End urllize_facts.

(** X11: the url of a live stored node whose path contains no slash leads
    back to the node: [select_from_url] on [urllize] of the node returns the
    node itself with no extras after one lookup, whatever the limit (paths
    being unique). *)
Theorem select_from_url_urllize (SITE_ID : nat) (db : Database)
    (self : DAGCategory) (limit : Z) :
  unique_paths (categories db) → is_live SITE_ID db self →
  no_slash (path self) = true →
  select_from_url SITE_ID db (urllize self) limit
  = ([path self], Ok (Some self, [])).
Proof.
  intros Hu Hlive Hslash. unfold select_from_url.
  rewrite (split_slash_urllize _ Hslash).
  rewrite <- (PyStrFacts.join_split (path self) "") at 2.
  apply select_items_exact; [done| |done|].
  - apply PyStrFacts.split_nonempty.
  - by rewrite PyStrFacts.join_split.
Qed.

Lemma select_from_url_urllize_witness :
  let red := mkCat (Some 2%positive)
               (mkRow "Red" "red" (Some 1%positive) "shoes::red" 0) in
  urllize red = "shoes/red"
  ∧ select_from_url 7 shoes_db (urllize red) (-1)
    = (["shoes::red"], Ok (Some red, [])).
Proof.
  intros red. split; [reflexivity|].
  apply (select_from_url_urllize 7 shoes_db red (-1)).
  - apply (bool_decide_unpack _). by vm_compute.
  - split; [|by vm_compute]. apply (bool_decide_unpack _). by vm_compute.
  - reflexivity.
Defined.

(** ** [build_tree_structure]: what the pass builds *)

Section pass_facts.
Implicit Types (nodes : list DAGCategory) (st : Forest) (prev : list nat).

Lemma filter_ext_in {A} (P Q : A → Prop) `{∀ x, Decision (P x)}
    `{∀ x, Decision (Q x)} (l : list A) :
  (∀ x, x ∈ l → P x ↔ Q x) → filter P l = filter Q l.
Proof.
  induction l as [|a l IH]; intros Hl; [done|].
  rewrite !filter_cons. rewrite IH by (intros x Hx; apply Hl; by right).
  pose proof (Hl a ltac:(left)) as Ha.
  destruct (decide (P a)), (decide (Q a)); tauto.
Qed.

Lemma filter_nil_in {A} (P : A → Prop) `{∀ x, Decision (P x)} (l : list A) :
  (∀ x, x ∈ l → ¬ P x) → filter P l = [].
Proof.
  induction l as [|a l IH]; intros Hl; [done|].
  rewrite filter_cons_False by (apply Hl; left).
  apply IH. intros x Hx. apply Hl. by right.
Qed.

Lemma chain_ok_tail nodes x up : chain_ok nodes (x :: up) → chain_ok nodes up.
Proof. destruct up; simpl; tauto. Qed.

Lemma wind_back_spec nodes d hi prev :
  chain_ok nodes prev →
  (∀ x, head prev = Some x →
        x < hi ∧ ∀ k, x < k < hi → d < depth_at nodes k) →
  match wind_back nodes d prev with
  | [] => prev = []
  | p :: up =>
      chain_ok nodes (p :: up) ∧ depth_at nodes p ≤ d ∧ p < hi
      ∧ ∀ k, p < k < hi → d < depth_at nodes k
  end.
Proof.
  induction prev as [|x up IH]; intros Hc Hhd; [done|].
  destruct (Hhd x eq_refl) as [Hx Hk]. cbn [wind_back].
  destruct (decide (d < depth_at nodes x)) as [Hlt|Hge].
  - destruct up as [|y up].
    { simpl in Hc. lia. }
    destruct Hc as [(Hyx & Hdy & Hbetween) Hc].
    assert (Hhd' : ∀ x0, head (y :: up) = Some x0 →
              x0 < hi ∧ ∀ k, x0 < k < hi → d < depth_at nodes k).
    { intros ? [= <-]. split; [lia|]. intros k Hk'.
      destruct (decide (k < x)) as [?|?]; [specialize (Hbetween k); lia|].
      destruct (decide (k = x)) as [->|?]; [done|]. apply Hk. lia. }
    specialize (IH Hc Hhd').
    destruct (wind_back nodes d (y :: up)); [done|done].
  - split_and!; [done|lia|done|done].
Qed.

Lemma build_step_pass_inv nodes st i node st' :
  nodes !! i = Some node →
  build_step nodes st i node = Ok st' →
  pass_inv nodes i st → pass_inv nodes (S i) st'.
Proof.
  intros Hnode Hstep (Hret & Hroot & Hpar & Hnone & Hcl & Hclnone & Hprev).
  assert (depth_at nodes i = depth node) as Hd.
  { unfold depth_at. by rewrite Hnode. }
  assert (Hseq : seq 0 (S i) = seq 0 i ++ [i]) by by rewrite seq_S.
  assert (Hnoti : ∀ j, j ∈ seq 0 i → node_parent st !! j ≠ Some i).
  { intros j Hj%elem_of_seq Hji.
    destruct (decide (depth_at nodes j = 0)) as [Hz|Hnz].
    - rewrite Hroot in Hji by (done || lia). done.
    - destruct (Hpar j ltac:(lia) Hnz) as (q & Hq & Hlt & _).
      rewrite Hq in Hji. injection Hji as ->. lia. }
  unfold build_step in Hstep.
  destruct (decide (depth node = 0)) as [Hz|Hnz].
  { injection Hstep as <-. unfold pass_inv. cbn [ret node_parent children_list previous].
    split_and!.
    - rewrite Hseq, filter_app, (filter_cons_True _ i), filter_nil by lia.
      by rewrite Hret.
    - intros j Hj Hdj. destruct (decide (j = i)) as [->|?]; [by apply Hnone|].
      apply Hroot; [lia|done].
    - intros j Hj Hdj. destruct (decide (j = i)) as [->|?]; [lia|].
      apply Hpar; [lia|done].
    - intros j Hj. apply Hnone. lia.
    - intros q Hq. rewrite Hseq, filter_app.
      rewrite (filter_cons_False _ i) by (rewrite Hnone by lia; done).
      rewrite filter_nil, app_nil_r.
      destruct (decide (q = i)) as [->|Hqi].
      + rewrite lookup_insert_eq. f_equal. symmetry. by apply filter_nil_in.
      + rewrite lookup_insert_ne by done. apply Hcl. lia.
    - intros q Hq. rewrite lookup_insert_ne by lia. apply Hclnone. lia.
    - exists []. split; [done|]. simpl. lia. }
  assert (∃ i' up0, i = S i' ∧ previous st = i' :: up0
                    ∧ chain_ok nodes (i' :: up0)) as (i' & up0 & Ei & Hprev' & Hchain).
  { destruct i as [|i']; [by rewrite Hprev in Hstep|].
    destruct Hprev as (up0 & ? & ?). eauto. }
  clear Hprev. rewrite Hprev' in Hstep.
  pose proof (wind_back_spec nodes (depth node) i (i' :: up0) Hchain) as Hw.
  destruct (wind_back nodes (depth node) (i' :: up0)) as [|p up]; [done|].
  destruct Hw as (Hcp & Hdp & Hp & Hbetween).
  { intros ? [= <-]. split; [lia|]. intros k Hk. lia. }
  set (pc := if decide (depth_at nodes p = depth node) then up else p :: up) in *.
  assert (∃ q tl, pc = q :: tl ∧ latest_smaller nodes q i
                  ∧ chain_ok nodes (q :: tl)) as (q & tl & Epc & Hq & Hcq).
  { unfold pc. destruct (decide (depth_at nodes p = depth node)) as [Heq|Hneq].
    - destruct up as [|q tl].
      { simpl in Hcp. lia. }
      destruct Hcp as [(Hqp & Hdq & Hqb) Hcq].
      exists q, tl. split_and!; [done| |done].
      split_and!; [lia|lia|]. intros k Hk. rewrite Hd.
      destruct (decide (k < p)) as [?|?]; [specialize (Hqb k); lia|].
      destruct (decide (k = p)) as [->|?]; [lia|].
      specialize (Hbetween k). lia.
    - exists p, up. split_and!; [done| |done].
      split_and!; [lia|lia|]. intros k Hk. specialize (Hbetween k). lia. }
  rewrite Epc in Hstep. injection Hstep as <-.
  destruct Hq as (Hqi & Hdq & Hqb).
  unfold pass_inv. cbn [ret node_parent children_list previous].
  assert (Hsame : ∀ j, j ∈ seq 0 i →
            <[i := q]> (node_parent st) !! j = node_parent st !! j).
  { intros j Hj%elem_of_seq. rewrite lookup_insert_ne; [done|lia]. }
  split_and!.
  - rewrite Hseq, filter_app, (filter_cons_False _ i), filter_nil, app_nil_r by lia.
    done.
  - intros j Hj Hdj. destruct (decide (j = i)) as [->|?]; [lia|].
    rewrite lookup_insert_ne by done. apply Hroot; [lia|done].
  - intros j Hj Hdj. destruct (decide (j = i)) as [->|?].
    + exists q. rewrite lookup_insert_eq. done.
    + rewrite lookup_insert_ne by done. apply Hpar; [lia|done].
  - intros j Hj. rewrite lookup_insert_ne by lia. apply Hnone. lia.
  - intros q' Hq'. rewrite Hseq, filter_app.
    rewrite (filter_ext_in _ (λ j, node_parent st !! j = Some q') (seq 0 i))
      by (intros j Hj; by rewrite Hsame).
    destruct (decide (q' = q)) as [->|Hne].
    + rewrite lookup_alter_eq, lookup_insert_ne by lia.
      rewrite Hcl by lia. simpl.
      by rewrite (filter_cons_True _ i), filter_nil by apply lookup_insert_eq.
    + rewrite lookup_alter_ne by done.
      rewrite (filter_cons_False _ i), filter_nil, app_nil_r
        by (rewrite lookup_insert_eq; congruence).
      destruct (decide (q' = i)) as [->|?].
      * rewrite lookup_insert_eq. f_equal. symmetry. by apply filter_nil_in.
      * rewrite lookup_insert_ne by done. apply Hcl. lia.
  - intros q' Hq'. rewrite lookup_alter_ne, lookup_insert_ne by lia.
    apply Hclnone. lia.
  - exists (q :: tl). split; [done|]. split; [|done]. split_and!; done.
Qed.

Lemma build_loop_pass_inv nodes rest :
  ∀ done_ st f,
    nodes = done_ ++ rest →
    build_loop nodes (length done_) rest st = Ok f →
    pass_inv nodes (length done_) st → pass_inv nodes (length nodes) f.
Proof.
  induction rest as [|node rest IH]; intros done_ st f Hnodes.
  - intros [= <-]. by rewrite Hnodes, app_nil_r.
  - cbn [build_loop].
    destruct (build_step nodes st (length done_) node) as [st'|e] eqn:Hs; [|done].
    intros Hloop Hinv.
    apply (IH (done_ ++ [node]) st').
    + by rewrite <- (assoc (++)).
    + by rewrite length_app, Nat.add_1_r.
    + rewrite length_app, Nat.add_1_r.
      eapply build_step_pass_inv; [|done..].
      rewrite Hnodes. by rewrite lookup_app_r, Nat.sub_diag by lia.
Qed.

Lemma build_pass_inv nodes f :
  build_pass nodes = Ok f → pass_inv nodes (length nodes) f.
Proof.
  intros H. apply (build_loop_pass_inv nodes nodes [] (mkForest [] ∅ ∅ [])); try done.
  unfold pass_inv. simpl. split_and!; try done; intros; lia.
Qed.
End pass_facts.

Lemma roots_by_position (nodes rest : list DAGCategory) :
  ∀ done_, nodes = done_ ++ rest →
    omap (λ j, nodes !! j)
      (filter (λ j, depth_at nodes j = 0) (seq (length done_) (length rest)))
    = filter (λ c : DAGCategory, depth c = 0) rest.
Proof.
  induction rest as [|x rest IH]; intros done_ Hnodes; [done|].
  assert (nodes !! length done_ = Some x) as Hx.
  { rewrite Hnodes. by rewrite lookup_app_r, Nat.sub_diag by lia. }
  assert (depth_at nodes (length done_) = depth x) as Hd
    by (unfold depth_at; by rewrite Hx).
  specialize (IH (done_ ++ [x])). rewrite length_app, Nat.add_1_r in IH.
  cbn [length seq].
  destruct (decide (depth x = 0)) as [Hz|Hnz].
  - rewrite (filter_cons_True _ (length done_)), (filter_cons_True _ x) by lia.
    cbn [omap list_omap]. rewrite Hx. f_equal. apply IH.
    by rewrite <- (assoc (++)).
  - rewrite (filter_cons_False _ (length done_)), (filter_cons_False _ x) by lia.
    apply IH. by rewrite <- (assoc (++)).
Qed.

(** X12: [build_tree_structure] either returns a forest, and then the first
    node in path order (if any) has depth 0, or raises [AttributeError],
    and then the first node in path order has a positive depth: a node
    below the top is met while [previous] is still [None].  No later node
    makes the pass raise. *)
Theorem build_tree_structure_outcome (SITE_ID : nat) (db : Database)
    (qs : option QuerySet) :
  match build_tree_structure SITE_ID db qs with
  | Ok f =>
      ∀ node, head (ordered_nodes SITE_ID db qs) = Some node → depth node = 0
  | Raise e =>
      e = AttributeError
      ∧ ∃ node, head (ordered_nodes SITE_ID db qs) = Some node ∧ depth node ≠ 0
  end.
Proof.
  change (build_tree_structure SITE_ID db qs)
    with (build_pass (ordered_nodes SITE_ID db qs)).
  destruct (build_pass (ordered_nodes SITE_ID db qs)) as [f|e] eqn:Hb.
  - intros node Hh. destruct (ordered_nodes SITE_ID db qs) as [|x rest]; [done|].
    injection Hh as ->. destruct (decide (depth node = 0)) as [|Hnz]; [done|].
    unfold build_pass in Hb. cbn [build_loop] in Hb. unfold build_step in Hb.
    rewrite decide_False in Hb by done. done.
  - apply build_pass_raise in Hb as (-> & node & rest & -> & Hnz). eauto.
Qed.

(** X13: the list [build_tree_structure] returns consists of the nodes of
    depth 0, all of them, in path order. *)
Theorem build_tree_structure_roots (SITE_ID : nat) (db : Database)
    (qs : option QuerySet) (f : Forest) :
  build_tree_structure SITE_ID db qs = Ok f →
  ret f = filter (λ j, depth_at (ordered_nodes SITE_ID db qs) j = 0)
            (seq 0 (length (ordered_nodes SITE_ID db qs)))
  ∧ omap (λ j, ordered_nodes SITE_ID db qs !! j) (ret f)
    = filter (λ c : DAGCategory, depth c = 0) (ordered_nodes SITE_ID db qs).
Proof.
  intros Hb. apply build_pass_inv in Hb as (Hret & _).
  split; [done|]. rewrite Hret.
  by apply (roots_by_position _ _ []).
Qed.

Lemma build_tree_structure_roots_witness :
  build_tree_structure 7 shoes_db None = Ok shoes_forest
  ∧ ret shoes_forest = [0]
  ∧ omap (λ j, ordered_nodes 7 shoes_db None !! j) (ret shoes_forest)
    = [mkCat (Some 1%positive) (mkRow "Shoes" "shoes" None "shoes" 0)].
Proof.
  split; [by vm_compute|].
  apply (build_tree_structure_roots 7 shoes_db None shoes_forest).
  by vm_compute.
Defined.

(** X14: the [parent] attribute the pass assigns.  A node of depth 0 gets
    none.  Any other node gets the last node before it in path order whose
    depth is smaller than its own; every node between the two is at least
    as deep as the node. *)
Theorem build_tree_structure_parent (SITE_ID : nat) (db : Database)
    (qs : option QuerySet) (f : Forest) (j : nat) :
  build_tree_structure SITE_ID db qs = Ok f →
  j < length (ordered_nodes SITE_ID db qs) →
  if decide (depth_at (ordered_nodes SITE_ID db qs) j = 0)
  then node_parent f !! j = None
  else ∃ q, node_parent f !! j = Some q
            ∧ latest_smaller (ordered_nodes SITE_ID db qs) q j.
Proof.
  intros Hb Hj. apply build_pass_inv in Hb as (_ & Hroot & Hpar & _).
  destruct (decide _); auto.
Qed.

Lemma build_tree_structure_parent_witness :
  build_tree_structure 7 shoes_db None = Ok shoes_forest
  ∧ ∃ q, node_parent shoes_forest !! 1 = Some q
         ∧ latest_smaller (ordered_nodes 7 shoes_db None) q 1.
Proof.
  split; [by vm_compute|].
  apply (build_tree_structure_parent 7 shoes_db None shoes_forest 1).
  - by vm_compute.
  - vm_compute. lia.
Defined.

(** X15: the [children_list] of a node holds exactly the nodes whose
    assigned [parent] it is, in path order; every node of the queryset has
    a [children_list]. *)
Theorem build_tree_structure_children (SITE_ID : nat) (db : Database)
    (qs : option QuerySet) (f : Forest) (q : nat) :
  build_tree_structure SITE_ID db qs = Ok f →
  q < length (ordered_nodes SITE_ID db qs) →
  children_list f !! q
  = Some (filter (λ j, node_parent f !! j = Some q)
            (seq 0 (length (ordered_nodes SITE_ID db qs)))).
Proof.
  intros Hb Hq. apply build_pass_inv in Hb as (_ & _ & _ & _ & Hcl & _). auto.
Qed.

Lemma build_tree_structure_children_witness :
  build_tree_structure 7 shoes_db None = Ok shoes_forest
  ∧ children_list shoes_forest !! 0 = Some [1].
Proof.
  split; [by vm_compute|].
  apply (build_tree_structure_children 7 shoes_db None shoes_forest 0).
  - by vm_compute.
  - vm_compute. lia.
Defined.

(** ** Depth, [toplevel] and the roots of the forest *)

Section toplevel_facts.
Import PyStr PyStrFacts.
Implicit Types (t : table) (db : Database) (l : list positive).

Lemma closed_piece_cons2 (c c' : ascii) (s : string) :
  closed_piece (String c (String c' s)) =
    if is_colon c then negb (is_colon c') && closed_piece (String c' s)
    else closed_piece (String c' s).
Proof. done. Qed.

Lemma no_delim_cons2 (c c' : ascii) (s : string) :
  no_delim (String c (String c' s)) =
    negb (is_colon c && is_colon c') && no_delim (String c' s).
Proof. done. Qed.

Lemma closed_no_delim (s : string) : closed_piece s = true → no_delim s = true.
Proof.
  induction s as [|c s IH]; [done|]. destruct s as [|c' s]; [done|].
  rewrite closed_piece_cons2, no_delim_cons2.
  destruct (is_colon c).
  - intros [H1 H2]%andb_true_iff. cbn [andb]. rewrite H1. by apply IH.
  - apply IH.
Qed.

Lemma slugs_of_closed t l :
  closed_slugs t → Forall (λ s, closed_piece s = true) (slugs_of t l).
Proof.
  intros Hc. apply Forall_forall. intros s Hs. unfold slugs_of in Hs.
  apply list_elem_of_omap in Hs as (q & _ & Hs).
  destruct (t !! q) as [r|] eqn:E; [|done]. injection Hs as <-.
  by apply (Hc q).
Qed.

(** In a consistent table with closed slugs the depth of a row is the
    number of its ancestors. *)
Lemma consistent_depth t x r :
  consistent t → closed_slugs t → t !! x = Some r →
  ∃ l, chain t (parent r) l ∧ depth r = length l.
Proof.
  intros Hc Hs Hr. destruct (Hc x r Hr) as (r' & l & Hr' & Hl & Hp).
  assert (r' = r) as -> by congruence.
  exists l. split; [done|].
  apply (good_depth t x); [done..|by apply slugs_of_closed|].
  apply closed_no_delim. by apply (Hs x).
Qed.

Lemma consistent_depth_zero t x r :
  consistent t → closed_slugs t → t !! x = Some r →
  depth r = 0 ↔ parent r = None.
Proof.
  intros Hc Hs Hr. destruct (consistent_depth t x r Hc Hs Hr) as (l & Hl & ->).
  split.
  - intros Hz. destruct l; [|done]. by apply chain_nil in Hl.
  - intros Hn. rewrite Hn in Hl. by destruct l.
Qed.

Lemma StronglySorted_filter {A} (R : relation A) (P : A → Prop)
    `{∀ x, Decision (P x)} (l : list A) :
  StronglySorted R l → StronglySorted R (filter P l).
Proof.
  induction 1 as [|x l Hl IH Hx]; [constructor|].
  rewrite filter_cons. destruct (decide (P x)); [|done].
  constructor; [done|]. apply Forall_forall.
  intros y [_ Hy]%list_elem_of_filter. rewrite Forall_forall in Hx. auto.
Qed.
End toplevel_facts.

(** X16: in a consistent table with closed slugs and unique paths, the
    roots [build_tree_structure] returns for a queryset are the rows of the
    queryset without parent, in path order; for the default queryset they
    are the rows of [toplevel], in path order. *)
Theorem build_tree_structure_roots_toplevel (SITE_ID : nat) (db : Database)
    (qs : option QuerySet) (f : Forest) :
  consistent (categories db) → closed_slugs (categories db) →
  unique_paths (categories db) →
  build_tree_structure SITE_ID db qs = Ok f →
  omap (λ j, ordered_nodes SITE_ID db qs !! j) (ret f)
  = evaluate db
      (order_by ByPath (qs_filter (parent__isnull true) (default (live SITE_ID) qs)))
  ∧ (qs = None →
     omap (λ j, ordered_nodes SITE_ID db qs !! j) (ret f)
     = evaluate db (order_by ByPath (toplevel SITE_ID))).
Proof.
  intros Hc Hs Hu Hb.
  assert (omap (λ j, ordered_nodes SITE_ID db qs !! j) (ret f)
          = evaluate db
              (order_by ByPath
                 (qs_filter (parent__isnull true) (default (live SITE_ID) qs))))
    as Hmain.
  2:{ split; [done|]. intros ->. exact Hmain. }
  apply build_pass_inv in Hb as (Hret & _). rewrite Hret.
  etrans; [by apply (roots_by_position _ _ [])|].
  symmetry. unfold evaluate. apply sort_by_path_unique.
  - by left.
  - intros a b [_ Ha]%list_elem_of_filter [_ Hb]%list_elem_of_filter.
    apply elem_of_evaluate in Ha as [Ha _], Hb as [Hb _].
    by apply (objects_same_path (categories db)).
  - unfold ordered_nodes, evaluate, sort_by.
    rewrite merge_sort_Permutation, list_filter_filter.
    erewrite filter_ext_in; [done|].
    intros c (k & r & Hr & ->)%elem_of_objects. simpl.
    unfold parent__isnull.
    rewrite andb_True, !bool_decide_spec, bool_decide_eq_true.
    rewrite (consistent_depth_zero _ k r Hc Hs Hr). tauto.
  - apply StronglySorted_filter, sort_by_sorted.
Qed.

(** ** Descendants by path prefix: [all_children] and [subtree] *)

Section descendant_facts.
Import PyStr PyStrFacts.
Implicit Types (t : table) (db : Database) (l : list positive).

Lemma slength_app (s u : string) :
  String.length (s +:+ u) = String.length s + String.length u.
Proof.
  induction s as [|c s IH]; [done|].
  rewrite sapp_cons. cbn [String.length]. by rewrite IH.
Qed.

Lemma startswith_app (s u : string) : startswith (s +:+ u) s = true.
Proof.
  unfold startswith. induction s as [|c s IH]; [by destruct u|].
  rewrite sapp_cons. cbn [String.prefix]. by destruct (Ascii.ascii_dec c c).
Qed.

Lemma startswith_inv (s p : string) : startswith s p = true → ∃ u, s = p +:+ u.
Proof.
  unfold startswith. revert s. induction p as [|a p IH]; intros s H.
  - by exists s.
  - destruct s as [|b s]; [done|]. cbn [String.prefix] in H.
    destruct (Ascii.ascii_dec a b) as [->|]; [|done].
    destruct (IH _ H) as [u ->]. by exists u.
Qed.

(** Splitting a path extended by the delimiter and more text gives the
    pieces of the path first. *)
Lemma split_join_app (S : list string) (R : string) :
  Forall (λ s, closed_piece s = true) S → S ≠ [] →
  split_colons "" (join DELIMETER S +:+ DELIMETER +:+ R) = S ++ split_colons "" R.
Proof.
  intros HS. induction HS as [|a S Ha HS IH]; [done|]. intros _.
  destruct S as [|b S].
  - change (join DELIMETER [a]) with a. by rewrite split_closed_piece.
  - rewrite join_cons2, !sapp_assoc. rewrite split_closed_piece by done.
    by rewrite IH.
Qed.

Lemma prefixes_from_prefix (psf P Q : list string) :
  P ≠ [] → psf ++ P ∈ prefixes_from psf (P ++ Q).
Proof.
  revert psf. induction P as [|a P IH]; intros psf HP; [done|].
  rewrite <- app_comm_cons. cbn [prefixes_from].
  destruct P as [|b P]; [left|].
  right. rewrite (cons_middle a psf), (assoc (++)). by apply IH.
Qed.

(** In a consistent table with closed slugs every stored path splits into
    the slugs of its chain. *)
Lemma consistent_I6_chain t p l :
  consistent t → closed_slugs t → chain t p l → I6_chain t l.
Proof.
  intros Hc Hs. revert p. induction l as [|q l IH]; intros p; [done|].
  rewrite chain_cons. intros (-> & r & Hr & Hl). split; [|by eapply IH].
  unfold I6_at. rewrite Hr. split; [done|].
  destruct (Hc q r Hr) as (r' & l' & Hr' & Hl' & Hp).
  assert (r' = r) as -> by congruence.
  rewrite (chain_inj _ _ _ _ Hl' Hl) in Hp. rewrite Hp. unfold chain_path.
  apply split_join.
  - by apply Forall_reverse, slugs_of_closed.
  - apply closed_no_delim, (Hs q r Hr).
Qed.

(** The path of a row below [k] extends the path of [k] by the delimiter. *)
Lemma descendant_path t k rk x r l :
  consistent t → t !! k = Some rk → t !! x = Some r →
  chain t (parent r) l → k ∈ l →
  ∃ u, path r = path rk +:+ DELIMETER +:+ u.
Proof.
  intros Hc Hk Hx Hl Hkl.
  destruct (Hc x r Hx) as (r' & l' & Hr' & Hl' & Hp).
  assert (r' = r) as -> by congruence.
  rewrite (chain_inj _ _ _ _ Hl' Hl) in Hp. clear Hl'.
  destruct (chain_suffix _ _ _ _ Hl Hkl) as (l1 & l2 & -> & Hk2).
  apply chain_cons in Hk2 as (_ & rk' & Hrk' & Hl2).
  assert (rk' = rk) as -> by congruence.
  destruct (Hc k rk Hk) as (rk' & lk & Hrk'' & Hlk & Hpk).
  assert (rk' = rk) as -> by congruence.
  rewrite (chain_inj _ _ _ _ Hlk Hl2) in Hpk.
  exists (join DELIMETER (reverse (slugs_of t l1) ++ [slug r])).
  rewrite Hp, Hpk. unfold chain_path.
  assert (slugs_of t (l1 ++ k :: l2)
          = slugs_of t l1 ++ slug rk :: slugs_of t l2) as ->.
  { unfold slugs_of. rewrite omap_app. f_equal.
    apply (slugs_of_cons _ _ _ _ Hk). }
  rewrite reverse_app, reverse_cons, <- (assoc (++)).
  apply join_app.
  - by destruct (reverse (slugs_of t l2)).
  - by destruct (reverse (slugs_of t l1)).
Qed.
End descendant_facts.

(** X17: in a consistent table with closed slugs and unique paths,
    [all_children] of a stored node returns exactly the live rows that lie
    properly below it along the [parent] links, and [subtree] returns these
    and the node itself. *)
Theorem all_children_are_descendants (SITE_ID : nat) (db : Database)
    (self : DAGCategory) (k : positive) (c : DAGCategory) :
  consistent (categories db) → closed_slugs (categories db) →
  unique_paths (categories db) →
  pk self = Some k → categories db !! k = Some (row self) →
  (c ∈ evaluate db (all_children SITE_ID self) ↔
     is_live SITE_ID db c
     ∧ ∃ x, pk c = Some x ∧ x ≠ k ∧ in_subtree (categories db) k x)
  ∧ (c ∈ evaluate db (subtree SITE_ID self) ↔
     c = self
     ∨ (is_live SITE_ID db c
        ∧ ∃ x, pk c = Some x ∧ x ≠ k ∧ in_subtree (categories db) k x)).
Proof.
  intros Hc Hs Hu Hpk Hk. set (t := categories db) in *.
  assert (Hac : c ∈ evaluate db (all_children SITE_ID self) ↔
            is_live SITE_ID db c
            ∧ ∃ x, pk c = Some x ∧ x ≠ k ∧ in_subtree t k x).
  { rewrite elem_of_evaluate. unfold is_live. fold t.
    change (cond (all_children SITE_ID self) db c)
      with (cond (live SITE_ID) db c
            && PyStr.startswith (path c) (path self +:+ DELIMETER)).
    rewrite andb_true_iff. split.
    - intros (Hobj & Hlive & Hsw). split; [done|].
      apply elem_of_objects in Hobj as (x & r & Hr & ->).
      exists x. split; [done|]. cbn [path row] in Hsw.
      apply startswith_inv in Hsw as [u Hu'].
      rewrite PyStrFacts.sapp_assoc in Hu'.
      assert (x ≠ k) as Hne.
      { intros ->. assert (r = row self) as -> by congruence.
        apply (f_equal String.length) in Hu'.
        rewrite !slength_app in Hu'. simpl in Hu'. lia. }
      split; [done|].
      destruct (Hc x r Hr) as (r' & lx & Hr' & Hlx & Hpx).
      assert (r' = r) as -> by congruence.
      assert (chain t (Some x) (x :: lx)) as Hchx by (apply chain_cons; eauto).
      exists (x :: lx). split; [done|].
      pose proof (consistent_I6_chain t _ _ Hc Hs Hchx) as HI6.
      destruct (Hc k (row self) Hk) as (rk & lk & Hrk & Hlk & Hpk').
      assert (rk = row self) as -> by congruence.
      assert (PyStr.split_colons "" (path r)
              = (reverse (slugs_of t lk) ++ [slug self])
                ++ PyStr.split_colons "" u) as Hsplit.
      { rewrite Hu', Hpk'. unfold chain_path. apply split_join_app.
        - apply Forall_app. split; [by apply Forall_reverse, slugs_of_closed|].
          constructor; [apply (Hs k _ Hk)|constructor].
        - by destruct (reverse (slugs_of t lk)). }
      pose proof HI6 as [Hat _]. unfold I6_at in Hat. rewrite Hr in Hat.
      destruct Hat as [_ Hat]. rewrite Hat in Hsplit.
      destruct (proj1 (chain_prefix_paths t (x :: lx) (path self) HI6))
        as (y & ry & Hy & Hry & Hpy).
      { exists (reverse (slugs_of t lk) ++ [slug self]). split; [|done].
        rewrite (slugs_of_cons _ _ _ _ Hr), reverse_cons, Hsplit.
        apply (prefixes_from_prefix []). by destruct (reverse (slugs_of t lk)). }
      assert (mkCat (Some y) ry = mkCat (Some k) (row self)) as [= -> _].
      { apply (objects_same_path t); [done| | |done]; apply elem_of_objects; eauto. }
      done.
    - intros ((Hobj & Hlive) & x & Hx & Hne & (l & Hl & Hkl)).
      split_and!; [done..|].
      apply elem_of_objects in Hobj as (x' & r & Hr & ->).
      cbn [pk] in Hx. injection Hx as ->.
      apply chain_Some in Hl as (r' & l' & -> & Hr' & Hl').
      assert (r' = r) as -> by congruence.
      apply elem_of_cons in Hkl as [->|Hkl]; [done|].
      destruct (descendant_path t k (row self) x r l' Hc Hk Hr Hl' Hkl) as [u Hu'].
      cbn [path row]. rewrite Hu', <- PyStrFacts.sapp_assoc. apply startswith_app. }
  split; [done|].
  rewrite <- Hac, !elem_of_evaluate.
  change (cond (subtree SITE_ID self) db c)
    with (pk_is (pk self) db c || cond (all_children SITE_ID self) db c).
  rewrite orb_true_iff. unfold pk_is. rewrite bool_decide_eq_true. fold t.
  split.
  - intros [Hobj [[_ E]|Hall]]; [left|by right].
    apply elem_of_objects in Hobj as (x & r & Hr & ->).
    destruct self as [pks rs]. simpl in *. congruence.
  - intros [->|[Hobj Hall]]; [|by auto].
    split; [|left; rewrite Hpk; eauto].
    apply elem_of_objects. exists k, (row self). split; [done|].
    destruct self as [pks rs]. simpl in *. congruence.
Qed.

Lemma shoes_consistent : consistent shoes_table.
Proof.
  intros x r Hr.
  assert (x ∈ dom shoes_table) as Hx by (apply elem_of_dom; eauto).
  assert (dom shoes_table = {[1%positive; 2%positive]}) as E
    by (apply (bool_decide_unpack _); by vm_compute).
  rewrite E in Hx. clear E Hr.
  assert (x = 1%positive ∨ x = 2%positive) as [-> | ->] by set_solver.
  - eexists _, []. split_and!; [reflexivity|by vm_compute|reflexivity].
  - eexists _, [1%positive]. split_and!; [reflexivity|by vm_compute|reflexivity].
Qed.

Lemma build_tree_structure_roots_toplevel_witness :
  omap (λ j, ordered_nodes 7 shoes_db None !! j) (ret shoes_forest)
  = evaluate shoes_db (order_by ByPath (toplevel 7)).
Proof.
  apply (build_tree_structure_roots_toplevel 7 shoes_db None shoes_forest).
  - apply shoes_consistent.
  - apply (bool_decide_unpack _). by vm_compute.
  - apply (bool_decide_unpack _). by vm_compute.
  - by vm_compute.
  - reflexivity.
Defined.

Lemma all_children_are_descendants_witness :
  red_node ∈ evaluate shoes_db (all_children 7 shoes_node) ↔
    is_live 7 shoes_db red_node
    ∧ ∃ x, pk red_node = Some x ∧ x ≠ 1%positive
           ∧ in_subtree (categories shoes_db) 1%positive x.
Proof.
  apply (all_children_are_descendants 7 shoes_db shoes_node 1%positive red_node).
  - apply shoes_consistent.
  - apply (bool_decide_unpack _). by vm_compute.
  - apply (bool_decide_unpack _). by vm_compute.
  - reflexivity.
  - reflexivity.
Defined.

(** ** [branch], [leaf_node] and [inner_node] *)

(** X18: in a consistent table with closed slugs and unique paths, [branch]
    of a stored node returns the node followed by its ancestors along the
    [parent] links, youngest first. *)
Theorem branch_is_node_then_ancestors (db : Database) (self : DAGCategory)
    (k : positive) :
  consistent (categories db) → closed_slugs (categories db) →
  unique_paths (categories db) →
  pk self = Some k → categories db !! k = Some (row self) →
  ∃ l, chain (categories db) (parent self) l
       ∧ evaluate db (branch self) = self :: instances (categories db) l.
Proof.
  intros Hc Hs Hu Hpk Hk. set (t := categories db) in *.
  destruct (Hc k _ Hk) as (r' & l & Hr' & Hl & Hp).
  assert (r' = row self) as -> by congruence. clear Hr'.
  exists l. split; [done|].
  assert (chain t (Some k) (k :: l)) as Hch by (apply chain_cons; eauto).
  pose proof (consistent_I6_chain t _ _ Hc Hs Hch) as HI6.
  assert (self = mkCat (Some k) (row self)) as Eself
    by (destruct self; simpl in *; congruence).
  rewrite Eself at 2. rewrite <- (instances_cons t k (row self) l Hk).
  pose proof HI6 as [Hat _]. unfold I6_at in Hat. fold t in Hat.
  rewrite Hk in Hat. destruct Hat as [_ Hsplit].
  assert (Hmem : ∀ c, c ∈ filter (λ c, cond (branch self) db c) (objects t)
                      ↔ c ∈ instances t (k :: l)).
  { intros c. rewrite list_elem_of_filter, Is_true_true, elem_of_instances.
    change (cond (branch self) db c)
      with (cond (branch_loop (PyStr.split_colons "" (path self)) [] qs_none) db c).
    rewrite branch_loop_char, Hsplit.
    rewrite <- reverse_cons, <- (slugs_of_cons t k (row self)) by done.
    split.
    - intros [[[=]|Hpre] Hobj].
      destruct (proj1 (chain_prefix_paths t (k :: l) (path c) HI6) Hpre)
        as (x & r & Hx & Hr & Hpx).
      exists x, r. split_and!; [done..|].
      apply (objects_same_path t); [done|done| |done].
      apply elem_of_objects. eauto.
    - intros (x & r & Hx & Hr & ->). split.
      + right. apply (proj2 (chain_prefix_paths t (k :: l) _ HI6)). eauto.
      + apply elem_of_objects. eauto. }
  unfold evaluate. fold t. apply sort_by_path_unique.
  - by right.
  - intros a b Ha%Hmem Hb%Hmem.
    apply list_elem_of_filter in Ha as [_ Ha], Hb as [_ Hb].
    by apply (objects_same_path t).
  - apply NoDup_Permutation; [apply NoDup_filter, NoDup_objects| |done].
    apply NoDup_instances. by eapply chain_NoDup.
  - by apply I6_chain_sorted.
Qed.

Lemma branch_is_node_then_ancestors_witness :
  ∃ l, chain (categories shoes_db) (parent red_node) l
       ∧ evaluate shoes_db (branch red_node)
         = red_node :: instances (categories shoes_db) l.
Proof.
  apply (branch_is_node_then_ancestors shoes_db red_node 2%positive).
  - apply shoes_consistent.
  - apply (bool_decide_unpack _). by vm_compute.
  - apply (bool_decide_unpack _). by vm_compute.
  - reflexivity.
  - reflexivity.
Defined.

Lemma has_children_leaf_node (db : Database) (c : DAGCategory) :
  has_children db c = negb (leaf_node db c).
Proof.
  unfold has_children, leaf_node. rewrite negb_involutive.
  apply bool_decide_ext. rewrite Exists_exists. split.
  - intros (d & Hd & Hp) E. apply nil_length_inv in E.
    assert (d ∈ evaluate db (qs_filter (parent_is (pk c)) all_objects)) as Hin.
    { apply elem_of_evaluate. split; [done|]. simpl. unfold parent_is.
      by apply bool_decide_eq_true. }
    rewrite E in Hin. by apply elem_of_nil in Hin.
  - intros Hne.
    destruct (evaluate db (qs_filter (parent_is (pk c)) all_objects))
      as [|d rest] eqn:E; [done|].
    assert (d ∈ evaluate db (qs_filter (parent_is (pk c)) all_objects)) as Hin
      by (rewrite E; left).
    apply elem_of_evaluate in Hin as [Hobj Hcond]. simpl in Hcond.
    unfold parent_is in Hcond. apply bool_decide_eq_true in Hcond. eauto.
Qed.

(** X19: the manager methods and the instance properties agree.  A row is
    returned by [leaf_nodes] exactly when it is live and its [leaf_node]
    property holds, and by [inner_nodes] exactly when it is live and its
    [inner_node] property holds; a live row is in exactly one of the two
    querysets, and [subcategories] of a node whose [leaf_node] property
    holds is empty. *)
Theorem leaf_and_inner_nodes (SITE_ID : nat) (db : Database) (c : DAGCategory) :
  (c ∈ evaluate db (leaf_nodes SITE_ID) ↔
     is_live SITE_ID db c ∧ leaf_node db c = true)
  ∧ (c ∈ evaluate db (inner_nodes SITE_ID) ↔
     is_live SITE_ID db c ∧ inner_node db c = true)
  ∧ (is_live SITE_ID db c ↔
     (c ∈ evaluate db (leaf_nodes SITE_ID)
      ∧ c ∉ evaluate db (inner_nodes SITE_ID))
     ∨ (c ∈ evaluate db (inner_nodes SITE_ID)
        ∧ c ∉ evaluate db (leaf_nodes SITE_ID)))
  ∧ (leaf_node db c = true → evaluate db (subcategories SITE_ID c) = []).
Proof.
  assert (Hleaf : c ∈ evaluate db (leaf_nodes SITE_ID) ↔
            is_live SITE_ID db c ∧ leaf_node db c = true).
  { rewrite elem_of_evaluate. unfold is_live.
    change (cond (leaf_nodes SITE_ID) db c)
      with (cond (live SITE_ID) db c && children__isnull true db c).
    unfold children__isnull. rewrite has_children_leaf_node, negb_involutive.
    rewrite andb_true_iff, bool_decide_eq_true. tauto. }
  assert (Hinner : c ∈ evaluate db (inner_nodes SITE_ID) ↔
            is_live SITE_ID db c ∧ inner_node db c = true).
  { rewrite elem_of_evaluate. unfold is_live, inner_node.
    change (cond (inner_nodes SITE_ID) db c)
      with (cond (live SITE_ID) db c && children__isnull false db c).
    unfold children__isnull. rewrite has_children_leaf_node, negb_involutive.
    rewrite andb_true_iff, bool_decide_eq_true, negb_true_iff. tauto. }
  split_and!; [done|done| |].
  - rewrite Hleaf, Hinner. unfold inner_node.
    destruct (leaf_node db c); simpl; intuition congruence.
  - intros Hl.
    destruct (evaluate db (subcategories SITE_ID c)) as [|d rest] eqn:E; [done|].
    assert (d ∈ evaluate db (subcategories SITE_ID c)) as Hin by (rewrite E; left).
    apply elem_of_evaluate in Hin as [Hobj Hcond].
    change (cond (subcategories SITE_ID c) db d)
      with (true && parent_is (pk c) db d && sites__id SITE_ID db d) in Hcond.
    apply andb_true_iff in Hcond as [Hcond _]. simpl in Hcond.
    unfold leaf_node in Hl. apply negb_true_iff, bool_decide_eq_false in Hl.
    destruct Hl. intros E'%nil_length_inv.
    assert (d ∈ evaluate db (qs_filter (parent_is (pk c)) all_objects)) as Hin
      by (apply elem_of_evaluate; split; [done|]; simpl; done).
    rewrite E' in Hin. by apply elem_of_nil in Hin.
Qed.

(** ** [save] on a table that is already consistent *)

Section save_again.
Implicit Types (t : table) (self : DAGCategory).

Lemma unique_paths_alt t :
  unique_paths t ↔
  ∀ x y rx ry, t !! x = Some rx → t !! y = Some ry → path rx = path ry → x = y.
Proof.
  split.
  - intros Hu x y rx ry Hx Hy E.
    assert (mkCat (Some x) rx = mkCat (Some y) ry) as [= -> _]; [|done].
    apply (objects_same_path t); [done| | |done]; apply elem_of_objects; eauto.
  - intros H. unfold unique_paths.
    apply NoDup_fmap_2_strong; [|apply NoDup_objects].
    intros a b (x & rx & Hx & ->)%elem_of_objects
      (y & ry & Hy & ->)%elem_of_objects E. simpl in E.
    assert (x = y) as -> by eauto. congruence.
Qed.

Lemma path_taken_false t k p :
  path_taken t k p = false →
  ∀ k' r', t !! k' = Some r' → path r' = p → Some k' = k.
Proof.
  intros H k' r' Hr Hp. destruct (decide (Some k' = k)) as [|Hne]; [done|].
  rewrite (path_taken_true t k p k' r') in H; done.
Qed.

Lemma path_taken_unique t k r :
  unique_paths t → t !! k = Some r → path_taken t (Some k) (path r) = false.
Proof.
  intros Hu Hr. unfold path_taken. apply bool_decide_eq_false.
  rewrite Exists_exists. intros (c & Hc & Hp & Hne). apply Hne.
  assert (c = mkCat (Some k) r) as ->; [|done].
  apply (objects_same_path t); [done|done| |done]. apply elem_of_objects; eauto.
Qed.

(** The unique constraint survives every write that [Model.save] accepts. *)
Lemma super_save_unique t self t1 k :
  unique_paths t → super_save t self = Ok (t1, k) → unique_paths t1.
Proof.
  intros Hu Hs. pose proof (super_save_Ok _ _ _ _ Hs) as [-> Hor].
  unfold super_save in Hs.
  destruct (path_taken t (pk self) (path self)) eqn:Ht; [done|]. clear Hs.
  pose proof (path_taken_false _ _ _ Ht) as Hfree.
  rewrite unique_paths_alt in Hu |- *.
  assert (Hk : ∀ y ry, y ≠ k → t !! y = Some ry → path ry ≠ path self).
  { intros y ry Hy Hry E. specialize (Hfree y ry Hry E).
    destruct Hor as [Hor|[Hor _]]; congruence. }
  intros x y rx ry.
  destruct (decide (x = k)) as [->|Hx], (decide (y = k)) as [->|Hy]; [done|..].
  - rewrite lookup_insert_eq, lookup_insert_ne by done.
    intros [= <-] Hry E. by destruct (Hk y ry).
  - rewrite lookup_insert_eq, lookup_insert_ne by done.
    intros Hrx [= <-] E. by destruct (Hk x rx).
  - rewrite !lookup_insert_ne by done. apply Hu.
Qed.

Lemma for_each_invariant {A} (Φ : table → Prop)
    (body : table → A → table * Result unit) (l : list A) :
  (∀ t c, Φ t → Φ (body t c).1) → ∀ t, Φ t → Φ (for_each body l t).1.
Proof.
  intros Hb. induction l as [|c l IH]; intros t Ht; [done|].
  rewrite for_each_cons. specialize (Hb t c Ht).
  destruct (body t c) as [t1 [[]|e]]; [by apply IH|done].
Qed.

(** What every accepted write preserves, [save] preserves, whatever its
    outcome. *)
Lemma save_fuel_invariant (Φ : table → Prop) :
  (∀ t self t1 k, Φ t → super_save t self = Ok (t1, k) → Φ t1) →
  ∀ fuel t self, Φ t → Φ (save_fuel fuel t self).1.1.
Proof.
  intros HΦ. induction fuel as [|fuel IH]; intros t self Ht; [done|].
  rewrite save_fuel_S.
  destruct (walk _ _ _ _ _) as [p|e]; [|done].
  destruct (super_save t (with_path p self)) as [[t1 k]|e] eqn:E; [|done].
  assert (Φ t1) as Ht1 by eauto.
  pose proof (for_each_invariant Φ
    (λ t c, update_path_with (save_fuel fuel) t c p) (children_all t1 k)) as Hf.
  destruct (for_each _ _ t1) as [t2 r] eqn:E2. simpl.
  change t2 with (t2, r).1. rewrite <- E2. apply Hf; [|done].
  intros t0 c Ht0. unfold update_path_with.
  specialize (IH t0 (with_path (p +:+ DELIMETER +:+ slug c) c) Ht0).
  by destruct (save_fuel fuel t0 _) as [[t3 s3] r3].
Qed.

Lemma for_each_noop {A} (body : table → A → table * Result unit)
    (l : list A) t :
  (∀ c, c ∈ l → (body t c).2 ≠ Raise OutOfFuel → body t c = (t, Ok ())) →
  (for_each body l t).2 ≠ Raise OutOfFuel → for_each body l t = (t, Ok ()).
Proof.
  induction l as [|c l IH]; intros Hb Hne; [done|].
  rewrite for_each_cons in Hne |- *.
  assert (c ∈ c :: l) as Hc by left. specialize (Hb c Hc) as Hbc.
  destruct (body t c) as [t1 [[]|e]] eqn:E.
  - specialize (Hbc ltac:(done)). injection Hbc as ->.
    apply IH; [|done]. intros c' Hc'. apply Hb. by right.
  - simpl in Hne. specialize (Hbc Hne). done.
Qed.

(** Saving a stored row of a consistent table with unique paths writes
    what is there already, on the row and on every row below it. *)
Lemma save_fuel_noop fuel :
  ∀ t self k,
    consistent t → unique_paths t → pk self = Some k → t !! k = Some (row self) →
    (save_fuel fuel t self).2 ≠ Raise OutOfFuel →
    save_fuel fuel t self = (t, self, Ok ()).
Proof.
  induction fuel as [|fuel IH]; intros t self k Hc Hu Hpk Hk Hne; [done|].
  rewrite save_fuel_S in Hne |- *.
  destruct (Hc k _ Hk) as (r' & l & Hr' & Hl & Hp).
  assert (r' = row self) as -> by congruence. clear Hr'.
  assert (walk (S (size t)) t (parent self) {[pk self]} (slug self)
          = Ok (path self)) as Hw.
  { rewrite Hp. apply walk_chain_ok; [done|].
    intros k' Hk'. rewrite Hpk in Hk'. injection Hk' as <-.
    by eapply chain_not_below. }
  rewrite Hw in Hne |- *.
  assert (with_path (path self) self = self) as Ew by (by destruct self as [? []]).
  assert (set_path (path self) self = row self) as Es by (by destruct self as [? []]).
  rewrite Ew, Es in Hne |- *.
  assert (super_save t self = Ok (t, k)) as Hss.
  { unfold super_save. rewrite Hpk, (path_taken_unique t k (row self)) by done.
    by rewrite insert_id. }
  rewrite Hss in Hne |- *.
  assert (for_each (λ t c, update_path_with (save_fuel fuel) t c (path self))
            (children_all t k) t = (t, Ok ())) as ->.
  2:{ f_equal. f_equal. destruct self; simpl in *; congruence. }
  apply for_each_noop.
  - intros c (ck & r & Hr & Hpar & ->)%elem_of_children_all Hnec.
    unfold update_path_with in Hnec |- *.
    destruct (good_parent_path t ck r k (Hc ck r Hr) (Hc k _ Hk) Hr Hpar)
      as (rq & Hrq & Hpc).
    assert (rq = row self) as -> by congruence.
    assert (with_path (path self +:+ DELIMETER +:+ slug (mkCat (Some ck) r))
              (mkCat (Some ck) r) = mkCat (Some ck) r) as Ewc.
    { unfold with_path. cbn [pk row]. f_equal. rewrite <- Hpc. by destruct r. }
    rewrite Ewc in Hnec |- *.
    specialize (IH t (mkCat (Some ck) r) ck Hc Hu eq_refl Hr).
    destruct (save_fuel fuel t (mkCat (Some ck) r)) as [[t1 s1] r1].
    simpl in Hnec. specialize (IH Hnec). by injection IH as -> -> ->.
  - by destruct (for_each _ _ t) as [t2 r2].
Qed.

Lemma save_stored_noop t self k :
  consistent t → unique_paths t → pk self = Some k → t !! k = Some (row self) →
  save t self = (t, self, Ok ()).
Proof.
  intros Hc Hu Hpk Hk. apply (save_fuel_noop _ t self k); [done..|].
  apply save_never_out_of_fuel.
Qed.
End save_again.

(** X20: in a consistent table with unique paths, saving a stored node as
    it is stored succeeds and changes neither the table nor the instance:
    the node and every row below it are written back with the path they
    hold. *)
Theorem save_unmodified_is_noop (t : table) (self : DAGCategory) (k : positive) :
  consistent t → unique_paths t → pk self = Some k → t !! k = Some (row self) →
  save t self = (t, self, Ok ()).
Proof. apply save_stored_noop. Qed.

Lemma save_unmodified_is_noop_witness : save tree3 node_a = (tree3, node_a, Ok ()).
Proof.
  apply (save_unmodified_is_noop tree3 node_a 1%positive).
  - apply tree3_consistent.
  - apply (bool_decide_unpack _). by vm_compute.
  - reflexivity.
  - reflexivity.
Defined.

(** X21: [save] is idempotent.  After a save that returns normally on a
    consistent table with unique paths, the paths are still unique, and
    saving the returned instance once more succeeds and changes nothing. *)
Theorem save_idempotent (t : table) (self : DAGCategory) (t' : table)
    (self' : DAGCategory) :
  consistent t → unique_paths t → save t self = (t', self', Ok ()) →
  unique_paths t' ∧ save t' self' = (t', self', Ok ()).
Proof.
  intros Hc Hu Hsave.
  assert (unique_paths t') as Hu'.
  { pose proof (save_fuel_invariant unique_paths super_save_unique
                  (S (S (size t))) t self Hu) as H.
    unfold save in Hsave. by rewrite Hsave in H. }
  split; [done|].
  apply save_fuel_ok in Hsave.
  pose proof (save_post_consistent _ _ _ _ Hc Hsave) as Hc'.
  destruct Hsave as (k & l & Hpk & _ & _ & _ & _ & Hk & _).
  by apply (save_stored_noop t' self' k).
Qed.

Lemma save_idempotent_witness :
  unique_paths
    (save tree3 (mkCat (Some 1%positive) (mkRow "A" "x" None "a" 0))).1.1
  ∧ save (save tree3 (mkCat (Some 1%positive) (mkRow "A" "x" None "a" 0))).1.1
      (save tree3 (mkCat (Some 1%positive) (mkRow "A" "x" None "a" 0))).1.2
    = ((save tree3 (mkCat (Some 1%positive) (mkRow "A" "x" None "a" 0))).1.1,
       (save tree3 (mkCat (Some 1%positive) (mkRow "A" "x" None "a" 0))).1.2,
       Ok ()).
Proof.
  apply (save_idempotent tree3
           (mkCat (Some 1%positive) (mkRow "A" "x" None "a" 0))).
  - apply tree3_consistent.
  - apply (bool_decide_unpack _). by vm_compute.
  - by vm_compute.
Defined.
